(** * Seshat: a radix trie with a C++ core (RadixNode.h, RadixTrie.h, RadixTrie.cc)

    A shallow embedding of the trie core, the streaming ingest, the
    analytics and the wildcard matcher, followed by the properties of the
    specification that concern them, and by further properties of the
    operations, of [starts_with], of the memory statistics and of the
    batch methods of the Node binding (the implementation of Seshat.h).

    Conventions of the embedding:
    - a byte ([char]) is an [ascii]; a [std::string] or [std::string_view]
      is a [list ascii];
    - whether plain [char] is signed is implementation-defined in C++; the
      model takes it as the parameter [char_signed] and every result is
      stated for both choices unless it says otherwise;
    - a node owns its children: the tree of [unique_ptr]s is an inductive
      tree; the non-owning [parent] pointer is the position in that tree;
    - a raw [RadixNode *] is a path of child indices from the root;
    - a loop that walks down the tree takes a fuel argument; the public
      operations supply a fuel that is shown to be always sufficient;
    - [size_t] is a 64-bit unsigned integer with wrap-around; [int] values
      (depths, lengths, frequencies) are mathematical integers, signed
      overflow being undefined in C++; the one sum that the code takes in
      [int] over all words, the total of the word lengths, is modelled as
      the compiled code computes it, with the wrap-around of a 32-bit
      two's complement [int], and then widened to [size_t]. *)

From Stdlib Require Import Ascii String.
From Stdlib Require Import List ZArith Lia Bool Arith PeanoNat.
From Stdlib Require Import Sorted Permutation QArith Setoid Morphisms.
Import ListNotations.
Close Scope Q_scope.

Set Implicit Arguments.

(** ** Bytes and strings *)

Definition str (s : string) : list ascii := list_ascii_of_string s.
Arguments str s%_string.

Definition byte_value (c : ascii) : Z := Z.of_N (N_of_ascii c).

Fixpoint bytes_eqb (a b : list ascii) : bool :=
  match a, b with
  | [], [] => true
  | x :: a', y :: b' => Ascii.eqb x y && bytes_eqb a' b'
  | _, _ => false
  end.

(** [a < b] on [unsigned char]: the raw byte order. *)
Definition byte_ltb (a b : ascii) : bool := (byte_value a <? byte_value b)%Z.

(** [std::string::operator<]: [char_traits<char>::compare], bytes compared
    as [unsigned char], a proper prefix before its extensions. *)
Fixpoint string_ltb (a b : list ascii) : bool :=
  match a, b with
  | [], [] => false
  | [], _ :: _ => true
  | _ :: _, [] => false
  | x :: a', y :: b' =>
      if (byte_value x <? byte_value y)%Z then true
      else if (byte_value y <? byte_value x)%Z then false
      else string_ltb a' b'
  end.

(** ** [size_t] arithmetic *)

Definition size_t_modulus : Z := 2 ^ 64.
Definition size_t_inc (n : Z) : Z := ((n + 1) mod size_t_modulus)%Z.
Definition size_t_dec (n : Z) : Z := ((n - 1) mod size_t_modulus)%Z.

(** ** Vectors ([std::vector]) addressed by position *)

Definition vec_insert {A} (it : nat) (x : A) (v : list A) : list A :=
  firstn it v ++ x :: skipn it v.

Definition vec_erase {A} (it : nat) (v : list A) : list A :=
  firstn it v ++ skipn (S it) v.

Definition vec_set {A} (it : nat) (x : A) (v : list A) : list A :=
  match nth_error v it with
  | Some _ => firstn it v ++ x :: skipn (S it) v
  | None => v
  end.

(** ** RadixNode.h *)

#[local] Unset Elimination Schemes.
Inductive RadixNode : Type :=
  mkNode {
    key : list ascii;
    is_end : bool;
    parent_char : ascii;
    children : list (ascii * RadixNode)
  }.

#[local] Set Elimination Schemes.

Definition ChildVec : Type := list (ascii * RadixNode).

(** [RadixNode() = default] *)
Definition default_node : RadixNode := mkNode [] false zero [].

Definition set_key (k : list ascii) (n : RadixNode) : RadixNode :=
  mkNode k (is_end n) (parent_char n) (children n).
Definition set_is_end (b : bool) (n : RadixNode) : RadixNode :=
  mkNode (key n) b (parent_char n) (children n).
Definition set_parent_char (c : ascii) (n : RadixNode) : RadixNode :=
  mkNode (key n) (is_end n) c (children n).
Definition set_children (cs : ChildVec) (n : RadixNode) : RadixNode :=
  mkNode (key n) (is_end n) (parent_char n) cs.

(** Longest chain of owned children below a node: the measure that bounds
    every descent. *)
Fixpoint node_height (n : RadixNode) : nat :=
  match n with
  | mkNode _ _ _ cs =>
      fold_right (fun p h => Nat.max (S (node_height (snd p))) h) 0 cs
  end.

(** A [RadixNode *] into the tree: the child positions from the root. *)
Definition NodePtr : Type := list nat.

Fixpoint node_at (n : RadixNode) (p : NodePtr) : option RadixNode :=
  match p with
  | [] => Some n
  | i :: p' =>
      match nth_error (children n) i with
      | Some (_, c) => node_at c p'
      | None => None
      end
  end.

(** Assignment through a pointer: [f] applied to the node at [p]. *)
Fixpoint node_update (f : RadixNode -> RadixNode) (p : NodePtr)
    (n : RadixNode) : RadixNode :=
  match p with
  | [] => f n
  | i :: p' =>
      match nth_error (children n) i with
      | Some (k, c) =>
          set_children (vec_set i (k, node_update f p' c) (children n)) n
      | None => n
      end
  end.

(** ** RadixTrie.h *)

Record RadixTrie : Type :=
  mkTrie {
    root : RadixNode;
    word_count_ : Z
  }.

(** [RadixTrie::RadixTrie()] *)
Definition new_trie : RadixTrie := mkTrie default_node 0.

(** [RadixTrie::empty], [RadixTrie::size], [RadixTrie::clear] *)
Definition empty (t : RadixTrie) : bool := (word_count_ t =? 0)%Z.
Definition size (t : RadixTrie) : Z := word_count_ t.
Definition clear (t : RadixTrie) : RadixTrie := mkTrie default_node 0.

(** [RadixTrie::common_prefix_length] *)
Fixpoint common_prefix_length (s1 s2 : list ascii) : nat :=
  match s1, s2 with
  | a :: s1', b :: s2' =>
      if Ascii.eqb a b then S (common_prefix_length s1' s2') else 0
  | _, _ => 0
  end.

Section Platform.

(** Whether plain [char] is a signed type on the target. *)
Variable char_signed : bool.

(** The value of a [char] in a comparison. *)
Definition char_value (c : ascii) : Z :=
  if char_signed && (128 <=? byte_value c)%Z
  then (byte_value c - 256)%Z else byte_value c.

(** [a < b] on [char]. *)
Definition char_ltb (a b : ascii) : bool := (char_value a <? char_value b)%Z.

(** [std::lower_bound] with the comparator [p.first < key]: the furthest
    position all of whose predecessors compare less than [c]. *)
Fixpoint lower_bound (v : ChildVec) (c : ascii) : nat :=
  match v with
  | [] => 0
  | (k, _) :: v' => if char_ltb k c then S (lower_bound v' c) else 0
  end.

(** [RadixTrie::find_child] *)
Definition find_child (node : RadixNode) (c : ascii) : nat :=
  lower_bound (children node) c.

(** The test [it != end && it->first == c] with the child it designates. *)
Definition child_at (node : RadixNode) (it : nat) (c : ascii)
    : option RadixNode :=
  match nth_error (children node) it with
  | Some (k, child) => if Ascii.eqb k c then Some child else None
  | None => None
  end.

(** [RadixTrie::find_node]: the loop, from [current] (at [path]) with
    [rest = word.substr(pos)].  [None]: out of fuel; [Some None]:
    [nullptr]. *)
Fixpoint find_node_loop (fuel : nat) (current : RadixNode) (path : NodePtr)
    (rest : list ascii) : option (option NodePtr) :=
  match fuel with
  | O => None
  | S fuel' =>
      match rest with
      | [] => Some (Some path)
      | first_char :: _ =>
          let it := find_child current first_char in
          match child_at current it first_char with
          | None => Some None
          | Some child =>
              let child_key := key child in
              if length rest <? length child_key then Some None
              else if negb (bytes_eqb (firstn (length child_key) rest) child_key)
              then Some None
              else find_node_loop fuel' child (path ++ [it])
                     (skipn (length child_key) rest)
          end
      end
  end.

Definition find_node (word : list ascii) (t : RadixTrie) : option NodePtr :=
  match word with
  | [] => None
  | _ =>
      match find_node_loop (S (node_height (root t))) (root t) [] word with
      | Some r => r
      | None => None
      end
  end.

(** [RadixTrie::search] *)
Definition search (word : list ascii) (t : RadixTrie) : bool :=
  match find_node word t with
  | Some p =>
      match node_at (root t) p with
      | Some node => is_end node
      | None => false
      end
  | None => false
  end.

(** [RadixTrie::split_node]: the new contents of [current]. *)
Definition split_node (current : RadixNode) (first_char : ascii)
    (common_len : nat) (child_key : list ascii) : RadixNode :=
  let it := find_child current first_char in
  match nth_error (children current) it with
  | Some (k, old_child) =>
      let intermediate :=
        mkNode (firstn common_len child_key) false first_char [] in
      let old_child := set_key (skipn common_len child_key) old_child in
      let old_first_char := hd zero (key old_child) in
      let insert_pos := find_child intermediate old_first_char in
      let old_child := set_parent_char old_first_char old_child in
      let intermediate :=
        set_children
          (vec_insert insert_pos (old_first_char, old_child)
             (children intermediate)) intermediate in
      set_children (vec_set it (k, intermediate) (children current)) current
  | None => current
  end.

(** [RadixTrie::insert]: the loop.  The result is the new contents of
    [current] and the new [word_count_]; [None] when the fuel runs out. *)
Fixpoint insert_loop (fuel : nat) (current : RadixNode) (rest : list ascii)
    (count : Z) : option (RadixNode * Z) :=
  match fuel with
  | O => None
  | S fuel' =>
      match rest with
      | [] => Some (current, count)
      | first_char :: _ =>
          let it := find_child current first_char in
          match child_at current it first_char with
          | None =>
              let new_node := mkNode rest true first_char [] in
              Some (set_children
                      (vec_insert it (first_char, new_node) (children current))
                      current,
                    size_t_inc count)
          | Some child =>
              let child_key := key child in
              let common_len := common_prefix_length child_key rest in
              if common_len =? length child_key then
                match skipn common_len rest with
                | [] =>
                    if is_end child then Some (current, count)
                    else
                      Some (set_children
                              (vec_set it (first_char, set_is_end true child)
                                 (children current)) current,
                            size_t_inc count)
                | (_ :: _) as rest' =>
                    match insert_loop fuel' child rest' count with
                    | Some (child', count') =>
                        Some (set_children
                                (vec_set it (first_char, child')
                                   (children current)) current, count')
                    | None => None
                    end
                end
              else
                let current := split_node current first_char common_len
                                 child_key in
                let it := find_child current first_char in
                match nth_error (children current) it with
                | Some (k, inter) =>
                    match skipn common_len rest with
                    | [] =>
                        if is_end inter then Some (current, count)
                        else
                          Some (set_children
                                  (vec_set it (k, set_is_end true inter)
                                     (children current)) current,
                                size_t_inc count)
                    | (_ :: _) as rest' =>
                        match insert_loop fuel' inter rest' count with
                        | Some (inter', count') =>
                            Some (set_children
                                    (vec_set it (k, inter')
                                       (children current)) current, count')
                        | None => None
                        end
                    end
                | None => None
                end
          end
      end
  end.

Definition insert (word : list ascii) (t : RadixTrie) : RadixTrie :=
  match word with
  | [] => t
  | _ =>
      match insert_loop (S (node_height (root t))) (root t) word
              (word_count_ t) with
      | Some (r, c) => mkTrie r c
      | None => t
      end
  end.

(** [RadixTrie::collect_words_from_node]; [result] is the vector the C++
    code appends to. *)
Fixpoint collect_words_from_node (node : RadixNode) (prefix : list ascii)
    (result : list (list ascii)) : list (list ascii) :=
  match node with
  | mkNode k e _ cs =>
      let full_word := prefix ++ k in
      let result := if e then result ++ [full_word] else result in
      fold_left (fun res p => collect_words_from_node (snd p) full_word res)
        cs result
  end.

(** [RadixTrie::words_with_prefix]: the loop for a non-empty prefix. *)
Fixpoint words_with_prefix_loop (fuel : nat) (prefix : list ascii)
    (current : RadixNode) (pos : nat) : option (list (list ascii)) :=
  match fuel with
  | O => None
  | S fuel' =>
      match skipn pos prefix with
      | [] =>
          let base_prefix :=
            match key current with
            | [] => prefix
            | _ :: _ =>
                if length (key current) <=? length prefix
                then firstn (length prefix - length (key current)) prefix
                else prefix
            end in
          Some (collect_words_from_node current base_prefix [])
      | (first_char :: _) as rest =>
          let it := find_child current first_char in
          match child_at current it first_char with
          | None => Some []
          | Some child =>
              let child_key := key child in
              if length prefix <? pos + length child_key then
                if bytes_eqb rest (firstn (length prefix - pos) child_key)
                then Some (collect_words_from_node child (firstn pos prefix) [])
                else Some []
              else if negb (bytes_eqb (firstn (length child_key) rest)
                              child_key)
              then Some []
              else words_with_prefix_loop fuel' prefix child
                     (pos + length child_key)
          end
      end
  end.

Definition words_with_prefix (prefix : list ascii) (t : RadixTrie)
    : list (list ascii) :=
  match prefix with
  | [] => collect_words_from_node (root t) [] []
  | _ =>
      match words_with_prefix_loop (S (node_height (root t))) prefix
              (root t) 0 with
      | Some r => r
      | None => []
      end
  end.

(** [RadixTrie::cleanup_orphaned_nodes]: the walk back to the root along
    the parent pointers.  [rcurrent] is the pointer [current] with its
    positions in reverse order, so that its tail is [current->parent]. *)
Fixpoint cleanup_ascend (r : RadixNode) (rcurrent : list nat) : RadixNode :=
  match rcurrent with
  | [] => r
  | _ :: rparent =>
      match node_at r (rev rcurrent), node_at r (rev rparent) with
      | Some current, Some parent =>
          let char_to_remove := parent_char current in
          if match children current with [] => true | _ :: _ => false end
             && negb (is_end current)
          then
            let pit := find_child parent char_to_remove in
            let r' :=
              match child_at parent pit char_to_remove with
              | Some _ =>
                  node_update
                    (fun n => set_children (vec_erase pit (children n)) n)
                    (rev rparent) r
              | None => r
              end in
            cleanup_ascend r' rparent
          else r
      | _, _ => r
      end
  end.

(** [RadixTrie::cleanup_orphaned_nodes]; its descent is the loop of
    [find_node]. *)
Definition cleanup_orphaned_nodes (word : list ascii) (t : RadixTrie)
    : RadixTrie :=
  match word with
  | [] => t
  | _ =>
      match find_node_loop (S (node_height (root t))) (root t) [] word with
      | Some (Some current) =>
          match node_at (root t) current with
          | Some node =>
              if is_end node
              then mkTrie (cleanup_ascend (root t) (rev current))
                     (word_count_ t)
              else t
          | None => t
          end
      | _ => t
      end
  end.

(** [RadixTrie::remove]: the returned flag and the new state. *)
Definition remove (word : list ascii) (t : RadixTrie) : bool * RadixTrie :=
  match word with
  | [] => (false, t)
  | _ =>
      match find_node word t with
      | Some p =>
          match node_at (root t) p with
          | Some node =>
              if is_end node then
                let t1 := mkTrie (node_update (set_is_end false) p (root t))
                            (size_t_dec (word_count_ t)) in
                (true, cleanup_orphaned_nodes word t1)
              else (false, t)
          | None => (false, t)
          end
      | None => (false, t)
      end
  end.

(** ** Streaming ingest: [RadixTrie::bulk_insert_from_file] *)

(** [std::isspace] in the "C" locale, on an [unsigned char]. *)
Definition isspace (c : ascii) : bool :=
  let n := byte_value c in
  ((n =? 32) || ((9 <=? n) && (n <=? 13)))%Z.

(** [c == '\n' || c == '\r'] *)
Definition is_line_break (c : ascii) : bool :=
  Ascii.eqb c "010"%char || Ascii.eqb c "013"%char.

Fixpoint drop_space (s : list ascii) : list ascii :=
  match s with
  | c :: s' => if isspace c then drop_space s' else s
  | [] => []
  end.

(** The view [[b, e)] left by the two trimming loops: [e] moves back over
    trailing white space, then [b] moves forward over leading white space. *)
Definition trim_view (s : list ascii) : list ascii :=
  drop_space (rev (drop_space (rev s))).

(** The inner [while] that skips consecutive CR/LF bytes after a line
    boundary. *)
Fixpoint skip_line_breaks (buf : list ascii) : list ascii :=
  match buf with
  | c :: buf' => if is_line_break c then skip_line_breaks buf' else buf
  | [] => []
  end.

(** The state threaded through the ingest: the carry, the trie and
    [words_inserted]. *)
Definition IngestState : Type := (list ascii * RadixTrie * Z)%type.

(** Trim a line and insert it when something is left. *)
Definition insert_trimmed (line : list ascii) (t : RadixTrie) (n : Z)
    : RadixTrie * Z :=
  match trim_view line with
  | [] => (t, n)
  | (_ :: _) as word_view => (insert word_view t, size_t_inc n)
  end.

(** What happens at a line boundary: [seg] is [buffer[line_start, i)]. *)
Definition at_line_break (seg : list ascii) (st : IngestState)
    : IngestState :=
  let '(carry, t, n) := st in
  match seg, carry with
  | [], [] => st
  | _, _ :: _ =>
      let '(t', n') := insert_trimmed (carry ++ seg) t n in ([], t', n')
  | _, [] =>
      let '(t', n') := insert_trimmed seg t n in ([], t', n')
  end.

(** The [for] loop over one chunk: [buf] is what lies at and after
    position [i], [seg] is [buffer[line_start, i)].  At the end of the
    chunk the unfinished segment is appended to the carry. *)
Fixpoint scan_chunk (fuel : nat) (buf seg : list ascii) (st : IngestState)
    : option IngestState :=
  match fuel with
  | O => None
  | S fuel' =>
      match buf with
      | [] => let '(carry, t, n) := st in Some (carry ++ seg, t, n)
      | c :: buf' =>
          if is_line_break c
          then scan_chunk fuel' (skip_line_breaks buf') [] (at_line_break seg st)
          else scan_chunk fuel' buf' (seg ++ [c]) st
      end
  end.

(** The [while (!file.eof())] loop; [input] is what the stream has not
    delivered yet, [eof] the stream's end-of-file flag. *)
Fixpoint read_loop (fuel : nat) (buffer_size : nat) (input : list ascii)
    (eof : bool) (st : IngestState) : option IngestState :=
  match fuel with
  | O => None
  | S fuel' =>
      if eof then Some st
      else
        let chunk := firstn buffer_size input in
        let eof' := length input <? buffer_size in
        match chunk with
        | [] => Some st
        | _ :: _ =>
            match scan_chunk (S (length chunk)) chunk [] st with
            | Some st' =>
                read_loop fuel' buffer_size (skipn buffer_size input) eof' st'
            | None => None
            end
        end
  end.

(** [bulk_insert_from_file] on a file that opens, with contents [input]:
    the returned count and the new state. *)
Definition bulk_insert_from_file (input : list ascii) (buffer_size : nat)
    (t : RadixTrie) : Z * RadixTrie :=
  match read_loop (S (length input)) buffer_size input false ([], t, 0%Z) with
  | Some (carry, t', n) =>
      match carry with
      | [] => (n, t')
      | _ :: _ => let '(t'', n') := insert_trimmed carry t' n in (n', t'')
      end
  | None => (0%Z, t)
  end.

(** ** Analytics *)

Fixpoint calculate_heights_recursive (node : RadixNode) (current_depth : Z)
    (heights : list Z) : list Z :=
  match node with
  | mkNode _ e _ cs =>
      let heights := if e then heights ++ [current_depth] else heights in
      fold_left
        (fun hs p => calculate_heights_recursive (snd p) (current_depth + 1) hs)
        cs heights
  end.

Fixpoint collect_word_lengths_recursive (node : RadixNode)
    (current_length : Z) (lengths : list Z) : list Z :=
  match node with
  | mkNode k e _ cs =>
      let new_length := (current_length + Z.of_nat (length k))%Z in
      let lengths := if e then lengths ++ [new_length] else lengths in
      fold_left
        (fun ls p => collect_word_lengths_recursive (snd p) new_length ls)
        cs lengths
  end.

(** [*std::min_element] and [*std::max_element]; [None] on an empty range,
    where the C++ code would dereference [end()]. *)
Definition min_element (xs : list Z) : option Z :=
  match xs with
  | [] => None
  | x :: xs' => Some (fold_left Z.min xs' x)
  end.

Definition max_element (xs : list Z) : option Z :=
  match xs with
  | [] => None
  | x :: xs' => Some (fold_left Z.max xs' x)
  end.

(** [std::unordered_map<int, int>]: the entries, in the order in which
    their keys were first inserted. *)
Definition FreqMap : Type := list (Z * Z).

(** [frequency[k]++] *)
Fixpoint freq_incr (k : Z) (m : FreqMap) : FreqMap :=
  match m with
  | [] => [(k, 1%Z)]
  | (k', c) :: m' =>
      if (k' =? k)%Z then (k', (c + 1)%Z) :: m' else (k', c) :: freq_incr k m'
  end.

Definition build_frequency (xs : list Z) : FreqMap :=
  fold_left (fun m x => freq_incr x m) xs [].

(** The loop that picks the mode: the state is [max_count] and the mode
    assigned so far ([None]: not assigned yet). *)
Definition mode_step (st : Z * option Z) (entry : Z * Z) : Z * option Z :=
  let '(max_count, mode) := st in
  let '(value, count) := entry in
  if (count >? max_count)%Z then (count, Some value) else (max_count, mode).

Record HeightStats : Type :=
  mkHeightStats {
    min_height : Z;
    max_height : Z;
    average_height : Q;
    mode_height : option Z;
    all_heights : list Z
  }.

Record WordMetrics : Type :=
  mkWordMetrics {
    min_length : Z;
    max_length : Z;
    average_length : Q;
    mode_length : option Z;
    length_distribution : list Z;
    total_characters : Z
  }.

(** [v[i]++] on a vector of counters. *)
Fixpoint incr_at (i : nat) (v : list Z) : list Z :=
  match v, i with
  | [], _ => []
  | x :: v', O => (x + 1)%Z :: v'
  | x :: v', S i' => x :: incr_at i' v'
  end.

Definition average (xs : list Z) : Q :=
  (inject_Z (fold_left Z.add xs 0%Z) / inject_Z (Z.of_nat (length xs)))%Q.

(** [int]: 32 bits, two's complement.  [int_wrap z] is the [int] that the
    compiled code holds where the exact result is [z]. *)
Definition int_wrap (z : Z) : Z := ((z + 2 ^ 31) mod 2 ^ 32 - 2 ^ 31)%Z.

(** [a + b] on [int], as [std::accumulate] with the initial value [0] of
    type [int] computes it. *)
Definition int_add (a b : Z) : Z := int_wrap (a + b).

(** The conversion of an [int] to [size_t]. *)
Definition size_t_of_int (z : Z) : Z := (z mod size_t_modulus)%Z.

Section Analytics.

(** The order in which a range-[for] visits the entries of an
    [unordered_map]: the C++ standard leaves it to the implementation. *)
Variable bucket_order : FreqMap -> FreqMap.

Definition pick_mode (xs : list Z) : option Z :=
  snd (fold_left mode_step (bucket_order (build_frequency xs)) (0%Z, None)).

(** [RadixTrie::get_height_stats]; [None] where the C++ code would
    dereference an end iterator. *)
Definition get_height_stats (t : RadixTrie) : option HeightStats :=
  if empty t then Some (mkHeightStats 0 0 0%Q (Some 0%Z) [])
  else
    let heights := calculate_heights_recursive (root t) 0 [] in
    match min_element heights, max_element heights with
    | Some lo, Some hi =>
        Some (mkHeightStats lo hi (average heights) (pick_mode heights)
                heights)
    | _, _ => None
    end.

(** [RadixTrie::get_word_metrics] *)
Definition get_word_metrics (t : RadixTrie) : option WordMetrics :=
  if empty t then Some (mkWordMetrics 0 0 0%Q (Some 0%Z) [] 0)
  else
    let lengths := collect_word_lengths_recursive (root t) 0 [] in
    match min_element lengths, max_element lengths with
    | Some lo, Some hi =>
        let total_chars := size_t_of_int (fold_left int_add lengths 0%Z) in
        let average_length :=
          (inject_Z total_chars / inject_Z (Z.of_nat (length lengths)))%Q in
        let distribution :=
          fold_left (fun d l => incr_at (Z.to_nat l) d) lengths
            (repeat 0%Z (Z.to_nat (hi + 1))) in
        Some (mkWordMetrics lo hi average_length (pick_mode lengths)
                distribution total_chars)
    | _, _ => None
    end.

End Analytics.

(** ** Wildcard matcher *)

(** The final loop of [matches_pattern] over trailing stars. *)
Fixpoint skip_stars (pattern : list ascii) : list ascii :=
  match pattern with
  | c :: pattern' => if Ascii.eqb c "*"%char then skip_stars pattern' else pattern
  | [] => []
  end.

(** The [for] loop of [matches_pattern] that tries the rest of the pattern
    on [word.substr(i)] for [i] from [word_idx] to [word_len] included. *)
Definition try_suffixes (rest_matches : list ascii -> bool)
    : list ascii -> bool :=
  fix try_from (w : list ascii) : bool :=
    if rest_matches w then true
    else match w with
         | [] => false
         | _ :: w' => try_from w'
         end.

(** [RadixTrie::matches_pattern]; the two arguments are [word.substr(word_idx)]
    and [pattern.substr(pattern_idx)]. *)
Fixpoint matches_pattern (word pattern : list ascii) {struct pattern} : bool :=
  match pattern with
  | [] => match word with [] => true | _ :: _ => false end
  | pc :: pattern' =>
      match word with
      | [] => match skip_stars pattern with [] => true | _ :: _ => false end
      | wc :: word' =>
          if Ascii.eqb pc "?"%char then matches_pattern word' pattern'
          else if Ascii.eqb pc "*"%char then
            match pattern' with
            | [] => true
            | _ :: _ =>
                try_suffixes (fun w => matches_pattern w pattern') word
            end
          else if Ascii.eqb pc wc then matches_pattern word' pattern'
          else false
      end
  end.

(** [RadixTrie::pattern_match_recursive] *)
Fixpoint pattern_match_recursive (node : RadixNode) (current_word : list ascii)
    (pattern : list ascii) (results : list (list ascii))
    : list (list ascii) :=
  match node with
  | mkNode k e _ cs =>
      let full_word := current_word ++ k in
      let results :=
        if e && matches_pattern full_word pattern
        then results ++ [full_word] else results in
      fold_left
        (fun res p => pattern_match_recursive (snd p) full_word pattern res)
        cs results
  end.

(** [std::sort] on strings: the ascending arrangement under
    [std::string::operator<]. *)
Fixpoint sort_insert (x : list ascii) (l : list (list ascii))
    : list (list ascii) :=
  match l with
  | [] => [x]
  | y :: l' => if string_ltb x y then x :: l else y :: sort_insert x l'
  end.

Definition std_sort (l : list (list ascii)) : list (list ascii) :=
  fold_right sort_insert [] l.

(** [RadixTrie::pattern_search] *)
Definition pattern_search (pattern : list ascii) (t : RadixTrie)
    : list (list ascii) :=
  match pattern with
  | [] => []
  | _ :: _ =>
      if empty t then []
      else std_sort (pattern_match_recursive (root t) [] pattern [])
  end.

(** ** Reachable states and structural invariants *)

(** The states a client can produce through the public mutators. *)
Inductive reachable : RadixTrie -> Prop :=
| reach_new : reachable new_trie
| reach_insert w t : reachable t -> reachable (insert w t)
| reach_remove w t : reachable t -> reachable (snd (remove w t))
| reach_clear t : reachable t -> reachable (clear t)
| reach_bulk input buffer_size t :
    reachable t ->
    reachable (snd (bulk_insert_from_file input buffer_size t)).

(** The states produced by [insert] alone. *)
Inductive insert_reachable : RadixTrie -> Prop :=
| ireach_new : insert_reachable new_trie
| ireach_insert w t : insert_reachable t -> insert_reachable (insert w t).

(** [P] holds of a node and of every node below it. *)
Fixpoint every_node (P : RadixNode -> Prop) (n : RadixNode) : Prop :=
  match n with
  | mkNode k e pc cs =>
      P (mkNode k e pc cs) /\
      (fix all (l : ChildVec) : Prop :=
         match l with
         | [] => True
         | p :: l' => every_node P (snd p) /\ all l'
         end) cs
  end.

(** [P] holds of every node other than the root [r]. *)
Definition every_non_root (P : RadixNode -> Prop) (r : RadixNode) : Prop :=
  Forall (fun p => every_node P (snd p)) (children r).

(** The children vector is strictly ascending in its pair keys under the
    order [ltb] on bytes. *)
Definition sorted_by (ltb : ascii -> ascii -> bool) (n : RadixNode) : Prop :=
  StronglySorted (fun a b => ltb a b = true) (map fst (children n)).

(** Every child starts its key with the byte it is filed under. *)
Definition keyed_children (n : RadixNode) : Prop :=
  Forall (fun p => hd_error (key (snd p)) = Some (fst p)) (children n).

Definition wf_node (n : RadixNode) : Prop :=
  every_node (fun m => sorted_by char_ltb m /\ keyed_children m) n.

(** The number of terminal nodes. *)
Fixpoint count_end (n : RadixNode) : nat :=
  match n with
  | mkNode _ e _ cs =>
      (if e then 1 else 0) + list_sum (map (fun p => count_end (snd p)) cs)
  end.

(** The stored words below a node, in the order of the depth-first walk. *)
Fixpoint words_of (n : RadixNode) (prefix : list ascii) : list (list ascii) :=
  match n with
  | mkNode k e _ cs =>
      (if e then [prefix ++ k] else [])
      ++ flat_map (fun p => words_of (snd p) (prefix ++ k)) cs
  end.

Definition words_below (n : RadixNode) (prefix : list ascii)
    : list (list ascii) :=
  flat_map (fun p => words_of (snd p) prefix) (children n).

(** The keys of all nodes. *)
Fixpoint node_keys (n : RadixNode) : list (list ascii) :=
  match n with
  | mkNode k _ _ cs => k :: flat_map (fun p => node_keys (snd p)) cs
  end.

Record wf_trie (t : RadixTrie) : Prop :=
  mkWf {
    wf_root_key : key (root t) = [];
    wf_root_end : is_end (root t) = false;
    wf_nodes : wf_node (root t);
    wf_count :
      word_count_ t = (Z.of_nat (count_end (root t)) mod size_t_modulus)%Z
  }.

(** The order on words induced by the order on [char]: byte by byte, a
    proper prefix first. *)
Fixpoint char_lex_ltb (a b : list ascii) : bool :=
  match a, b with
  | [], [] => false
  | [], _ :: _ => true
  | _ :: _, [] => false
  | x :: a', y :: b' =>
      char_ltb x y || (Ascii.eqb x y && char_lex_ltb a' b')
  end.

(** [w] begins with [p]. *)
Fixpoint has_prefix (p w : list ascii) : bool :=
  match p, w with
  | [], _ => true
  | a :: p', b :: w' => Ascii.eqb a b && has_prefix p' w'
  | _ :: _, [] => false
  end.

(** Compression: a non-terminal node does not have exactly one child. *)
Definition compressed_node (n : RadixNode) : Prop :=
  is_end n = false -> length (children n) <> 1.

(** A non-terminal node has at least two children. *)
Definition branching_node (n : RadixNode) : Prop :=
  is_end n = false -> 2 <= length (children n).

(** [path_spells current q rest node]: following the positions [q] from
    [current] leads to [node], and the keys met on the way spell [rest]. *)
Inductive path_spells : RadixNode -> NodePtr -> list ascii -> RadixNode -> Prop :=
| spells_here current : path_spells current [] [] current
| spells_down current i k child q rest node :
    nth_error (children current) i = Some (k, child) ->
    path_spells child q rest node ->
    path_spells current (i :: q) (key child ++ rest) node.

(** The outcome of [insert]'s loop, case by case: [insert_rel current rest
    count current' count']. *)
Inductive insert_rel : RadixNode -> list ascii -> Z -> RadixNode -> Z -> Prop :=
| ins_leaf current c rest l1 l2 count :
    children current = l1 ++ l2 ->
    Forall (fun p => char_ltb (fst p) c = true) l1 ->
    match l2 with
    | [] => True
    | p :: _ => char_ltb (fst p) c = false /\ fst p <> c
    end ->
    insert_rel current (c :: rest) count
      (set_children (l1 ++ (c, mkNode (c :: rest) true c []) :: l2) current)
      (size_t_inc count)
| ins_dup current c rest l1 child l2 count :
    children current = l1 ++ (c, child) :: l2 ->
    Forall (fun p => char_ltb (fst p) c = true) l1 ->
    c :: rest = key child ->
    is_end child = true ->
    insert_rel current (c :: rest) count current count
| ins_mark current c rest l1 child l2 count :
    children current = l1 ++ (c, child) :: l2 ->
    Forall (fun p => char_ltb (fst p) c = true) l1 ->
    c :: rest = key child ->
    is_end child = false ->
    insert_rel current (c :: rest) count
      (set_children (l1 ++ (c, set_is_end true child) :: l2) current)
      (size_t_inc count)
| ins_descend current c rest l1 child l2 count rest' child' count' :
    children current = l1 ++ (c, child) :: l2 ->
    Forall (fun p => char_ltb (fst p) c = true) l1 ->
    c :: rest = key child ++ rest' ->
    rest' <> [] ->
    insert_rel child rest' count child' count' ->
    insert_rel current (c :: rest) count
      (set_children (l1 ++ (c, child') :: l2) current) count'
| ins_split_mark current c rest l1 child l2 count kc krest :
    children current = l1 ++ (c, child) :: l2 ->
    Forall (fun p => char_ltb (fst p) c = true) l1 ->
    key child = (c :: rest) ++ kc :: krest ->
    insert_rel current (c :: rest) count
      (set_children
         (l1 ++ (c, mkNode (c :: rest) true c
                      [(kc, set_parent_char kc (set_key (kc :: krest) child))])
             :: l2) current)
      (size_t_inc count)
| ins_split_leaf current c rest l1 child l2 count common kc krest rc rrest :
    children current = l1 ++ (c, child) :: l2 ->
    Forall (fun p => char_ltb (fst p) c = true) l1 ->
    key child = common ++ kc :: krest ->
    c :: rest = common ++ rc :: rrest ->
    kc <> rc ->
    insert_rel current (c :: rest) count
      (set_children
         (l1 ++ (c, mkNode common false c
                      (let old :=
                         (kc, set_parent_char kc (set_key (kc :: krest) child))
                       in
                       let leaf := (rc, mkNode (rc :: rrest) true rc []) in
                       if char_ltb kc rc then [old; leaf] else [leaf; old]))
             :: l2) current)
      (size_t_inc count).

(** ** Specification of the wildcard language *)

(** [glob pattern word]: literal bytes match themselves, [?] matches
    exactly one byte, [*] matches zero or more bytes. *)
Inductive glob : list ascii -> list ascii -> Prop :=
| glob_nil : glob [] []
| glob_any p w c : glob p w -> glob ("?"%char :: p) (c :: w)
| glob_star p w skipped : glob p w -> glob ("*"%char :: p) (skipped ++ w)
| glob_lit p w c :
    c <> "?"%char -> c <> "*"%char -> glob p w -> glob (c :: p) (c :: w).

(** ** Specification of the line records of a stream *)

(** A line break is the byte LF or the byte CR. *)
Definition line_break (c : ascii) : Prop :=
  c = "010"%char \/ c = "013"%char.

(** [split_at_breaks input records]: the stream is a run of line breaks,
    possibly empty, followed either by nothing or by a record, which is
    not empty, holds no line break and is followed by the end of the
    stream or by a line break; what follows the record is split in the
    same way. *)
Inductive split_at_breaks : list ascii -> list (list ascii) -> Prop :=
| split_end breaks : Forall line_break breaks -> split_at_breaks breaks []
| split_record breaks record tail records :
    Forall line_break breaks ->
    record <> [] ->
    Forall (fun c => ~ line_break c) record ->
    match tail with [] => True | c :: _ => line_break c end ->
    split_at_breaks tail records ->
    split_at_breaks (breaks ++ record ++ tail) (record :: records).

(** ASCII white space: space, HT, LF, VT, FF and CR. *)
Definition ascii_white_space (c : ascii) : Prop :=
  In c [" "; "009"; "010"; "011"; "012"; "013"]%char.

(** [trimmed_record r w]: [w] is [r] without its leading and its trailing
    white space. *)
Definition trimmed_record (r w : list ascii) : Prop :=
  exists lead trail,
    r = lead ++ w ++ trail /\
    Forall ascii_white_space lead /\ Forall ascii_white_space trail /\
    match w with
    | [] => True
    | c :: _ => ~ ascii_white_space c /\ ~ ascii_white_space (last w c)
    end.

(** The maximal runs of bytes other than CR and LF. *)
Fixpoint records_from (input cur : list ascii) : list (list ascii) :=
  match input with
  | [] => match cur with [] => [] | _ :: _ => [cur] end
  | c :: input' =>
      if is_line_break c
      then match cur with
           | [] => records_from input' []
           | _ :: _ => cur :: records_from input' []
           end
      else records_from input' (cur ++ [c])
  end.

Definition non_empty (w : list ascii) : bool :=
  match w with [] => false | _ :: _ => true end.

(** The records of a stream, trimmed, without those that are empty after
    trimming. *)
Definition trimmed_lines (input : list ascii) : list (list ascii) :=
  filter non_empty (map trim_view (records_from input [])).

(** [insert] called once on each word, in order. *)
Definition insert_each (ws : list (list ascii)) (t : RadixTrie) : RadixTrie :=
  fold_left (fun t w => insert w t) ws t.

(** The lines still to come when [cur] is the unfinished record and
    [input] the unread part of the stream. *)
Definition lines_from (input cur : list ascii) : list (list ascii) :=
  filter non_empty (map trim_view (records_from input cur)).

(** [++words_inserted], once per word. *)
Definition count_each (ws : list (list ascii)) (n : Z) : Z :=
  fold_left (fun n _ => size_t_inc n) ws n.

(** What is still to happen to the trie and to the counter. *)
Definition ingest_rest (input cur : list ascii) (t : RadixTrie) (n : Z)
    : RadixTrie * Z :=
  let ws := lines_from input cur in (insert_each ws t, count_each ws n).

(** ** Specification of the mode *)





(** ** More of RadixTrie.cc: [starts_with] and the memory statistics *)

(** [RadixTrie::starts_with]: the loop for a non-empty prefix, with
    [rest = prefix.substr(pos)].  The loop only ever advances [pos] up to
    [prefix.length()], so the final test [pos == prefix.length()] holds
    when the loop ends by its condition. *)
Fixpoint starts_with_loop (fuel : nat) (current : RadixNode)
    (rest : list ascii) : option bool :=
  match fuel with
  | O => None
  | S fuel' =>
      match rest with
      | [] => Some true
      | first_char :: _ =>
          let it := find_child current first_char in
          match child_at current it first_char with
          | None => Some false
          | Some child =>
              let child_key := key child in
              if length rest <? length child_key
              then Some (bytes_eqb rest (firstn (length rest) child_key))
              else if negb (bytes_eqb (firstn (length child_key) rest)
                              child_key)
              then Some false
              else starts_with_loop fuel' child
                     (skipn (length child_key) rest)
          end
      end
  end.

Definition starts_with (prefix : list ascii) (t : RadixTrie) : bool :=
  match prefix with
  | [] => negb (empty t)
  | _ =>
      match starts_with_loop (S (node_height (root t))) (root t) prefix with
      | Some b => b
      | None => false
      end
  end.

(** [a + b] on [size_t]. *)
Definition size_t_add (a b : Z) : Z := ((a + b) mod size_t_modulus)%Z.

(** The lambda [count_nodes] of [get_memory_stats]; the state is
    [(node_count, string_bytes)]. *)
Fixpoint count_nodes (node : RadixNode) (st : Z * Z) : Z * Z :=
  match node with
  | mkNode k _ _ cs =>
      let st := (size_t_inc (fst st),
                 size_t_add (snd st) (Z.of_nat (length k))) in
      fold_left (fun st p => count_nodes (snd p) st) cs st
  end.

(** [RadixTrie::calculate_memory_recursive] *)
Fixpoint calculate_memory_recursive (sizeof_node : Z) (node : RadixNode)
    : Z :=
  match node with
  | mkNode k _ _ cs =>
      fold_left
        (fun memory p =>
           size_t_add memory (calculate_memory_recursive sizeof_node (snd p)))
        cs (size_t_add sizeof_node (Z.of_nat (length k)))
  end.

Record MemoryStats : Type :=
  mkMemoryStats {
    total_bytes : Z;
    node_count : Z;
    string_bytes : Z;
    overhead_bytes : Z;
    bytes_per_word : Q
  }.

(** [RadixTrie::get_memory_stats]; [sizeof_trie] is the size of the
    trie object and [sizeof_node] is [sizeof(RadixNode)]. *)
Definition get_memory_stats (sizeof_trie sizeof_node : Z) (t : RadixTrie)
    : MemoryStats :=
  if empty t then
    let total := size_t_add sizeof_trie sizeof_node in
    mkMemoryStats total 1 0 total 0%Q
  else
    let '(nodes, bytes) := count_nodes (root t) (0%Z, 0%Z) in
    let total :=
      size_t_add
        (size_t_add sizeof_trie ((nodes * sizeof_node) mod size_t_modulus))
        bytes in
    mkMemoryStats total nodes bytes
      ((total - bytes) mod size_t_modulus)%Z
      (inject_Z total / inject_Z (word_count_ t))%Q.

(** ** The batch methods of the Node binding (implementation of Seshat.h) *)

(** An element of the JavaScript array handed to a batch method: a string,
    given by the bytes of [Utf8Value()], or a value of another type.  The
    methods are modelled on an array argument; without one they throw a
    [TypeError] before touching the trie. *)
Inductive js_value : Type :=
| JsString (bytes : list ascii)
| JsOther.

(** [count++] on [uint32_t]. *)
Definition uint32_inc (n : Z) : Z := ((n + 1) mod 2 ^ 32)%Z.

(** [Seshat::InsertBatch]: the returned count and the new trie. *)
Definition InsertBatch (words : list js_value) (t : RadixTrie)
    : Z * RadixTrie :=
  fold_left
    (fun st v =>
       match v with
       | JsString ((_ :: _) as word) =>
           (uint32_inc (fst st), insert word (snd st))
       | _ => st
       end)
    words (0%Z, t).

(** [Seshat::SearchBatch] *)
Definition SearchBatch (words : list js_value) (t : RadixTrie) : list bool :=
  map (fun v => match v with
                | JsString word => search word t
                | JsOther => false
                end) words.

(** [Seshat::RemoveBatch]: the returned flags and the new trie. *)
Fixpoint RemoveBatch (words : list js_value) (t : RadixTrie)
    : list bool * RadixTrie :=
  match words with
  | [] => ([], t)
  | v :: words' =>
      match v with
      | JsString word =>
          let '(removed, t') := remove word t in
          let '(results, t'') := RemoveBatch words' t' in
          (removed :: results, t'')
      | JsOther =>
          let '(results, t'') := RemoveBatch words' t in
          (false :: results, t'')
      end
  end.

(** ** Notions used to state the further properties *)

(** The number of nodes and the sum of the lengths of their keys. *)
Fixpoint tree_nodes (n : RadixNode) : nat :=
  match n with
  | mkNode _ _ _ cs => S (list_sum (map (fun p => tree_nodes (snd p)) cs))
  end.

Fixpoint tree_key_bytes (n : RadixNode) : nat :=
  match n with
  | mkNode k _ _ cs =>
      length k + list_sum (map (fun p => tree_key_bytes (snd p)) cs)
  end.

(** The pattern has no wildcard. *)
Definition literal (pattern : list ascii) : Prop :=
  Forall (fun c => c <> "?"%char /\ c <> "*"%char) pattern.

(** The strings among the elements of a JavaScript array. *)
Fixpoint js_strings (words : list js_value) : list (list ascii) :=
  match words with
  | [] => []
  | JsString w :: words' => w :: js_strings words'
  | JsOther :: words' => js_strings words'
  end.

(** The tree with every [is_end] flag cleared: what is left of a node when
    the flags are ignored. *)
Fixpoint shape_of (n : RadixNode) : RadixNode :=
  match n with
  | mkNode k _ pc cs =>
      mkNode k false pc (map (fun p => (fst p, shape_of (snd p))) cs)
  end.

(** The depth [h] recorded for the word [w] below a node at depth [d]
    whose words begin with [pre]. *)
Definition depth_ok (d : Z) (pre : list ascii) (h : Z) (w : list ascii)
    : Prop :=
  (d <= h /\ h - d + Z.of_nat (length pre) <= Z.of_nat (length w))%Z.

(** Every child records in [parent_char] the byte it is filed under. *)
Definition filed_children (n : RadixNode) : Prop :=
  Forall (fun p => parent_char (snd p) = fst p) (children n).

(** ** Auxiliary notions of the proofs *)

(** Induction on the tree, with the property available for every child. *)
Fixpoint RadixNode_ind (P : RadixNode -> Prop)
    (step : forall k e pc cs,
        Forall (fun p => P (snd p)) cs -> P (mkNode k e pc cs))
    (n : RadixNode) : P n :=
  match n with
  | mkNode k e pc cs =>
      step k e pc cs
        ((fix all (l : ChildVec) : Forall (fun p => P (snd p)) l :=
            match l with
            | [] => Forall_nil _
            | p :: l' =>
                @Forall_cons _ (fun q => P (snd q)) p l'
                  (@RadixNode_ind P step (snd p)) (all l')
            end) cs)
  end.

(** [a] comes strictly before [b] in the order induced by [char]. *)
Definition lex_lt (a b : list ascii) : Prop := char_lex_ltb a b = true.

(** The order of [std::string], weak and strict. *)
Definition string_le (a b : list ascii) : Prop := string_ltb b a = false.
Definition string_lt (a b : list ascii) : Prop := string_ltb a b = true.


(** ** Data of the worked examples *)

(** The trie obtained by inserting the given words in order. *)
Definition trie_of (ws : list string) : RadixTrie :=
  fold_left (fun t w => insert (str w) t) ws new_trie.

(** The file of scenario 6. *)
Definition scenario_file : list ascii :=
  str "alpha" ++ ["010"%char] ++ str "beta" ++ ["013"; "010"]%char
  ++ str "gamma" ++ ["013"; "010"; "010"]%char ++ str "  delta  "
  ++ ["010"%char].

(** An iteration order that visits the most recently inserted key first. *)
Definition newest_first (m : FreqMap) : FreqMap := rev m.

(** * Properties *)

Unset Strict Implicit.

(** ** Bytes, vectors and the child search *)

Lemma bytes_eqb_eq (a b : list ascii) : bytes_eqb a b = true <-> a = b.
Proof.
  revert b; induction a as [|x a IH]; intros [|y b]; simpl;
    try (split; [discriminate | congruence]); try tauto.
  rewrite andb_true_iff, Ascii.eqb_eq, IH.
  split; [intros [-> ->]; reflexivity | intros H; inversion H; auto].
Qed.

Lemma bytes_eqb_refl (a : list ascii) : bytes_eqb a a = true.
Proof. apply bytes_eqb_eq; reflexivity. Qed.

Lemma byte_value_inj (a b : ascii) : byte_value a = byte_value b -> a = b.
Proof.
  unfold byte_value; intros H.
  apply N2Z.inj in H.
  rewrite <- (ascii_N_embedding a), <- (ascii_N_embedding b), H; reflexivity.
Qed.

Lemma byte_value_range (a : ascii) : (0 <= byte_value a < 256)%Z.
Proof.
  unfold byte_value. pose proof (N_ascii_bounded a). lia.
Qed.

Lemma char_value_inj (a b : ascii) : char_value a = char_value b -> a = b.
Proof.
  unfold char_value; intros H; apply byte_value_inj.
  pose proof (byte_value_range a); pose proof (byte_value_range b).
  destruct char_signed; simpl in H;
    repeat match type of H with
           | context [(?x <=? ?y)%Z] => destruct (Z.leb_spec x y)
           end; lia.
Qed.

Lemma char_ltb_irrefl (a : ascii) : char_ltb a a = false.
Proof. unfold char_ltb; apply Z.ltb_irrefl. Qed.

Lemma char_ltb_trans (a b c : ascii) :
  char_ltb a b = true -> char_ltb b c = true -> char_ltb a c = true.
Proof. unfold char_ltb; rewrite !Z.ltb_lt; lia. Qed.

Lemma char_ltb_asym (a b : ascii) :
  char_ltb a b = true -> char_ltb b a = false.
Proof. unfold char_ltb; rewrite Z.ltb_lt, Z.ltb_ge; lia. Qed.

Lemma char_ltb_total (a b : ascii) :
  char_ltb a b = false -> a <> b -> char_ltb b a = true.
Proof.
  unfold char_ltb; rewrite Z.ltb_lt, Z.ltb_ge; intros H Hne.
  assert (char_value a <> char_value b) by (intros E; apply Hne, char_value_inj, E).
  lia.
Qed.

Lemma char_ltb_neq (a b : ascii) : char_ltb a b = true -> a <> b.
Proof. intros H ->; rewrite char_ltb_irrefl in H; discriminate. Qed.

Lemma nth_error_middle {A} (l1 : list A) x l2 :
  nth_error (l1 ++ x :: l2) (length l1) = Some x.
Proof. rewrite nth_error_app2, Nat.sub_diag by lia; reflexivity. Qed.

Lemma vec_set_middle {A} (l1 : list A) x y l2 :
  vec_set (length l1) y (l1 ++ x :: l2) = l1 ++ y :: l2.
Proof.
  unfold vec_set; rewrite nth_error_middle.
  rewrite firstn_app, firstn_all, Nat.sub_diag, skipn_app, skipn_all2 by lia.
  replace (S (length l1) - length l1) with 1 by lia.
  simpl; rewrite app_nil_r; reflexivity.
Qed.

Lemma vec_insert_middle {A} (l1 : list A) x l2 :
  vec_insert (length l1) x (l1 ++ l2) = l1 ++ x :: l2.
Proof.
  unfold vec_insert.
  rewrite firstn_app, firstn_all, Nat.sub_diag; simpl; rewrite app_nil_r.
  rewrite skipn_app, skipn_all, Nat.sub_diag; reflexivity.
Qed.

(** What [lower_bound] finds, without any assumption on the vector. *)
Lemma lower_bound_split (v : ChildVec) (c : ascii) :
  exists l1 l2,
    v = l1 ++ l2 /\ length l1 = lower_bound v c /\
    Forall (fun p => char_ltb (fst p) c = true) l1 /\
    match l2 with
    | [] => True
    | p :: _ => char_ltb (fst p) c = false
    end.
Proof.
  induction v as [|[k n] v IH]; simpl.
  - exists [], []; repeat split; constructor.
  - destruct (char_ltb k c) eqn:E.
    + destruct IH as (l1 & l2 & -> & Hlen & Hall & Hhd).
      exists ((k, n) :: l1), l2; simpl; repeat split; auto.
    + exists [], ((k, n) :: v); simpl; repeat split; auto.
Qed.

Lemma find_child_hit (current : RadixNode) (c : ascii) (child : RadixNode) :
  child_at current (find_child current c) c = Some child ->
  exists l1 l2,
    children current = l1 ++ (c, child) :: l2 /\
    length l1 = find_child current c /\
    Forall (fun p => char_ltb (fst p) c = true) l1.
Proof.
  unfold child_at, find_child.
  destruct (lower_bound_split (children current) c)
    as (l1 & l2 & E & Hlen & Hall & Hhd).
  rewrite <- Hlen, E.
  destruct l2 as [|[k n] l2].
  - rewrite app_nil_r, (proj2 (nth_error_None l1 (length l1))) by lia.
    discriminate.
  - rewrite nth_error_middle.
    destruct (Ascii.eqb_spec k c) as [->|]; [|discriminate].
    intros [= ->]; exists l1, l2; auto.
Qed.

Lemma find_child_miss (current : RadixNode) (c : ascii) :
  child_at current (find_child current c) c = None ->
  exists l1 l2,
    children current = l1 ++ l2 /\
    length l1 = find_child current c /\
    Forall (fun p => char_ltb (fst p) c = true) l1 /\
    match l2 with
    | [] => True
    | p :: _ => char_ltb (fst p) c = false /\ fst p <> c
    end.
Proof.
  unfold child_at, find_child.
  destruct (lower_bound_split (children current) c)
    as (l1 & l2 & E & Hlen & Hall & Hhd).
  rewrite <- Hlen, E.
  intros H; exists l1, l2; repeat split; auto.
  destruct l2 as [|[k n] l2]; auto.
  rewrite nth_error_middle in H; simpl in *.
  destruct (Ascii.eqb_spec k c); [discriminate | auto].
Qed.

Lemma node_height_child (n : RadixNode) (p : ascii * RadixNode) :
  In p (children n) -> node_height (snd p) < node_height n.
Proof.
  destruct n as [k e pc cs]; cbn [node_height children].
  induction cs as [|q cs IH]; cbn [fold_right In]; [tauto|].
  intros [->|H].
  - apply Nat.lt_le_trans with (S (node_height (snd p)));
      [lia | apply Nat.le_max_l].
  - eapply Nat.lt_le_trans; [apply IH, H | apply Nat.le_max_r].
Qed.

Lemma common_prefix_split (s1 s2 : list ascii) :
  exists common r1 r2,
    s1 = common ++ r1 /\ s2 = common ++ r2 /\
    length common = common_prefix_length s1 s2 /\
    match r1, r2 with
    | a :: _, b :: _ => a <> b
    | _, _ => True
    end.
Proof.
  revert s2; induction s1 as [|a s1 IH]; intros s2.
  - exists [], [], s2; simpl; auto.
  - destruct s2 as [|b s2].
    + exists [], (a :: s1), []; simpl; auto.
    + simpl. destruct (Ascii.eqb_spec a b) as [->|Hne].
      * destruct (IH s2) as (common & r1 & r2 & -> & -> & Hlen & Hd).
        exists (b :: common), r1, r2; simpl; auto.
      * exists [], (a :: s1), (b :: s2); simpl; auto.
Qed.

Lemma lower_bound_app (l1 l2 : ChildVec) (c : ascii) :
  Forall (fun p => char_ltb (fst p) c = true) l1 ->
  lower_bound (l1 ++ l2) c = length l1 + lower_bound l2 c.
Proof.
  induction 1 as [|[k n] l1 Hk _ IH]; simpl; auto.
  simpl in Hk; rewrite Hk, IH; reflexivity.
Qed.

Lemma lower_bound_middle (l1 l2 : ChildVec) (c : ascii) (n : RadixNode) :
  Forall (fun p => char_ltb (fst p) c = true) l1 ->
  lower_bound (l1 ++ (c, n) :: l2) c = length l1.
Proof.
  intros H; rewrite lower_bound_app by assumption; simpl.
  rewrite char_ltb_irrefl; lia.
Qed.

Lemma set_children_twice (a b : ChildVec) (n : RadixNode) :
  set_children a (set_children b n) = set_children a n.
Proof. reflexivity. Qed.

Lemma set_children_same (n : RadixNode) : set_children (children n) n = n.
Proof. destruct n; reflexivity. Qed.

Lemma skipn_app_length {A} (l1 l2 : list A) : skipn (length l1) (l1 ++ l2) = l2.
Proof. rewrite skipn_app, skipn_all, Nat.sub_diag; reflexivity. Qed.

Lemma firstn_app_length {A} (l1 l2 : list A) : firstn (length l1) (l1 ++ l2) = l1.
Proof.
  rewrite firstn_app, firstn_all, Nat.sub_diag; simpl; apply app_nil_r.
Qed.

Lemma split_node_eq (current child : RadixNode) (c kc : ascii)
    (l1 l2 : ChildVec) (common krest : list ascii) :
  children current = l1 ++ (c, child) :: l2 ->
  Forall (fun p => char_ltb (fst p) c = true) l1 ->
  key child = common ++ kc :: krest ->
  split_node current c (length common) (key child) =
  set_children
    (l1 ++ (c, mkNode common false c
                 [(kc, set_parent_char kc (set_key (kc :: krest) child))])
        :: l2) current.
Proof.
  intros E Hall Ek.
  unfold split_node, find_child.
  rewrite E, lower_bound_middle, nth_error_middle by assumption.
  rewrite Ek, firstn_app_length, skipn_app_length.
  cbn [children set_children set_key set_parent_char key hd lower_bound
       vec_insert firstn skipn app].
  rewrite vec_set_middle; reflexivity.
Qed.

(** ** The loop of [insert] always returns, and returns what [insert_rel]
    describes *)

Lemma insert_loop_rel (fuel : nat) :
  forall current rest count,
    rest <> [] -> node_height current < fuel ->
    exists r c',
      insert_loop fuel current rest count = Some (r, c') /\
      insert_rel current rest count r c'.
Proof.
  induction fuel as [|fuel IH]; intros current rest count Hrest Hfuel; [lia|].
  destruct rest as [|c rest]; [congruence|]; clear Hrest.
  cbn [insert_loop].
  destruct (child_at current (find_child current c) c) as [child|] eqn:Hc.
  - destruct (find_child_hit Hc) as (l1 & l2 & E & Hlen & Hall).
    assert (Hin : In (c, child) (children current))
      by (rewrite E; apply in_elt).
    pose proof (node_height_child Hin) as Hh; simpl in Hh.
    destruct (common_prefix_split (key child) (c :: rest))
      as (common & r1 & r2 & Ek & Er & Hcl & Hd).
    rewrite <- Hcl, <- Hlen, Ek, Er, skipn_app_length.
    destruct r1 as [|kc krest].
    + rewrite app_nil_r, Nat.eqb_refl.
      rewrite app_nil_r in Ek.
      destruct r2 as [|rc rrest].
      * rewrite ?app_nil_r in *.
        destruct (is_end child) eqn:He.
        -- eexists _, _; split; [reflexivity|].
           rewrite <- Er.
           eapply ins_dup; eauto; congruence.
        -- eexists _, _; split; [reflexivity|].
           rewrite E, vec_set_middle, <- Er.
           eapply ins_mark; eauto; congruence.
      * destruct (IH child (rc :: rrest) count) as (child' & count' & Hrun & Hrel);
          [discriminate | lia |].
        rewrite Hrun.
        eexists _, _; split; [reflexivity|].
        rewrite E, vec_set_middle, <- Er.
        eapply ins_descend; eauto; [congruence | discriminate].
    + replace (length common =? length (common ++ kc :: krest)) with false
        by (symmetry; apply Nat.eqb_neq; rewrite length_app; simpl; lia).
      rewrite <- Ek; erewrite split_node_eq by eassumption.
      unfold find_child; cbn [children set_children].
      rewrite !lower_bound_middle by assumption.
      rewrite nth_error_middle.
      destruct r2 as [|rc rrest].
      * rewrite ?app_nil_r in *.
        cbn [is_end].
        eexists _, _; split; [reflexivity|].
        rewrite vec_set_middle, set_children_twice, <- Er.
        unfold set_is_end; cbn [key parent_char children].
        eapply ins_split_mark; eauto.
        rewrite Ek, Er; reflexivity.
      * destruct fuel as [|fuel]; [lia|].
        cbn [insert_loop].
        unfold child_at, find_child; cbn [children lower_bound].
        destruct (char_ltb kc rc) eqn:Hlt.
        -- cbn [nth_error].
           eexists _, _; split; [reflexivity|].
           rewrite vec_set_middle, set_children_twice, <- Er.
           pose proof (@ins_split_leaf current c rest l1 child l2 count common
                         kc krest rc rrest E Hall Ek Er Hd) as R.
           rewrite Hlt in R; exact R.
        -- cbn [nth_error].
           destruct (Ascii.eqb_spec kc rc) as [->|_]; [congruence|].
           eexists _, _; split; [reflexivity|].
           rewrite vec_set_middle, set_children_twice, <- Er.
           pose proof (@ins_split_leaf current c rest l1 child l2 count common
                         kc krest rc rrest E Hall Ek Er Hd) as R.
           rewrite Hlt in R; exact R.
  - destruct (find_child_miss Hc) as (l1 & l2 & E & Hlen & Hall & Hhd).
    eexists _, _; split; [reflexivity|].
    rewrite <- Hlen, E, vec_insert_middle.
    apply ins_leaf; auto.
Qed.

Lemma insert_nil (t : RadixTrie) : insert [] t = t.
Proof. reflexivity. Qed.

Lemma insert_spec (w : list ascii) (t : RadixTrie) :
  w <> [] ->
  exists r c,
    insert w t = mkTrie r c /\
    insert_rel (root t) w (word_count_ t) r c.
Proof.
  intros Hw.
  destruct (@insert_loop_rel (S (node_height (root t))) (root t) w
              (word_count_ t) Hw (Nat.lt_succ_diag_r _))
    as (r & c & Hrun & Hrel).
  exists r, c; split; [|assumption].
  unfold insert; destruct w; [congruence|]; rewrite Hrun; reflexivity.
Qed.

Lemma every_node_unfold (P : RadixNode -> Prop) (n : RadixNode) :
  every_node P n <->
  P n /\ Forall (fun p => every_node P (snd p)) (children n).
Proof.
  destruct n as [k e pc cs]; cbn [every_node children].
  apply and_iff_compat_l.
  induction cs as [|p cs IH]; [split; auto|].
  rewrite IH; split.
  - intros [H1 H2]; constructor; assumption.
  - intros H; inversion H; auto.
Qed.

Lemma every_node_impl (P Q : RadixNode -> Prop) (n : RadixNode) :
  (forall m, P m -> Q m) -> every_node P n -> every_node Q n.
Proof.
  intros HPQ; induction n as [k e pc cs IH] using RadixNode_ind.
  rewrite !every_node_unfold; cbn [children].
  intros [H1 H2]; split; [auto|].
  rewrite Forall_forall in *; auto.
Qed.

Lemma wf_node_unfold (n : RadixNode) :
  wf_node n <->
  (sorted_by char_ltb n /\ keyed_children n) /\
  Forall (fun p => wf_node (snd p)) (children n).
Proof. apply every_node_unfold. Qed.

Lemma wf_node_child (n : RadixNode) (k : ascii) (child : RadixNode) :
  wf_node n -> In (k, child) (children n) ->
  wf_node child /\ hd_error (key child) = Some k.
Proof.
  rewrite wf_node_unfold; intros [[_ Hk] Hall] Hin.
  unfold keyed_children in Hk; rewrite Forall_forall in Hk, Hall.
  split; [apply (Hall _ Hin) | apply (Hk _ Hin)].
Qed.

(** ** What [insert] preserves *)

Lemma insert_rel_shape current rest count r c' :
  insert_rel current rest count r c' ->
  key r = key current /\ is_end r = is_end current /\
  parent_char r = parent_char current.
Proof. destruct 1; auto. Qed.

Lemma StronglySorted_app_iff {A} (R : A -> A -> Prop) (l1 l2 : list A) :
  StronglySorted R (l1 ++ l2) <->
  StronglySorted R l1 /\ StronglySorted R l2 /\
  Forall (fun a => Forall (R a) l2) l1.
Proof.
  induction l1 as [|a l1 IH]; simpl.
  - split; [intros H; repeat split; auto; constructor | tauto].
  - split.
    + intros H; inversion H as [|? ? Hs Hal]; subst.
      apply IH in Hs; destruct Hs as (H1 & H2 & H3).
      rewrite Forall_app in Hal; destruct Hal.
      repeat split; auto; constructor; auto.
    + intros (H1 & H2 & H3).
      inversion H1; inversion H3; subst.
      constructor; [apply IH; auto | rewrite Forall_app; auto].
Qed.

Lemma sorted_insert_middle (l1 l2 : list ascii) (c : ascii) :
  StronglySorted (fun a b => char_ltb a b = true) (l1 ++ l2) ->
  Forall (fun a => char_ltb a c = true) l1 ->
  match l2 with
  | [] => True
  | a :: _ => char_ltb a c = false /\ a <> c
  end ->
  StronglySorted (fun a b => char_ltb a b = true) (l1 ++ c :: l2).
Proof.
  intros Hs Hall Hhd.
  apply StronglySorted_app_iff in Hs; destruct Hs as (H1 & H2 & H3).
  assert (Hc : Forall (fun a => char_ltb c a = true) l2).
  { destruct l2 as [|a l2]; [constructor|].
    destruct Hhd as [Hge Hne].
    assert (Hca : char_ltb c a = true) by (apply char_ltb_total; auto).
    constructor; [assumption|].
    inversion H2 as [|? ? _ Hal]; subst.
    eapply Forall_impl; [|exact Hal].
    intros b Hb; eapply char_ltb_trans; eauto. }
  apply StronglySorted_app_iff; repeat split; auto.
  - constructor; assumption.
  - rewrite Forall_forall in *; intros a Ha.
    constructor; [apply Hall, Ha | apply H3, Ha].
Qed.

Lemma map_fst_middle (l1 l2 : ChildVec) (c : ascii) (a b : RadixNode) :
  map fst (l1 ++ (c, a) :: l2) = map fst (l1 ++ (c, b) :: l2).
Proof. rewrite !map_app; reflexivity. Qed.

Lemma insert_rel_wf current rest count r c' :
  insert_rel current rest count r c' -> wf_node current -> wf_node r.
Proof.
  induction 1 as
    [current c rest l1 l2 count E Hall Hhd
    |current c rest l1 child l2 count E Hall Ek He
    |current c rest l1 child l2 count E Hall Ek He
    |current c rest l1 child l2 count rest' child' count' E Hall Ek Hne Hrel IH
    |current c rest l1 child l2 count kc krest E Hall Ek
    |current c rest l1 child l2 count common kc krest rc rrest E Hall Ek Er Hd];
    intros Hwf; auto;
    rewrite wf_node_unfold in Hwf |- *;
    unfold sorted_by, keyed_children in Hwf |- *;
    cbn [children set_children] in Hwf |- *; rewrite E in Hwf;
    destruct Hwf as [[Hs Hk] Hch].
  - (* new leaf *)
    repeat split.
    + rewrite map_app in *; cbn [map fst].
      apply sorted_insert_middle; auto.
      * rewrite Forall_map; exact Hall.
      * destruct l2 as [|[a n] l2]; simpl in *; auto.
    + rewrite Forall_app in *; destruct Hk; split; auto.
    + rewrite Forall_app in *; destruct Hch; split; auto.
      constructor; auto.
      rewrite wf_node_unfold; cbn; repeat split; constructor.
  - (* mark *)
    repeat split.
    + rewrite (map_fst_middle _ _ _ _ child); assumption.
    + rewrite Forall_app in *; destruct Hk as [? Hk2]; split; auto.
      inversion Hk2; subst; constructor; auto.
    + rewrite Forall_app in *; destruct Hch as [? Hc2]; split; auto.
      inversion Hc2 as [|? ? Hc Hc3]; subst; constructor; auto.
      rewrite wf_node_unfold in *; exact Hc.
  - (* descend *)
    destruct (insert_rel_shape Hrel) as (Hkey & _).
    repeat split.
    + rewrite (map_fst_middle _ _ _ _ child); assumption.
    + rewrite Forall_app in *; destruct Hk as [? Hk2]; split; auto.
      inversion Hk2; subst; constructor; auto.
      cbn [snd fst] in *; congruence.
    + rewrite Forall_app in *; destruct Hch as [? Hc2]; split; auto.
      inversion Hc2 as [|? ? Hc Hc3]; subst; constructor; auto.
  - (* split, the word ends at the intermediate node *)
    repeat split.
    + rewrite (map_fst_middle _ _ _ _ child); assumption.
    + rewrite Forall_app in *; destruct Hk as [? Hk2]; split; auto.
      inversion Hk2; subst; constructor; auto.
    + rewrite Forall_app in *; destruct Hch as [? Hc2]; split; auto.
      inversion Hc2 as [|? ? Hc Hc3]; subst; constructor; auto.
      cbn [snd] in *.
      rewrite wf_node_unfold in *; unfold sorted_by, keyed_children in *.
      cbn [children set_parent_char set_key map fst snd key].
      repeat split.
      * repeat constructor.
      * repeat constructor.
      * constructor; [|constructor].
        rewrite wf_node_unfold; exact Hc.
  - (* split, a new leaf next to the old child *)
    assert (Hc0 : hd_error common = Some c \/ common = []).
    { destruct common; [right; reflexivity | left].
      simpl in Er; inversion Er; reflexivity. }
    repeat split.
    + rewrite (map_fst_middle _ _ _ _ child); assumption.
    + rewrite Forall_app in *; destruct Hk as [? Hk2]; split; auto.
      inversion Hk2 as [|? ? Hk3 ?]; subst; constructor; auto.
      cbn [snd fst key] in *.
      rewrite Ek in Hk3.
      destruct common; [|exact Hk3].
      simpl in Er, Hk3; inversion Er; inversion Hk3; subst; congruence.
    + rewrite Forall_app in *; destruct Hch as [? Hc2]; split; auto.
      inversion Hc2 as [|? ? Hc Hc3]; subst; constructor; auto.
      cbn [snd] in *.
      assert (Hold : wf_node (set_parent_char kc (set_key (kc :: krest) child)))
        by (rewrite wf_node_unfold in *; exact Hc).
      assert (Hleaf : wf_node (mkNode (rc :: rrest) true rc []))
        by (rewrite wf_node_unfold; cbn; repeat split; constructor).
      rewrite wf_node_unfold; unfold sorted_by, keyed_children.
      cbn [children].
      assert (Hpair : forall a b : ascii,
                 char_ltb a b = true ->
                 StronglySorted (fun a b => char_ltb a b = true) [a; b])
        by (intros a b Hab; repeat constructor; exact Hab).
      destruct (char_ltb kc rc) eqn:Hlt; cbn [map fst snd];
        (split; [split|]).
      * apply Hpair, Hlt.
      * constructor; [reflexivity | constructor; [reflexivity | constructor]].
      * constructor; [exact Hold | constructor; [exact Hleaf | constructor]].
      * apply Hpair, char_ltb_total; auto.
      * constructor; [reflexivity | constructor; [reflexivity | constructor]].
      * constructor; [exact Hleaf | constructor; [exact Hold | constructor]].
Qed.

(** ** The stored words *)

Lemma words_of_unfold (n : RadixNode) (pre : list ascii) :
  words_of n pre =
  (if is_end n then [pre ++ key n] else []) ++ words_below n (pre ++ key n).
Proof. destruct n; reflexivity. Qed.

Lemma words_below_middle (n : RadixNode) (l1 l2 : ChildVec) (c : ascii)
    (child : RadixNode) (pre : list ascii) :
  words_below (set_children (l1 ++ (c, child) :: l2) n) pre =
  flat_map (fun p => words_of (snd p) pre) l1 ++ words_of child pre
  ++ flat_map (fun p => words_of (snd p) pre) l2.
Proof.
  unfold words_below; cbn [children set_children].
  rewrite flat_map_app; reflexivity.
Qed.

Lemma words_below_split (n : RadixNode) (l1 l2 : ChildVec) (c : ascii)
    (child : RadixNode) (pre : list ascii) :
  children n = l1 ++ (c, child) :: l2 ->
  words_below n pre =
  flat_map (fun p => words_of (snd p) pre) l1 ++ words_of child pre
  ++ flat_map (fun p => words_of (snd p) pre) l2.
Proof.
  intros E; rewrite <- (set_children_same n), E; apply words_below_middle.
Qed.

Lemma words_of_rekey (n : RadixNode) (a : ascii) (k1 k2 pre : list ascii) :
  key n = k1 ++ k2 ->
  words_of (set_parent_char a (set_key k2 n)) (pre ++ k1) = words_of n pre.
Proof.
  destruct n as [k e pc cs]; cbn; intros ->.
  rewrite <- !app_assoc; reflexivity.
Qed.

Lemma collect_words_from_node_eq (n : RadixNode) :
  forall pre res, collect_words_from_node n pre res = res ++ words_of n pre.
Proof.
  induction n as [k e pc cs IH] using RadixNode_ind; intros pre res.
  cbn [collect_words_from_node words_of].
  assert (Hacc : forall acc,
             fold_left
               (fun r p => collect_words_from_node (snd p) (pre ++ k) r)
               cs acc =
             acc ++ flat_map (fun p => words_of (snd p) (pre ++ k)) cs).
  { induction IH as [|p cs Hp _ IHcs]; intros acc; simpl.
    - rewrite app_nil_r; reflexivity.
    - rewrite IHcs, Hp, <- app_assoc; reflexivity. }
  rewrite Hacc.
  destruct e; simpl; rewrite <- ?app_assoc; reflexivity.
Qed.

Lemma words_with_prefix_nil (t : RadixTrie) :
  words_with_prefix [] t = words_of (root t) [].
Proof. apply collect_words_from_node_eq. Qed.

Lemma words_of_length (n : RadixNode) :
  forall pre, length (words_of n pre) = count_end n.
Proof.
  induction n as [k e pc cs IH] using RadixNode_ind; intros pre.
  cbn [words_of count_end]; rewrite length_app; f_equal.
  - destruct e; reflexivity.
  - induction IH as [|p cs Hp _ IHcs]; simpl; auto.
    rewrite length_app, Hp, IHcs; reflexivity.
Qed.

Lemma count_end_unfold (n : RadixNode) :
  count_end n =
  (if is_end n then 1 else 0)
  + list_sum (map (fun p => count_end (snd p)) (children n)).
Proof. destruct n; reflexivity. Qed.

Lemma count_end_middle (n : RadixNode) (l1 l2 : ChildVec) (c : ascii)
    (child : RadixNode) :
  count_end (set_children (l1 ++ (c, child) :: l2) n) =
  (if is_end n then 1 else 0)
  + list_sum (map (fun p => count_end (snd p)) l1)
  + count_end child
  + list_sum (map (fun p => count_end (snd p)) l2).
Proof.
  rewrite count_end_unfold; cbn [children set_children is_end].
  rewrite map_app, list_sum_app; simpl; lia.
Qed.

Lemma count_end_split (n : RadixNode) (l1 l2 : ChildVec) (c : ascii)
    (child : RadixNode) :
  children n = l1 ++ (c, child) :: l2 ->
  count_end n =
  (if is_end n then 1 else 0)
  + list_sum (map (fun p => count_end (snd p)) l1)
  + count_end child
  + list_sum (map (fun p => count_end (snd p)) l2).
Proof.
  intros E; rewrite <- (set_children_same n) at 1; rewrite E.
  apply count_end_middle.
Qed.

(** The words after [insert]'s loop: the word is added to those below
    [current]. *)
Lemma insert_rel_words current rest count r c' :
  insert_rel current rest count r c' ->
  forall pre x,
    In x (words_below r pre) <->
    x = pre ++ rest \/ In x (words_below current pre).
Proof.
  induction 1 as
    [current c rest l1 l2 count E Hall Hhd
    |current c rest l1 child l2 count E Hall Ek He
    |current c rest l1 child l2 count E Hall Ek He
    |current c rest l1 child l2 count rest' child' count' E Hall Ek Hne Hrel IH
    |current c rest l1 child l2 count kc krest E Hall Ek
    |current c rest l1 child l2 count common kc krest rc rrest E Hall Ek Er Hd];
    intros pre x.
  - rewrite words_below_middle.
    unfold words_below; rewrite E, flat_map_app.
    cbn [words_of]; rewrite ?in_app_iff; simpl; intuition congruence.
  - rewrite (words_below_split _ E), (words_of_unfold child), He, <- Ek.
    rewrite ?in_app_iff; simpl; intuition (subst; auto).
  - rewrite words_below_middle, (words_below_split _ E).
    rewrite ?in_app_iff, (words_of_unfold child), (words_of_unfold (set_is_end _ _)).
    rewrite He; cbn [is_end set_is_end key]; rewrite <- Ek.
    unfold words_below; cbn [children]; simpl.
    rewrite ?in_app_iff; simpl; intuition congruence.
  - destruct (insert_rel_shape Hrel) as (Hkey & Hend & _).
    rewrite words_below_middle, (words_below_split _ E).
    rewrite ?in_app_iff, (words_of_unfold child), (words_of_unfold child').
    rewrite Hkey, Hend, ?in_app_iff, IH, Ek, <- app_assoc.
    intuition congruence.
  - rewrite words_below_middle, (words_below_split _ E).
    rewrite ?in_app_iff.
    cbn [words_of flat_map snd]; rewrite app_nil_r.
    rewrite (words_of_rekey _ _ Ek).
    simpl; rewrite ?in_app_iff; simpl; intuition congruence.
  - rewrite words_below_middle, (words_below_split _ E).
    rewrite ?in_app_iff, Er.
    cbn [words_of].
    destruct (char_ltb kc rc);
      cbn [flat_map snd app words_of]; rewrite ?app_nil_r;
      rewrite (words_of_rekey _ _ Ek);
      rewrite <- ?app_assoc; cbn [app];
      rewrite ?in_app_iff; simpl; intuition congruence.
Qed.

Lemma size_t_inc_neq (n : Z) : size_t_inc n <> n.
Proof.
  unfold size_t_inc, size_t_modulus; intros H.
  pose proof (Z.mod_pos_bound (n + 1) (2 ^ 64) ltac:(lia)) as Hb.
  assert (E : ((n + 1) mod 2 ^ 64 = (n mod 2 ^ 64 + 1) mod 2 ^ 64)%Z)
    by (rewrite Z.add_mod_idemp_l by lia; reflexivity).
  assert (Hn : (n mod 2 ^ 64 = n)%Z) by (apply Z.mod_small; lia).
  rewrite Hn in E.
  clear E Hn.
  assert (Hz : ((n + 1 - n) mod 2 ^ 64 = 0)%Z).
  { rewrite Zminus_mod, H.
    rewrite (Z.mod_small n) by lia.
    rewrite Z.sub_diag; reflexivity. }
  replace (n + 1 - n)%Z with 1%Z in Hz by lia.
  discriminate Hz.
Qed.

Ltac lia_if :=
  repeat match goal with
         | |- context [if ?b then _ else _] => destruct b
         end;
  simpl; lia.

(** The counter after [insert]'s loop: untouched when the word was there,
    one more when a terminal node was gained. *)
Lemma insert_rel_count current rest count r c' :
  insert_rel current rest count r c' ->
  (c' = count /\ r = current /\
   forall pre, In (pre ++ rest) (words_below current pre)) \/
  (c' = size_t_inc count /\ count_end r = S (count_end current)).
Proof.
  induction 1 as
    [current c rest l1 l2 count E Hall Hhd
    |current c rest l1 child l2 count E Hall Ek He
    |current c rest l1 child l2 count E Hall Ek He
    |current c rest l1 child l2 count rest' child' count' E Hall Ek Hne Hrel IH
    |current c rest l1 child l2 count kc krest E Hall Ek
    |current c rest l1 child l2 count common kc krest rc rrest E Hall Ek Er Hd].
  - right; split; [reflexivity|].
    rewrite count_end_middle.
    rewrite (count_end_unfold current), E, map_app, list_sum_app.
    simpl; lia_if.
  - left; repeat split; intros pre.
    rewrite (words_below_split _ E), (words_of_unfold child), He, <- Ek.
    rewrite !in_app_iff; simpl; auto.
  - right; split; [reflexivity|].
    rewrite count_end_middle, (count_end_split E).
    rewrite (count_end_unfold child), (count_end_unfold (set_is_end _ _)).
    rewrite He; cbn [is_end set_is_end children]; lia_if.
  - destruct IH as [(-> & -> & Hin)|(-> & Hcnt)].
    + left; repeat split.
      * rewrite <- E; apply set_children_same.
      * intros pre.
        rewrite (words_below_split _ E), (words_of_unfold child).
        rewrite !in_app_iff; right; left; right.
        rewrite Ek, app_assoc; apply Hin.
    + right; split; [reflexivity|].
      rewrite count_end_middle, (count_end_split E); lia_if.
  - right; split; [reflexivity|].
    rewrite count_end_middle, (count_end_split E).
    cbn [count_end set_parent_char set_key map list_sum snd is_end children].
    rewrite (count_end_unfold child); lia_if.
  - right; split; [reflexivity|].
    rewrite count_end_middle, (count_end_split E).
    rewrite (count_end_unfold child).
    destruct (char_ltb kc rc);
      cbn [count_end set_parent_char set_key map list_sum snd is_end children];
      lia_if.
Qed.

(** ** The order of enumeration *)

Lemma char_lex_ltb_app (p a b : list ascii) :
  char_lex_ltb (p ++ a) (p ++ b) = char_lex_ltb a b.
Proof.
  induction p as [|x p IH]; simpl; auto.
  rewrite char_ltb_irrefl, Ascii.eqb_refl; exact IH.
Qed.

Lemma char_lex_ltb_asym (a b : list ascii) :
  char_lex_ltb a b = true -> char_lex_ltb b a = false.
Proof.
  revert b; induction a as [|x a IH]; intros [|y b]; simpl; auto;
    try discriminate.
  rewrite orb_true_iff, andb_true_iff, orb_false_iff, andb_false_iff.
  intros [Hlt|[Heq Hlex]].
  - split; [apply char_ltb_asym, Hlt|].
    left; apply Ascii.eqb_neq; intros ->.
    rewrite char_ltb_irrefl in Hlt; discriminate.
  - apply Ascii.eqb_eq in Heq; subst y.
    split; [apply char_ltb_irrefl | right; apply IH, Hlex].
Qed.

Lemma lex_lt_irrefl (a : list ascii) : ~ lex_lt a a.
Proof.
  unfold lex_lt; intros H.
  pose proof (char_lex_ltb_asym H); congruence.
Qed.

Lemma sorted_unique (l1 l2 : list (list ascii)) :
  StronglySorted lex_lt l1 -> StronglySorted lex_lt l2 ->
  (forall x, In x l1 <-> In x l2) -> l1 = l2.
Proof.
  intros H1; revert l2; induction H1 as [|a l1 Hs1 IH Ha]; intros l2 H2 Hiff.
  - destruct l2 as [|b l2]; [reflexivity|].
    destruct (proj2 (Hiff b) (or_introl eq_refl)).
  - destruct H2 as [|b l2 Hs2 Hb].
    + destruct (proj1 (Hiff a) (or_introl eq_refl)).
    + rewrite Forall_forall in Ha, Hb.
      assert (E : a = b).
      { destruct (proj1 (Hiff a) (or_introl eq_refl)) as [E|Hin]; [auto|].
        destruct (proj2 (Hiff b) (or_introl eq_refl)) as [E|Hin']; [auto|].
        pose proof (Hb _ Hin) as Hba; pose proof (Ha _ Hin') as Hab.
        unfold lex_lt in *; rewrite (char_lex_ltb_asym Hab) in Hba.
        discriminate. }
      subst b; f_equal; apply IH; [assumption|].
      intros x; split; intros Hin.
      * destruct (proj1 (Hiff x) (or_intror Hin)) as [E|]; [|assumption].
        subst x; destruct (lex_lt_irrefl (Ha _ Hin)).
      * destruct (proj2 (Hiff x) (or_intror Hin)) as [E|]; [|assumption].
        subst x; destruct (lex_lt_irrefl (Hb _ Hin)).
Qed.

Lemma sorted_NoDup (l : list (list ascii)) :
  StronglySorted lex_lt l -> NoDup l.
Proof.
  induction 1 as [|a l Hs IH Ha]; constructor; auto.
  intros Hin; rewrite Forall_forall in Ha.
  exact (lex_lt_irrefl (Ha _ Hin)).
Qed.

Lemma words_of_prefix (n : RadixNode) :
  forall pre x, In x (words_of n pre) -> exists s, x = pre ++ key n ++ s.
Proof.
  induction n as [k e pc cs IH] using RadixNode_ind; intros pre x.
  cbn [words_of key]; rewrite in_app_iff, in_flat_map.
  intros [Hx|(p & Hp & Hx)].
  - destruct e; [|destruct Hx].
    destruct Hx as [<-|[]]; exists []; rewrite app_nil_r; reflexivity.
  - rewrite Forall_forall in IH.
    destruct (IH _ Hp _ _ Hx) as (s & ->).
    exists (key (snd p) ++ s); rewrite <- !app_assoc; reflexivity.
Qed.

(** A word below a child filed under [c] continues the prefix with [c]. *)
Lemma words_of_child_prefix (c : ascii) (child : RadixNode)
    (pre x : list ascii) :
  hd_error (key child) = Some c -> In x (words_of child pre) ->
  exists s, x = pre ++ c :: s.
Proof.
  intros Hk Hx; destruct (words_of_prefix Hx) as (s & ->).
  destruct (key child) as [|a k]; [discriminate|].
  inversion Hk; subst; exists (k ++ s); reflexivity.
Qed.

Lemma words_of_sorted (n : RadixNode) :
  forall pre, wf_node n -> StronglySorted lex_lt (words_of n pre).
Proof.
  induction n as [k e pc cs IH] using RadixNode_ind; intros pre.
  rewrite wf_node_unfold; unfold sorted_by, keyed_children.
  cbn [children words_of]; intros [[Hs Hk] Hwf].
  set (q := pre ++ k).
  assert (Hbelow : StronglySorted lex_lt
                     (flat_map (fun p => words_of (snd p) q) cs)).
  { clear e; induction cs as [|[c child] cs IHcs]; simpl; [constructor|].
    inversion IH as [|? ? Hchild IH']; subst.
    inversion Hs as [|? ? Hs' Hc]; subst.
    inversion Hk as [|? ? Hkc Hk']; subst.
    inversion Hwf as [|? ? Hwc Hwf']; subst.
    apply StronglySorted_app_iff; repeat split; auto.
    rewrite Forall_forall; intros x Hx.
    rewrite Forall_forall; intros y Hy.
    destruct (words_of_child_prefix Hkc Hx) as (s & ->).
    apply in_flat_map in Hy; destruct Hy as ([c2 child2] & Hin2 & Hy).
    rewrite Forall_forall in Hk'.
    destruct (words_of_child_prefix (Hk' _ Hin2) Hy) as (s2 & ->).
    unfold lex_lt; rewrite char_lex_ltb_app; simpl.
    rewrite Forall_forall in Hc.
    rewrite (Hc c2); [reflexivity|].
    apply in_map_iff; exists (c2, child2); auto. }
  destruct e; [|exact Hbelow].
  simpl; constructor; [exact Hbelow|].
  rewrite Forall_forall; intros y Hy.
  apply in_flat_map in Hy; destruct Hy as ([c2 child2] & Hin2 & Hy).
  rewrite Forall_forall in Hk.
  destruct (words_of_child_prefix (Hk _ Hin2) Hy) as (s2 & ->).
  unfold lex_lt, q.
  rewrite <- (app_nil_r (pre ++ k)) at 1.
  rewrite char_lex_ltb_app; reflexivity.
Qed.

(** ** [find_node] *)

Lemma find_node_loop_path (fuel : nat) :
  forall current path rest,
    find_node_loop fuel current path rest =
    option_map (option_map (app path)) (find_node_loop fuel current [] rest).
Proof.
  induction fuel as [|fuel IH]; intros current path rest; [reflexivity|].
  cbn [find_node_loop].
  destruct rest as [|c rest]; [simpl; rewrite app_nil_r; reflexivity|].
  destruct (child_at current (find_child current c) c) as [child|];
    [|reflexivity].
  destruct (length (c :: rest) <? length (key child)); [reflexivity|].
  destruct (negb _); [reflexivity|].
  rewrite IH, (IH _ ([] ++ _)); simpl.
  destruct (find_node_loop fuel child [] _) as [[q|]|]; simpl; auto.
  rewrite <- app_assoc; reflexivity.
Qed.

Lemma find_node_loop_total (fuel : nat) :
  forall current path rest,
    node_height current < fuel ->
    find_node_loop fuel current path rest <> None.
Proof.
  induction fuel as [|fuel IH]; intros current path rest Hfuel; [lia|].
  cbn [find_node_loop].
  destruct rest as [|c rest]; [discriminate|].
  destruct (child_at current (find_child current c) c) as [child|] eqn:Hc;
    [|discriminate].
  destruct (find_child_hit Hc) as (l1 & l2 & E & _).
  assert (Hin : In (c, child) (children current)) by (rewrite E; apply in_elt).
  pose proof (node_height_child Hin) as Hh; simpl in Hh.
  destruct (length (c :: rest) <? length (key child)); [discriminate|].
  destruct (negb _); [discriminate|].
  apply IH; lia.
Qed.

Lemma find_node_loop_sound (fuel : nat) :
  forall current rest q,
    find_node_loop fuel current [] rest = Some (Some q) ->
    exists node, path_spells current q rest node /\ (rest <> [] -> q <> []).
Proof.
  induction fuel as [|fuel IH]; intros current rest q; [discriminate|].
  cbn [find_node_loop].
  destruct rest as [|c rest].
  - intros [= <-]; exists current; split; [constructor | congruence].
  - destruct (child_at current (find_child current c) c) as [child|] eqn:Hc;
      [|discriminate].
    destruct (find_child_hit Hc) as (l1 & l2 & E & Hlen & _).
    destruct (length (c :: rest) <? length (key child)); [discriminate|].
    destruct (bytes_eqb _ _) eqn:Heq; [|discriminate].
    apply bytes_eqb_eq in Heq.
    cbn [negb]; rewrite find_node_loop_path.
    destruct (find_node_loop fuel child [] _) as [[q'|]|] eqn:Hrun;
      try discriminate.
    simpl; intros [= <-].
    destruct (IH _ _ _ Hrun) as (node & Hsp & _).
    exists node; split; [|discriminate].
    rewrite <- (firstn_skipn (length (key child)) (c :: rest)), Heq.
    eapply spells_down; [|exact Hsp].
    rewrite <- Hlen, E; apply nth_error_middle.
Qed.

Lemma path_spells_node_at current q rest node :
  path_spells current q rest node -> node_at current q = Some node.
Proof.
  induction 1 as [|current i k child q rest node Hnth _ IH]; [reflexivity|].
  cbn [node_at]; rewrite Hnth; exact IH.
Qed.

Lemma path_spells_word current q rest node :
  path_spells current q rest node -> is_end node = true ->
  forall pre, In (pre ++ key current ++ rest) (words_of current pre).
Proof.
  induction 1 as [|current i k child q rest node Hnth _ IH];
    intros He pre; rewrite words_of_unfold.
  - rewrite He, app_nil_r; left; reflexivity.
  - apply in_or_app; right.
    destruct (nth_error_split _ _ Hnth) as (l1 & l2 & E & _).
    rewrite (words_below_split _ E), !in_app_iff; right; left.
    rewrite app_assoc; apply IH, He.
Qed.

Lemma sorted_child_found (current : RadixNode) (c : ascii)
    (child : RadixNode) :
  sorted_by char_ltb current -> In (c, child) (children current) ->
  child_at current (find_child current c) c = Some child.
Proof.
  unfold sorted_by, child_at, find_child; intros Hs Hin.
  destruct (in_split _ _ Hin) as (l1 & l2 & E); rewrite E in *.
  rewrite map_app in Hs; cbn [map fst] in Hs.
  apply StronglySorted_app_iff in Hs; destruct Hs as (_ & _ & Hlt).
  assert (Hall : Forall (fun p => char_ltb (fst p) c = true) l1).
  { rewrite Forall_map in Hlt.
    eapply Forall_impl; [|exact Hlt].
    intros p Hp; inversion Hp; assumption. }
  rewrite lower_bound_middle, nth_error_middle, Ascii.eqb_refl by assumption.
  reflexivity.
Qed.

Lemma find_node_loop_complete (fuel : nat) :
  forall current rest pre,
    wf_node current -> node_height current < fuel -> rest <> [] ->
    In (pre ++ rest) (words_below current pre) ->
    exists q node,
      find_node_loop fuel current [] rest = Some (Some q) /\
      path_spells current q rest node /\ is_end node = true /\ q <> [].
Proof.
  induction fuel as [|fuel IH]; intros current rest pre Hwf Hfuel Hrest Hin;
    [lia|].
  destruct rest as [|c rest]; [congruence|]; clear Hrest.
  unfold words_below in Hin; apply in_flat_map in Hin.
  destruct Hin as ([k child] & Hchild & Hin); cbn [snd] in Hin.
  destruct (wf_node_child Hwf Hchild) as (Hwfc & Hk).
  destruct (words_of_prefix Hin) as (s & Hs).
  apply app_inv_head in Hs.
  assert (k = c) by (destruct (key child); [discriminate|];
                     inversion Hk; inversion Hs; congruence); subst k.
  pose proof (proj1 (proj1 (proj1 (wf_node_unfold _) Hwf))) as Hsorted.
  pose proof (sorted_child_found Hsorted Hchild) as Hc.
  destruct (find_child_hit Hc) as (l1 & l2 & E & Hlen & _).
  pose proof (node_height_child Hchild) as Hh; simpl in Hh.
  cbn [find_node_loop]; rewrite Hc, Hs.
  replace (length (key child ++ s) <? length (key child)) with false
    by (symmetry; apply Nat.ltb_ge; rewrite length_app; lia).
  rewrite firstn_app_length, skipn_app_length, bytes_eqb_refl; cbn [negb].
  rewrite find_node_loop_path.
  assert (Hnth : nth_error (children current) (find_child current c)
                 = Some (c, child))
    by (rewrite <- Hlen, E; apply nth_error_middle).
  rewrite words_of_unfold, Hs in Hin.
  apply in_app_or in Hin.
  destruct s as [|c' s'].
  - assert (He : is_end child = true).
    { destruct Hin as [Hin|Hin]; [destruct (is_end child); [auto|destruct Hin]|].
      exfalso.
      unfold words_below in Hin; apply in_flat_map in Hin.
      destruct Hin as ([k2 g] & Hg & Hin); cbn [snd] in Hin.
      destruct (wf_node_child Hwfc Hg) as (_ & Hk2).
      destruct (words_of_child_prefix Hk2 Hin) as (s2 & Hs2).
      rewrite app_nil_r in Hs2.
      rewrite <- (app_nil_r (pre ++ key child)) in Hs2 at 1.
      apply app_inv_head in Hs2; discriminate. }
    destruct fuel as [|fuel]; [lia|].
    exists [find_child current c], child; repeat split; auto.
    + eapply spells_down; [exact Hnth | constructor].
    + discriminate.
  - assert (Hin' : In ((pre ++ key child) ++ c' :: s')
                     (words_below child (pre ++ key child))).
    { destruct Hin as [Hin|Hin]; [|rewrite <- app_assoc; exact Hin].
      destruct (is_end child); [|destruct Hin].
      destruct Hin as [Hin|[]].
      rewrite <- (app_nil_r (pre ++ key child)), <- app_assoc in Hin at 1.
      apply app_inv_head, app_inv_head in Hin; discriminate. }
    destruct (IH child (c' :: s') _ Hwfc ltac:(lia) ltac:(discriminate) Hin')
      as (q & node & Hrun & Hsp & He & _).
    rewrite Hrun; simpl.
    exists (find_child current c :: q), node; repeat split; auto.
    + eapply spells_down; [exact Hnth | exact Hsp].
    + discriminate.
Qed.

Lemma words_of_root (t : RadixTrie) :
  wf_trie t -> words_of (root t) [] = words_below (root t) [].
Proof.
  intros [Hk He _ _]; rewrite words_of_unfold, Hk, He; reflexivity.
Qed.

Lemma words_below_nonempty (n : RadixNode) (pre : list ascii) :
  wf_node n -> ~ In pre (words_below n pre).
Proof.
  intros Hwf Hin; unfold words_below in Hin; apply in_flat_map in Hin.
  destruct Hin as ([k child] & Hchild & Hin); cbn [snd] in Hin.
  destruct (wf_node_child Hwf Hchild) as (_ & Hk).
  destruct (words_of_child_prefix Hk Hin) as (s & Hs).
  rewrite <- (app_nil_r pre) in Hs at 1.
  apply app_inv_head in Hs; discriminate.
Qed.

Lemma find_node_sound (w : list ascii) (t : RadixTrie) (p : NodePtr) :
  find_node w t = Some p ->
  w <> [] /\ p <> [] /\ exists node, path_spells (root t) p w node.
Proof.
  unfold find_node; destruct w as [|c w]; [discriminate|].
  destruct (find_node_loop _ _ _ _) as [[q|]|] eqn:Hrun; try discriminate.
  intros [= ->].
  destruct (find_node_loop_sound Hrun) as (node & Hsp & Hne).
  repeat split; [discriminate | apply Hne; discriminate | eauto].
Qed.

Lemma find_node_complete (w : list ascii) (t : RadixTrie) :
  wf_trie t -> In w (words_of (root t) []) ->
  exists p node,
    find_node w t = Some p /\ path_spells (root t) p w node /\
    is_end node = true /\ p <> [] /\ w <> [].
Proof.
  intros Hwf Hin; rewrite (words_of_root Hwf) in Hin.
  assert (Hw : w <> [])
    by (intros ->; exact (words_below_nonempty (wf_nodes Hwf) Hin)).
  destruct (@find_node_loop_complete (S (node_height (root t))) (root t) w []
              (wf_nodes Hwf) (Nat.lt_succ_diag_r _) Hw Hin)
    as (q & node & Hrun & Hsp & He & Hq).
  exists q, node; repeat split; auto.
  unfold find_node; destruct w; [congruence|]; rewrite Hrun; reflexivity.
Qed.

(** [search] decides membership in the enumeration. *)
Lemma search_iff (w : list ascii) (t : RadixTrie) :
  wf_trie t -> (search w t = true <-> In w (words_of (root t) [])).
Proof.
  intros Hwf; unfold search; split.
  - destruct (find_node w t) as [p|] eqn:Hf; [|discriminate].
    destruct (find_node_sound Hf) as (_ & _ & node & Hsp).
    rewrite (path_spells_node_at Hsp); intros He.
    pose proof (path_spells_word Hsp He []) as Hin.
    rewrite (wf_root_key Hwf) in Hin; exact Hin.
  - intros Hin.
    destruct (find_node_complete Hwf Hin) as (p & node & -> & Hsp & He & _).
    rewrite (path_spells_node_at Hsp); exact He.
Qed.

(** ** [remove] *)

Lemma cleanup_ascend_noop (r : RadixNode) (current : NodePtr)
    (node : RadixNode) :
  node_at r current = Some node -> is_end node = true ->
  cleanup_ascend r (rev current) = r.
Proof.
  intros Hnode He.
  destruct (rev current) as [|i rparent] eqn:Hrev; [reflexivity|].
  cbn [cleanup_ascend].
  rewrite <- Hrev, rev_involutive, Hnode, He, andb_false_r.
  destruct (node_at r (rev rparent)); reflexivity.
Qed.

(** The cleanup never changes the trie: it only starts from a node that
    is still terminal, and stops at once at a terminal node. *)
Lemma cleanup_orphaned_nodes_noop (word : list ascii) (t : RadixTrie) :
  cleanup_orphaned_nodes word t = t.
Proof.
  unfold cleanup_orphaned_nodes.
  destruct word; [reflexivity|].
  destruct (find_node_loop _ _ _ _) as [[current|]|]; try reflexivity.
  destruct (node_at (root t) current) as [node|] eqn:Hnode; [|reflexivity].
  destruct (is_end node) eqn:He; [|reflexivity].
  rewrite (cleanup_ascend_noop Hnode He); destruct t; reflexivity.
Qed.

Lemma remove_spec (w : list ascii) (t : RadixTrie) :
  (fst (remove w t) = false /\ snd (remove w t) = t /\ search w t = false) \/
  (exists p node,
     find_node w t = Some p /\ node_at (root t) p = Some node /\
     is_end node = true /\ search w t = true /\
     remove w t =
     (true, mkTrie (node_update (set_is_end false) p (root t))
              (size_t_dec (word_count_ t)))).
Proof.
  unfold remove, search.
  destruct w as [|c w]; [left; auto|].
  destruct (find_node (c :: w) t) as [p|]; [|left; auto].
  destruct (node_at (root t) p) as [node|] eqn:Hnode; [|left; auto].
  destruct (is_end node) eqn:He; [|left; auto].
  right; exists p, node; repeat split; auto.
  rewrite cleanup_orphaned_nodes_noop; reflexivity.
Qed.

Lemma node_update_shape (f : RadixNode -> RadixNode) (q : NodePtr)
    (n : RadixNode) :
  q <> [] ->
  key (node_update f q n) = key n /\
  is_end (node_update f q n) = is_end n /\
  parent_char (node_update f q n) = parent_char n.
Proof.
  destruct q as [|i q]; [congruence|]; intros _; cbn [node_update].
  destruct (nth_error (children n) i) as [[k c]|]; auto.
Qed.

(** Clearing the flag of the node that spells a word takes that one word
    out of the enumeration. *)
Lemma path_spells_clear current q rest node :
  path_spells current q rest node -> is_end node = true ->
  forall pre, exists a b,
    words_of current pre = a ++ (pre ++ key current ++ rest) :: b /\
    words_of (node_update (set_is_end false) q current) pre = a ++ b.
Proof.
  induction 1 as [|current i k child q rest node Hnth Hsp IH];
    intros He pre.
  - exists [], (words_below current (pre ++ key current)).
    rewrite !words_of_unfold, He, app_nil_r; cbn; auto.
  - destruct (nth_error_split _ _ Hnth) as (l1 & l2 & E & Hlen).
    destruct (IH He (pre ++ key current)) as (a & b & Ha & Hb).
    cbn [node_update]; rewrite Hnth.
    rewrite !words_of_unfold; cbn [is_end key set_children].
    rewrite <- Hlen, E, vec_set_middle, words_below_middle.
    rewrite (words_below_split _ E), Ha, Hb.
    exists ((if is_end current then [pre ++ key current] else [])
            ++ flat_map (fun p => words_of (snd p) (pre ++ key current)) l1
            ++ a),
      (b ++ flat_map (fun p => words_of (snd p) (pre ++ key current)) l2).
    rewrite <- !app_assoc; cbn [app]; rewrite <- ?app_assoc; auto.
Qed.

Lemma node_update_key (b : bool) (q : NodePtr) :
  forall n, key (node_update (set_is_end b) q n) = key n.
Proof.
  destruct q as [|i q]; intros n; [reflexivity|].
  apply node_update_shape; discriminate.
Qed.

Lemma node_update_wf (b : bool) (q : NodePtr) :
  forall n, wf_node n -> wf_node (node_update (set_is_end b) q n).
Proof.
  induction q as [|i q IH]; intros n Hwf.
  - rewrite wf_node_unfold in *; exact Hwf.
  - cbn [node_update].
    destruct (nth_error (children n) i) as [[k c]|] eqn:Hnth; [|exact Hwf].
    destruct (nth_error_split _ _ Hnth) as (l1 & l2 & E & Hlen).
    rewrite wf_node_unfold in Hwf |- *.
    unfold sorted_by, keyed_children in Hwf |- *.
    cbn [children set_children].
    rewrite <- Hlen, E, vec_set_middle; rewrite E in Hwf.
    destruct Hwf as [[Hs Hk] Hch]; repeat split.
    + rewrite (map_fst_middle _ _ _ _ c); exact Hs.
    + rewrite Forall_app in *; destruct Hk as [? Hk2]; split; auto.
      inversion Hk2; subst; constructor; auto.
      cbn [snd fst] in *; rewrite node_update_key; assumption.
    + rewrite Forall_app in *; destruct Hch as [? Hc2]; split; auto.
      inversion Hc2; subst; constructor; auto.
      apply IH; assumption.
Qed.

(** ** Streaming ingest *)

Lemma skip_line_breaks_length (buf : list ascii) :
  length (skip_line_breaks buf) <= length buf.
Proof.
  induction buf as [|c buf IH]; simpl; [lia|].
  destruct (is_line_break c); simpl; lia.
Qed.

Lemma records_from_skip (buf future : list ascii) :
  records_from (skip_line_breaks buf ++ future) [] =
  records_from (buf ++ future) [].
Proof.
  induction buf as [|c buf IH]; simpl; [reflexivity|].
  destruct (is_line_break c) eqn:E; [exact IH|].
  simpl; rewrite E; reflexivity.
Qed.

Lemma ingest_rest_break (c : ascii) (input cur : list ascii)
    (t : RadixTrie) (n : Z) :
  is_line_break c = true ->
  ingest_rest (c :: input) cur t n =
  let '(t', n') := insert_trimmed cur t n in ingest_rest input [] t' n'.
Proof.
  intros E; unfold ingest_rest, lines_from, insert_trimmed.
  cbn [records_from]; rewrite E.
  destruct cur as [|a cur]; [reflexivity|].
  cbn [map filter].
  destruct (trim_view (a :: cur)); reflexivity.
Qed.

Lemma at_line_break_eq (seg carry : list ascii) (t : RadixTrie) (n : Z) :
  at_line_break seg (carry, t, n) =
  let '(t', n') := insert_trimmed (carry ++ seg) t n in ([], t', n').
Proof.
  unfold at_line_break.
  destruct carry as [|a carry].
  - destruct seg; reflexivity.
  - destruct seg; reflexivity.
Qed.

Lemma scan_chunk_spec (fuel : nat) :
  forall buf seg carry t n,
    length buf < fuel ->
    exists carry' t' n',
      scan_chunk fuel buf seg (carry, t, n) = Some (carry', t', n') /\
      forall future,
        ingest_rest (buf ++ future) (carry ++ seg) t n =
        ingest_rest future carry' t' n'.
Proof.
  induction fuel as [|fuel IH]; intros buf seg carry t n Hfuel; [lia|].
  cbn [scan_chunk].
  destruct buf as [|c buf].
  - exists (carry ++ seg), t, n; auto.
  - simpl in Hfuel.
    destruct (is_line_break c) eqn:E.
    + rewrite at_line_break_eq.
      destruct (insert_trimmed (carry ++ seg) t n) as [t1 n1] eqn:Hins.
      pose proof (skip_line_breaks_length buf) as Hlen.
      destruct (IH (skip_line_breaks buf) [] [] t1 n1 ltac:(lia))
        as (carry' & t' & n' & Hrun & Hspec).
      exists carry', t', n'; split; [exact Hrun|].
      intros future; cbn [app].
      rewrite (ingest_rest_break _ _ _ _ E), Hins, <- Hspec.
      unfold ingest_rest, lines_from.
      rewrite records_from_skip; reflexivity.
    + destruct (IH buf (seg ++ [c]) carry t n ltac:(lia))
        as (carry' & t' & n' & Hrun & Hspec).
      exists carry', t', n'; split; [exact Hrun|].
      intros future; rewrite <- Hspec, app_assoc.
      unfold ingest_rest, lines_from; cbn [app records_from]; rewrite E.
      reflexivity.
Qed.

Lemma read_loop_spec (fuel : nat) :
  forall buffer_size input eof carry t n,
    0 < buffer_size -> length input < fuel ->
    (eof = true -> input = []) ->
    exists carry' t' n',
      read_loop fuel buffer_size input eof (carry, t, n)
      = Some (carry', t', n') /\
      ingest_rest input carry t n = ingest_rest [] carry' t' n'.
Proof.
  induction fuel as [|fuel IH]; intros B input eof carry t n HB Hfuel Heof;
    [lia|].
  cbn [read_loop].
  destruct eof.
  - rewrite (Heof eq_refl); exists carry, t, n; auto.
  - destruct (firstn B input) as [|a chunk] eqn:Hchunk.
    + assert (input = []).
      { destruct input; [reflexivity|].
        destruct B; [lia | discriminate]. }
      subst input; exists carry, t, n; auto.
    + destruct (@scan_chunk_spec (S (length (a :: chunk))) (a :: chunk) []
                  carry t n (Nat.lt_succ_diag_r _))
        as (carry1 & t1 & n1 & Hrun & Hspec).
      rewrite Hrun.
      assert (Hlen : length (skipn B input) < length input).
      { rewrite length_skipn.
        destruct input; [rewrite firstn_nil in Hchunk; discriminate|].
        cbn [length]; lia. }
      destruct (IH B (skipn B input) (length input <? B) carry1 t1 n1 HB
                  ltac:(lia)) as (carry' & t' & n' & Hrun' & Hspec').
      { intros Hlt; apply Nat.ltb_lt in Hlt.
        apply skipn_all2; lia. }
      exists carry', t', n'; split; [exact Hrun'|].
      rewrite <- Hspec', <- Hspec, app_nil_r, <- Hchunk, firstn_skipn.
      reflexivity.
Qed.

Lemma count_each_length (ws : list (list ascii)) :
  forall n, (0 <= n < size_t_modulus)%Z ->
  count_each ws n = ((n + Z.of_nat (length ws)) mod size_t_modulus)%Z.
Proof.
  unfold count_each, size_t_modulus.
  induction ws as [|w ws IH]; intros n Hn; cbn [fold_left length].
  - rewrite Z.add_0_r, Z.mod_small by lia; reflexivity.
  - rewrite IH by (unfold size_t_inc, size_t_modulus;
                   apply Z.mod_pos_bound; lia).
    unfold size_t_inc, size_t_modulus.
    rewrite Z.add_mod_idemp_l by lia.
    f_equal; lia.
Qed.

Lemma ingest_rest_end (carry : list ascii) (t : RadixTrie) (n : Z) :
  ingest_rest [] carry t n =
  match carry with
  | [] => (t, n)
  | _ :: _ => insert_trimmed carry t n
  end.
Proof.
  unfold ingest_rest, lines_from, insert_trimmed; cbn [records_from].
  destruct carry as [|a carry]; [reflexivity|].
  cbn [map filter]; destruct (trim_view (a :: carry)); reflexivity.
Qed.

(** The ingest inserts the trimmed non-empty lines of the stream, in
    order, and counts them. *)
Lemma bulk_insert_from_file_spec (input : list ascii) (buffer_size : nat)
    (t : RadixTrie) :
  0 < buffer_size ->
  bulk_insert_from_file input buffer_size t =
  ((Z.of_nat (length (trimmed_lines input)) mod size_t_modulus)%Z,
   insert_each (trimmed_lines input) t).
Proof.
  intros HB; unfold bulk_insert_from_file.
  destruct (@read_loop_spec (S (length input)) buffer_size input false []
              t 0%Z HB (Nat.lt_succ_diag_r _))
    as (carry & t' & n & Hrun & Hspec); [discriminate|].
  rewrite Hrun.
  rewrite <- (Z.add_0_l (Z.of_nat _)).
  rewrite <- count_each_length by (unfold size_t_modulus; lia).
  change (trimmed_lines input) with (lines_from input []).
  assert (E : ingest_rest input [] t 0%Z =
              (insert_each (lines_from input []) t,
               count_each (lines_from input []) 0%Z)) by reflexivity.
  rewrite Hspec, ingest_rest_end in E.
  destruct carry as [|a carry].
  - inversion E; reflexivity.
  - destruct (insert_trimmed (a :: carry) t' n) as [t'' n'].
    inversion E; reflexivity.
Qed.

Lemma bulk_insert_zero_buffer (input : list ascii) (t : RadixTrie) :
  bulk_insert_from_file input 0 t = (0%Z, t).
Proof. reflexivity. Qed.

Lemma bulk_insert_is_insert_each (input : list ascii) (buffer_size : nat)
    (t : RadixTrie) :
  exists ws, snd (bulk_insert_from_file input buffer_size t) = insert_each ws t.
Proof.
  destruct buffer_size as [|B].
  - exists []; reflexivity.
  - exists (trimmed_lines input).
    rewrite bulk_insert_from_file_spec by lia; reflexivity.
Qed.

(** ** The invariants of the reachable states *)

Lemma wf_new_trie : wf_trie new_trie.
Proof.
  split; try reflexivity.
  unfold wf_node; cbn; repeat split; constructor.
Qed.

Lemma wf_insert (w : list ascii) (t : RadixTrie) :
  wf_trie t -> wf_trie (insert w t).
Proof.
  intros Hwf.
  destruct w as [|c w]; [exact Hwf|].
  destruct (@insert_spec (c :: w) t ltac:(discriminate))
    as (r & n & -> & Hrel).
  destruct (insert_rel_shape Hrel) as (Hkey & Hend & _).
  destruct Hwf as [Hk He Hn Hc].
  split; cbn [root word_count_]; try congruence.
  - exact (insert_rel_wf Hrel Hn).
  - destruct (insert_rel_count Hrel) as [(-> & -> & _)|(-> & Hcnt)];
      [exact Hc|].
    rewrite Hcnt, Hc, Nat2Z.inj_succ.
    unfold size_t_inc, size_t_modulus.
    rewrite Z.add_mod_idemp_l by lia.
    f_equal; lia.
Qed.

Lemma wf_insert_each (ws : list (list ascii)) :
  forall t, wf_trie t -> wf_trie (insert_each ws t).
Proof.
  induction ws as [|w ws IH]; intros t Hwf; [exact Hwf|].
  apply IH, wf_insert, Hwf.
Qed.

Lemma wf_remove (w : list ascii) (t : RadixTrie) :
  wf_trie t -> wf_trie (snd (remove w t)).
Proof.
  intros Hwf.
  destruct (remove_spec w t)
    as [(_ & -> & _)|(p & node & Hf & Hnode & He & _ & ->)];
    [exact Hwf|].
  destruct (find_node_sound Hf) as (Hw & Hp & node' & Hsp).
  rewrite (path_spells_node_at Hsp) in Hnode; inversion Hnode; subst node'.
  destruct (node_update_shape (set_is_end false) (root t) Hp)
    as (Hkey & Hend & _).
  destruct Hwf as [Hk Hr Hn Hc].
  split; cbn [snd root word_count_]; try congruence.
  - apply node_update_wf, Hn.
  - destruct (path_spells_clear Hsp He []) as (a & b & Ha & Hb).
    apply (f_equal (@length _)) in Ha, Hb.
    rewrite words_of_length in Ha, Hb.
    rewrite length_app in Ha, Hb; cbn [length] in Ha.
    rewrite Hc, Ha, Hb.
    unfold size_t_dec, size_t_modulus.
    rewrite Zminus_mod_idemp_l.
    f_equal; lia.
Qed.

Lemma wf_clear (t : RadixTrie) : wf_trie (clear t).
Proof. exact wf_new_trie. Qed.

Lemma reachable_wf (t : RadixTrie) : reachable t -> wf_trie t.
Proof.
  induction 1 as [|w t _ IH|w t _ IH|t _ IH|input B t _ IH].
  - exact wf_new_trie.
  - apply wf_insert, IH.
  - apply wf_remove, IH.
  - apply wf_clear.
  - destruct (bulk_insert_is_insert_each input B t) as (ws & ->).
    apply wf_insert_each, IH.
Qed.

Lemma insert_reachable_reachable (t : RadixTrie) :
  insert_reachable t -> reachable t.
Proof. induction 1; constructor; assumption. Qed.

Lemma word_count_range (t : RadixTrie) :
  wf_trie t -> (0 <= word_count_ t < size_t_modulus)%Z.
Proof.
  intros Hwf; rewrite (wf_count Hwf).
  apply Z.mod_pos_bound; unfold size_t_modulus; lia.
Qed.

Lemma insert_words (w : list ascii) (t : RadixTrie) :
  wf_trie t -> w <> [] ->
  forall x, In x (words_of (root (insert w t)) []) <->
            x = w \/ In x (words_of (root t) []).
Proof.
  intros Hwf Hw x.
  rewrite (words_of_root Hwf), (words_of_root (wf_insert w Hwf)).
  destruct (insert_spec t Hw) as (r & n & -> & Hrel).
  apply (insert_rel_words Hrel []).
Qed.

(** Inserting a stored word changes nothing at all. *)
Lemma insert_present (w : list ascii) (t : RadixTrie) :
  wf_trie t -> search w t = true -> insert w t = t.
Proof.
  intros Hwf Hs.
  destruct w as [|c w]; [reflexivity|].
  pose proof (wf_insert (c :: w) Hwf) as Hwf'.
  pose proof (@insert_words (c :: w) t Hwf ltac:(discriminate)) as Hwords.
  destruct (@insert_spec (c :: w) t ltac:(discriminate))
    as (r & n & E & Hrel).
  rewrite E in *.
  destruct (insert_rel_count Hrel) as [(-> & -> & _)|(_ & Hcnt)];
    [destruct t; reflexivity|].
  exfalso.
  apply (search_iff _ Hwf) in Hs.
  assert (Heq : words_of r [] = words_of (root t) []).
  { apply sorted_unique.
    - apply words_of_sorted, (wf_nodes Hwf').
    - apply words_of_sorted, (wf_nodes Hwf).
    - intros x; rewrite (Hwords x); cbn [root]; intuition congruence. }
  apply (f_equal (@length _)) in Heq.
  rewrite !words_of_length in Heq; lia.
Qed.

Lemma insert_absent_count (w : list ascii) (t : RadixTrie) :
  wf_trie t -> w <> [] -> search w t = false ->
  word_count_ (insert w t) = size_t_inc (word_count_ t).
Proof.
  intros Hwf Hw Hs.
  destruct (insert_spec t Hw) as (r & n & -> & Hrel).
  destruct (insert_rel_count Hrel) as [(_ & _ & Hin)|(-> & _)];
    [|reflexivity].
  specialize (Hin []); cbn [app] in Hin.
  rewrite <- (words_of_root Hwf) in Hin.
  apply (search_iff _ Hwf) in Hin; congruence.
Qed.

Lemma search_insert (w : list ascii) (t : RadixTrie) :
  wf_trie t -> w <> [] -> search w (insert w t) = true.
Proof.
  intros Hwf Hw.
  apply (search_iff _ (wf_insert w Hwf)), (insert_words Hwf Hw); auto.
Qed.

Lemma remove_words (w : list ascii) (t : RadixTrie) :
  wf_trie t ->
  forall x, In x (words_of (root (snd (remove w t))) []) <->
            x <> w /\ In x (words_of (root t) []).
Proof.
  intros Hwf x.
  destruct (remove_spec w t)
    as [(_ & -> & Hs)|(p & node & Hf & Hnode & He & _ & ->)].
  - split; [|tauto].
    intros Hin; split; [|exact Hin].
    intros ->; apply (search_iff _ Hwf) in Hin; congruence.
  - destruct (find_node_sound Hf) as (Hw & Hp & node' & Hsp).
    rewrite (path_spells_node_at Hsp) in Hnode; inversion Hnode; subst node'.
    destruct (path_spells_clear Hsp He []) as (a & b & Ha & Hb).
    rewrite (wf_root_key Hwf) in Ha; cbn [app] in Ha.
    cbn [snd root]; rewrite Hb, Ha.
    pose proof (sorted_NoDup (words_of_sorted [] (wf_nodes Hwf))) as Hnd.
    rewrite Ha in Hnd; apply NoDup_remove_2 in Hnd.
    rewrite ?in_app_iff in *; simpl.
    split.
    + intros Hin; split; [intros ->; tauto | tauto].
    + intros (Hne & [Hin|[E|Hin]]); auto; congruence.
Qed.

Lemma size_t_dec_inc (n : Z) :
  (0 <= n < size_t_modulus)%Z -> size_t_dec (size_t_inc n) = n.
Proof.
  unfold size_t_dec, size_t_inc, size_t_modulus; intros Hn.
  rewrite Zminus_mod_idemp_l.
  replace (n + 1 - 1)%Z with n by lia.
  apply Z.mod_small; lia.
Qed.

(** ** Removal *)

(** C10: [search] and [remove] on the empty string return [false], in
    every reachable state. *)
Theorem C10_empty_word_rejected (t : RadixTrie) :
  reachable t -> search [] t = false /\ fst (remove [] t) = false.
Proof. intros _; split; reflexivity. Qed.

(** C9: when [remove] returns [false] the trie is left exactly as it was:
    the same nodes with the same contents and the same [word_count_]. *)
Theorem C9_failed_remove_changes_nothing (t : RadixTrie) (w : list ascii) :
  reachable t -> fst (remove w t) = false -> snd (remove w t) = t.
Proof.
  intros _ Hf.
  destruct (remove_spec w t) as [(_ & E & _)|(p & node & _ & _ & _ & _ & E)];
    [exact E|].
  rewrite E in Hf; discriminate.
Qed.

(** C5, as amended: for a word that is not stored, [insert] followed by
    [remove] gives back the size and the enumeration of all words that the
    trie had before; [remove] returns [true]. *)
Theorem C5_insert_then_remove (t : RadixTrie) (w : list ascii) :
  reachable t -> w <> [] -> search w t = false ->
  fst (remove w (insert w t)) = true /\
  size (snd (remove w (insert w t))) = size t /\
  words_with_prefix [] (snd (remove w (insert w t))) = words_with_prefix [] t.
Proof.
  intros Hr Hw Hs.
  pose proof (reachable_wf Hr) as Hwf.
  pose proof (wf_insert w Hwf) as Hwf1.
  pose proof (wf_remove w Hwf1) as Hwf2.
  pose proof (search_insert Hwf Hw) as Hs1.
  repeat split.
  - destruct (remove_spec w (insert w t))
      as [(_ & _ & Hn)|(p & node & _ & _ & _ & _ & ->)];
      [congruence | reflexivity].
  - destruct (remove_spec w (insert w t))
      as [(_ & _ & Hn)|(p & node & _ & _ & _ & _ & ->)]; [congruence|].
    unfold size; cbn [snd word_count_].
    rewrite (insert_absent_count Hwf Hw Hs).
    apply size_t_dec_inc, word_count_range, Hwf.
  - rewrite !words_with_prefix_nil.
    apply sorted_unique.
    + apply words_of_sorted, (wf_nodes Hwf2).
    + apply words_of_sorted, (wf_nodes Hwf).
    + intros x; rewrite (remove_words w Hwf1), (insert_words Hwf Hw).
      split; [intros [Hne [E|Hin]]; [congruence | exact Hin]|].
      intros Hin; split; [|auto].
      intros ->; apply (search_iff _ Hwf) in Hin; congruence.
Qed.

(** ** Idempotence of insertion *)

(** C6: a second [insert] of the same word is a no-op: it leaves the
    state as the first one made it, hence [size], [search] and
    [words_with_prefix] answer the same on every input. *)
Theorem C6_insert_idempotent (t : RadixTrie) (w : list ascii) :
  reachable t -> w <> [] ->
  insert w (insert w t) = insert w t /\
  size (insert w (insert w t)) = size (insert w t) /\
  (forall x, search x (insert w (insert w t)) = search x (insert w t)) /\
  (forall p, words_with_prefix p (insert w (insert w t))
             = words_with_prefix p (insert w t)).
Proof.
  intros Hr Hw.
  pose proof (reachable_wf Hr) as Hwf.
  assert (E : insert w (insert w t) = insert w t)
    by (apply insert_present; [apply wf_insert, Hwf | apply search_insert; auto]).
  rewrite E; auto.
Qed.

(** ** Order of the children and of the enumeration *)

Lemma StronglySorted_impl {A} (R S : A -> A -> Prop) (l : list A) :
  (forall a b, R a b -> S a b) -> StronglySorted R l -> StronglySorted S l.
Proof.
  intros HRS; induction 1 as [|a l Hs IH Ha]; constructor; auto.
  eapply Forall_impl; [|exact Ha]; auto.
Qed.

Lemma sorted_keys_NoDup (l : list ascii) :
  StronglySorted (fun a b => char_ltb a b = true) l -> NoDup l.
Proof.
  induction 1 as [|a l Hs IH Ha]; constructor; auto.
  intros Hin; rewrite Forall_forall in Ha.
  specialize (Ha _ Hin); rewrite char_ltb_irrefl in Ha; discriminate.
Qed.

Lemma child_at_wf (current : RadixNode) (it : nat) (c : ascii)
    (child : RadixNode) :
  wf_node current -> child_at current it c = Some child -> wf_node child.
Proof.
  unfold child_at; intros Hwf.
  destruct (nth_error (children current) it) as [[k n]|] eqn:Hnth;
    [|discriminate].
  destruct (Ascii.eqb k c); [|discriminate].
  intros [= <-].
  apply (wf_node_child Hwf (nth_error_In _ _ Hnth)).
Qed.

Lemma words_with_prefix_loop_sorted (fuel : nat) :
  forall prefix current pos r,
    wf_node current ->
    words_with_prefix_loop fuel prefix current pos = Some r ->
    StronglySorted lex_lt r.
Proof.
  induction fuel as [|fuel IH]; intros prefix current pos r Hwf;
    [discriminate|].
  cbn [words_with_prefix_loop].
  destruct (skipn pos prefix) as [|c rest].
  - intros [= <-]; rewrite collect_words_from_node_eq.
    apply words_of_sorted, Hwf.
  - destruct (child_at current (find_child current c) c) as [child|] eqn:Hc;
      [|intros [= <-]; constructor].
    pose proof (child_at_wf Hwf Hc) as Hwfc.
    destruct (length prefix <? pos + length (key child)).
    + destruct (bytes_eqb _ _); intros [= <-]; [|constructor].
      rewrite collect_words_from_node_eq; apply words_of_sorted, Hwfc.
    + destruct (negb _); [intros [= <-]; constructor|].
      apply IH, Hwfc.
Qed.

Lemma words_with_prefix_sorted (p : list ascii) (t : RadixTrie) :
  wf_trie t -> StronglySorted lex_lt (words_with_prefix p t).
Proof.
  intros Hwf; unfold words_with_prefix.
  destruct p as [|c p].
  - rewrite collect_words_from_node_eq; apply words_of_sorted, (wf_nodes Hwf).
  - destruct (words_with_prefix_loop _ _ _ _) as [r|] eqn:Hrun;
      [|constructor].
    exact (words_with_prefix_loop_sorted (wf_nodes Hwf) Hrun).
Qed.

Lemma has_prefix_iff (p w : list ascii) :
  has_prefix p w = true <-> exists s, w = p ++ s.
Proof.
  revert w; induction p as [|a p IH]; intros w; simpl.
  - split; [exists w; reflexivity | reflexivity].
  - destruct w as [|b w]; [split; [discriminate | intros (s & Hs); discriminate]|].
    rewrite andb_true_iff, Ascii.eqb_eq, IH; split.
    + intros [-> (s & ->)]; exists s; reflexivity.
    + intros (s & Hs); inversion Hs; subst; eauto.
Qed.

Lemma filter_all_words (f : list ascii -> bool) (l : list (list ascii)) :
  (forall w, In w l -> f w = true) -> filter f l = l.
Proof. intros H; apply forallb_filter_id, forallb_forall, H. Qed.

Lemma filter_no_words (f : list ascii -> bool) (l : list (list ascii)) :
  (forall w, In w l -> f w = false) -> filter f l = [].
Proof.
  intros H; rewrite <- (filter_false l); apply filter_ext_in, H.
Qed.

Lemma filter_flat_map {A} (f : list ascii -> bool)
    (g : A -> list (list ascii)) (l : list A) :
  filter f (flat_map g l) = flat_map (fun x => filter f (g x)) l.
Proof.
  induction l as [|x l IH]; simpl; [reflexivity|].
  rewrite filter_app, IH; reflexivity.
Qed.

Lemma flat_map_nil {A B} (g : A -> list B) (l : list A) :
  (forall x, In x l -> g x = []) -> flat_map g l = [].
Proof.
  induction l as [|x l IH]; simpl; intros H; [reflexivity|].
  rewrite (H x (or_introl eq_refl)), IH; auto.
Qed.

(** Below a child filed under another byte nothing begins with a prefix
    that continues with [c]. *)
Lemma other_child_no_match (consumed rest : list ascii) (c k : ascii)
    (child : RadixNode) :
  hd_error (key child) = Some k -> k <> c ->
  filter (has_prefix (consumed ++ c :: rest)) (words_of child consumed) = [].
Proof.
  intros Hk Hne; apply filter_no_words; intros w Hw.
  destruct (words_of_child_prefix Hk Hw) as (s & ->).
  destruct (has_prefix _ _) eqn:E; [|reflexivity].
  apply has_prefix_iff in E; destruct E as (s' & E).
  rewrite <- app_assoc in E; apply app_inv_head in E.
  inversion E; congruence.
Qed.

Lemma words_below_filter_miss (current : RadixNode)
    (consumed rest : list ascii) (c : ascii) :
  wf_node current ->
  child_at current (find_child current c) c = None ->
  filter (has_prefix (consumed ++ c :: rest)) (words_below current consumed)
  = [].
Proof.
  intros Hwf Hmiss; unfold words_below.
  rewrite filter_flat_map; apply flat_map_nil; intros [k child] Hin.
  destruct (wf_node_child Hwf Hin) as (_ & Hk); cbn [snd].
  apply (other_child_no_match _ _ Hk).
  intros ->.
  pose proof (proj1 (proj1 (proj1 (wf_node_unfold _) Hwf))) as Hs.
  rewrite (sorted_child_found Hs Hin) in Hmiss; discriminate.
Qed.

Lemma words_below_filter_hit (current child : RadixNode)
    (consumed rest : list ascii) (c : ascii) :
  wf_node current ->
  child_at current (find_child current c) c = Some child ->
  filter (has_prefix (consumed ++ c :: rest)) (words_below current consumed)
  = filter (has_prefix (consumed ++ c :: rest)) (words_of child consumed).
Proof.
  intros Hwf Hhit.
  destruct (find_child_hit Hhit) as (l1 & l2 & E & _ & _).
  pose proof (proj1 (proj1 (proj1 (wf_node_unfold _) Hwf))) as Hs.
  apply sorted_keys_NoDup in Hs.
  rewrite E, map_app in Hs; cbn [map fst] in Hs.
  pose proof (NoDup_remove_2 _ _ _ Hs) as Hnot.
  rewrite in_app_iff in Hnot.
  assert (Hother : forall l,
             incl l (children current) -> ~ In c (map fst l) ->
             flat_map (fun p => filter (has_prefix (consumed ++ c :: rest))
                                  (words_of (snd p) consumed)) l = []).
  { intros l Hincl Hc; apply flat_map_nil; intros [k n] Hin; cbn [snd].
    destruct (wf_node_child Hwf (Hincl _ Hin)) as (_ & Hk).
    apply (other_child_no_match _ _ Hk).
    intros ->; apply Hc, in_map_iff; exists (c, n); auto. }
  rewrite (words_below_split _ E), !filter_app, !filter_flat_map.
  rewrite (Hother l1), (Hother l2), app_nil_r; [reflexivity| | | |]; try tauto.
  - rewrite E; intros x Hx; apply in_or_app; right; right; exact Hx.
  - rewrite E; intros x Hx; apply in_or_app; left; exact Hx.
Qed.

Lemma words_with_prefix_loop_total (fuel : nat) :
  forall prefix current pos,
    node_height current < fuel ->
    words_with_prefix_loop fuel prefix current pos <> None.
Proof.
  induction fuel as [|fuel IH]; intros prefix current pos Hfuel; [lia|].
  cbn [words_with_prefix_loop].
  destruct (skipn pos prefix) as [|c rest]; [discriminate|].
  destruct (child_at current (find_child current c) c) as [child|] eqn:Hc;
    [|discriminate].
  destruct (find_child_hit Hc) as (l1 & l2 & E & _).
  assert (Hin : In (c, child) (children current)) by (rewrite E; apply in_elt).
  pose proof (node_height_child Hin) as Hh; simpl in Hh.
  destruct (length prefix <? pos + length (key child)).
  - destruct (bytes_eqb _ _); discriminate.
  - destruct (negb _); [discriminate | apply IH; lia].
Qed.

(** The loop of [words_with_prefix] returns the words below the node it
    has reached that begin with the prefix, in the order of the walk. *)
Lemma words_with_prefix_loop_filter (fuel : nat) :
  forall prefix current pos base,
    wf_node current -> node_height current < fuel ->
    pos <= length prefix ->
    base ++ key current = firstn pos prefix ->
    words_with_prefix_loop fuel prefix current pos =
    Some (filter (has_prefix prefix) (words_of current base)).
Proof.
  induction fuel as [|fuel IH];
    intros prefix current pos base Hwf Hfuel Hpos Hbase; [lia|].
  cbn [words_with_prefix_loop].
  pose proof (firstn_skipn pos prefix) as Hsplit.
  destruct (skipn pos prefix) as [|c rest] eqn:Hrest.
  - (* the whole prefix is consumed *)
    rewrite app_nil_r in Hsplit; rewrite Hsplit in Hbase.
    assert (Hb : match key current with
                 | [] => prefix
                 | _ :: _ =>
                     if length (key current) <=? length prefix
                     then firstn (length prefix - length (key current)) prefix
                     else prefix
                 end = base).
    { destruct (key current) as [|a k] eqn:Hk.
      - rewrite app_nil_r in Hbase; congruence.
      - rewrite <- Hbase, length_app.
        replace (length (a :: k) <=? length base + length (a :: k)) with true
          by (symmetry; apply Nat.leb_le; lia).
        replace (length base + length (a :: k) - length (a :: k))
          with (length base) by lia.
        apply firstn_app_length. }
    rewrite Hb, collect_words_from_node_eq; cbn [app]; f_equal.
    symmetry; apply filter_all_words; intros w Hw.
    destruct (words_of_prefix Hw) as (s & ->).
    apply has_prefix_iff; exists s.
    rewrite app_assoc, Hbase; reflexivity.
  - (* one more edge *)
    set (consumed := firstn pos prefix) in *.
    assert (Hlen : length consumed = pos)
      by (unfold consumed; apply firstn_length_le, Hpos).
    clearbody consumed.
    assert (Hown : filter (has_prefix prefix)
                     (if is_end current then [base ++ key current] else [])
                   = []).
    { apply filter_no_words; intros w Hw.
      destruct (is_end current); [|destruct Hw].
      destruct Hw as [<-|[]]; rewrite Hbase, <- Hsplit.
      destruct (has_prefix _ _) eqn:E; [|reflexivity].
      apply has_prefix_iff in E; destruct E as (s & E).
      rewrite <- (app_nil_r consumed) in E at 1.
      rewrite <- app_assoc in E; apply app_inv_head in E; discriminate. }
    rewrite words_of_unfold, filter_app, Hown, Hbase; cbn [app].
    replace (has_prefix prefix) with (has_prefix (consumed ++ c :: rest))
      by (rewrite Hsplit; reflexivity).
    destruct (child_at current (find_child current c) c) as [child|] eqn:Hc.
    2: { rewrite (words_below_filter_miss _ _ Hwf Hc); reflexivity. }
    rewrite (words_below_filter_hit _ _ Hwf Hc).
    destruct (find_child_hit Hc) as (l1 & l2 & E & _).
    assert (Hin : In (c, child) (children current))
      by (rewrite E; apply in_elt).
    destruct (wf_node_child Hwf Hin) as (Hwfc & Hk).
    pose proof (node_height_child Hin) as Hh; simpl in Hh.
    assert (Hplen : length prefix = pos + length (c :: rest))
      by (rewrite <- Hsplit, length_app, Hlen; reflexivity).
    destruct (Nat.ltb_spec (length prefix) (pos + length (key child)))
      as [Hshort|Hlong].
    + (* the prefix ends inside the key of the child *)
      replace (length prefix - pos) with (length (c :: rest)) by lia.
      set (n := length (c :: rest)) in *.
      destruct (bytes_eqb (c :: rest) (firstn n (key child))) eqn:Heq.
      * apply bytes_eqb_eq in Heq.
        rewrite collect_words_from_node_eq; cbn [app]; f_equal.
        symmetry; apply filter_all_words; intros w Hw.
        destruct (words_of_prefix Hw) as (s & ->).
        apply has_prefix_iff.
        exists (skipn n (key child) ++ s).
        rewrite <- !app_assoc; f_equal.
        rewrite app_assoc; f_equal.
        rewrite Heq; symmetry; apply firstn_skipn.
      * subst n.
        f_equal; symmetry; apply filter_no_words; intros w Hw.
        destruct (words_of_prefix Hw) as (s & ->).
        destruct (has_prefix _ _) eqn:Hp; [|reflexivity].
        apply has_prefix_iff in Hp; destruct Hp as (s' & Hp).
        rewrite <- app_assoc in Hp; apply app_inv_head in Hp.
        apply (f_equal (firstn (length (c :: rest)))) in Hp.
        rewrite firstn_app_length, firstn_app in Hp.
        replace (length (c :: rest) - length (key child)) with 0 in Hp by lia.
        rewrite firstn_O, app_nil_r in Hp.
        rewrite Hp, bytes_eqb_refl in Heq; discriminate.
    + destruct (bytes_eqb (firstn (length (key child)) (c :: rest))
                  (key child)) eqn:Heq; cbn [negb].
      * (* the key of the child is consumed: go on below it *)
        apply bytes_eqb_eq in Heq.
        rewrite Hsplit; apply IH; [exact Hwfc | lia | lia |].
        rewrite <- Hsplit, firstn_app, Hlen.
        replace (pos + length (key child) - pos) with (length (key child))
          by lia.
        rewrite Heq, firstn_all2 by lia; reflexivity.
      * f_equal; symmetry; apply filter_no_words; intros w Hw.
        destruct (words_of_prefix Hw) as (s & ->).
        destruct (has_prefix _ _) eqn:Hp; [|reflexivity].
        apply has_prefix_iff in Hp; destruct Hp as (s' & Hp).
        rewrite <- app_assoc in Hp; apply app_inv_head in Hp.
        apply (f_equal (firstn (length (key child)))) in Hp.
        rewrite firstn_app_length, firstn_app in Hp.
        replace (length (key child) - length (c :: rest)) with 0 in Hp by lia.
        rewrite firstn_O, app_nil_r in Hp.
        rewrite <- Hp, bytes_eqb_refl in Heq; discriminate.
Qed.

(** [words_with_prefix] returns the words of the full enumeration that
    begin with the prefix, in the order of that enumeration. *)
Lemma words_with_prefix_filter (p : list ascii) (t : RadixTrie) :
  wf_trie t ->
  words_with_prefix p t = filter (has_prefix p) (words_with_prefix [] t).
Proof.
  intros Hwf; rewrite words_with_prefix_nil.
  destruct p as [|c p].
  - rewrite words_with_prefix_nil, filter_true; reflexivity.
  - unfold words_with_prefix.
    rewrite (@words_with_prefix_loop_filter _ (c :: p) (root t) 0 []
               (wf_nodes Hwf) (Nat.lt_succ_diag_r _)); [reflexivity|simpl; lia|].
    rewrite (wf_root_key Hwf); reflexivity.
Qed.

(** C8, as amended: in every reachable state the children of every node
    are strictly ascending, without duplicate keys, in the order of the
    type [char] (the comparison [p.first < key] of [find_child]); every
    [words_with_prefix] result is strictly ascending in the order this
    induces on words, which is the order of a walk that follows the
    children vectors.  Where [char] is unsigned this is the raw byte
    order. *)
Theorem C8_children_in_char_order (t : RadixTrie) :
  reachable t ->
  every_node
    (fun n => sorted_by char_ltb n /\ NoDup (map fst (children n))) (root t) /\
  (forall p,
     words_with_prefix p t = filter (has_prefix p) (words_with_prefix [] t) /\
     StronglySorted lex_lt (words_with_prefix p t)) /\
  (char_signed = false -> every_node (sorted_by byte_ltb) (root t)).
Proof.
  intros Hr; pose proof (reachable_wf Hr) as Hwf.
  repeat split.
  - apply every_node_impl with (2 := wf_nodes Hwf).
    intros m [Hs _]; split; [exact Hs | apply sorted_keys_NoDup, Hs].
  - apply words_with_prefix_filter, Hwf.
  - apply words_with_prefix_sorted, Hwf.
  - intros E; apply every_node_impl with (2 := wf_nodes Hwf).
    intros m [Hs _]; unfold sorted_by in *.
    apply StronglySorted_impl with (2 := Hs).
    unfold char_ltb, char_value, byte_ltb; rewrite E; auto.
Qed.

(** ** Compression *)

Lemma every_non_root_middle (P : RadixNode -> Prop) (n : RadixNode)
    (l1 l2 : ChildVec) (c : ascii) (a b : RadixNode) :
  children n = l1 ++ (c, a) :: l2 ->
  every_non_root P n -> every_node P b ->
  every_non_root P (set_children (l1 ++ (c, b) :: l2) n).
Proof.
  unfold every_non_root; cbn [children set_children]; intros ->.
  rewrite !Forall_app; intros [H1 H2] Hb; split; [exact H1|].
  inversion H2; subst; constructor; assumption.
Qed.

Lemma every_non_root_child (P : RadixNode -> Prop) (n : RadixNode)
    (l1 l2 : ChildVec) (c : ascii) (a : RadixNode) :
  children n = l1 ++ (c, a) :: l2 -> every_non_root P n -> every_node P a.
Proof.
  unfold every_non_root; intros ->.
  rewrite Forall_app; intros [_ H2]; inversion H2; assumption.
Qed.

Lemma insert_rel_branching current rest count r c' :
  insert_rel current rest count r c' ->
  every_non_root branching_node current ->
  every_non_root branching_node r /\
  length (children current) <= length (children r).
Proof.
  induction 1 as
    [current c rest l1 l2 count E Hall Hhd
    |current c rest l1 child l2 count E Hall Ek He
    |current c rest l1 child l2 count E Hall Ek He
    |current c rest l1 child l2 count rest' child' count' E Hall Ek Hne Hrel IH
    |current c rest l1 child l2 count kc krest E Hall Ek
    |current c rest l1 child l2 count common kc krest rc rrest E Hall Ek Er Hd];
    intros Hb; auto;
    try (pose proof (every_non_root_child E Hb) as Hchild;
         rewrite every_node_unfold in Hchild;
         destruct Hchild as [Hbc Hbelow]);
    (split;
     [|cbn [children set_children]; rewrite E, !length_app; simpl; lia]).
  - unfold every_non_root in *; cbn [children set_children].
    rewrite E in Hb; rewrite Forall_app in *; destruct Hb; split; auto.
    constructor; auto.
    rewrite every_node_unfold; split; [discriminate | constructor].
  - apply (every_non_root_middle E Hb).
    rewrite every_node_unfold; split; [discriminate | exact Hbelow].
  - destruct (IH Hbelow) as [Hbelow' Hlen].
    destruct (insert_rel_shape Hrel) as (_ & Hend & _).
    apply (every_non_root_middle E Hb).
    rewrite every_node_unfold; split; [|exact Hbelow'].
    unfold branching_node in *; rewrite Hend; intros Hf.
    specialize (Hbc Hf); lia.
  - apply (every_non_root_middle E Hb).
    rewrite every_node_unfold; split; [discriminate|].
    constructor; [|constructor].
    rewrite every_node_unfold; split; [exact Hbc | exact Hbelow].
  - apply (every_non_root_middle E Hb).
    assert (Hold : every_node branching_node
                     (set_parent_char kc (set_key (kc :: krest) child)))
      by (rewrite every_node_unfold; split; [exact Hbc | exact Hbelow]).
    assert (Hleaf : every_node branching_node
                      (mkNode (rc :: rrest) true rc []))
      by (rewrite every_node_unfold; split; [discriminate | constructor]).
    rewrite every_node_unfold; split.
    + intros _; cbn [children]; destruct (char_ltb kc rc); simpl; lia.
    + cbn [children]; destruct (char_ltb kc rc);
        repeat (constructor; try assumption).
Qed.

Lemma insert_reachable_branching (t : RadixTrie) :
  insert_reachable t -> every_non_root branching_node (root t).
Proof.
  induction 1 as [|w t _ IH]; [constructor|].
  destruct w as [|c w]; [exact IH|].
  destruct (@insert_spec (c :: w) t ltac:(discriminate))
    as (r & n & -> & Hrel).
  apply (insert_rel_branching Hrel IH).
Qed.

Lemma node_update_keys (b : bool) (q : NodePtr) :
  forall n, node_keys (node_update (set_is_end b) q n) = node_keys n.
Proof.
  induction q as [|i q IH]; intros n; [destruct n; reflexivity|].
  cbn [node_update].
  destruct (nth_error (children n) i) as [[k c]|] eqn:Hnth; [|reflexivity].
  destruct (nth_error_split _ _ Hnth) as (l1 & l2 & E & Hlen).
  rewrite <- Hlen, E, vec_set_middle.
  destruct n as [kn e pc cs]; cbn [children set_children key is_end
                                    parent_char node_keys] in *.
  subst cs; rewrite !flat_map_app; cbn [flat_map snd]; rewrite IH.
  reflexivity.
Qed.

(** C1, as amended: after any sequence of [insert] operations from the
    empty trie no node other than the root is non-terminal with exactly
    one child; [remove] merges nothing: every key found in the tree after
    it is the key of a node that was there before. *)
Theorem C1_compressed_after_inserts (t : RadixTrie) (w : list ascii) :
  reachable t ->
  (insert_reachable t -> every_non_root compressed_node (root t)) /\
  incl (node_keys (root (snd (remove w t)))) (node_keys (root t)).
Proof.
  intros _; split.
  - intros Hi.
    pose proof (insert_reachable_branching Hi) as Hb.
    unfold every_non_root in *.
    eapply Forall_impl; [|exact Hb].
    intros p; apply every_node_impl.
    unfold branching_node, compressed_node; intros m Hm He.
    specialize (Hm He); lia.
  - destruct (remove_spec w t)
      as [(_ & -> & _)|(p & node & _ & _ & _ & _ & ->)];
      [apply incl_refl|].
    cbn [snd root]; rewrite node_update_keys; apply incl_refl.
Qed.

(** ** Streaming equivalence *)

Lemma records_from_shape (input : list ascii) :
  forall cur,
    forallb (fun c => negb (is_line_break c)) cur = true ->
    Forall (fun r => r <> [] /\
                     forallb (fun c => negb (is_line_break c)) r = true)
      (records_from input cur).
Proof.
  induction input as [|c input IH]; intros cur Hcur; cbn [records_from].
  - destruct cur; constructor; [split; [discriminate | exact Hcur]|constructor].
  - destruct (is_line_break c) eqn:E.
    + destruct cur; [apply IH; reflexivity|].
      constructor; [split; [discriminate | exact Hcur]|].
      apply IH; reflexivity.
    + apply IH; rewrite forallb_app, Hcur; simpl; rewrite E; reflexivity.
Qed.

Lemma drop_space_head (s : list ascii) :
  match drop_space s with
  | [] => True
  | c :: _ => isspace c = false
  end.
Proof.
  induction s as [|c s IH]; simpl; [exact I|].
  destruct (isspace c) eqn:E; [exact IH | exact E].
Qed.

Lemma drop_space_last (s : list ascii) :
  isspace (last s "a"%char) = false ->
  isspace (last (drop_space s) "a"%char) = false.
Proof.
  induction s as [|c s IH]; [auto|].
  cbn [drop_space]; destruct (isspace c) eqn:E; [|auto].
  destruct s as [|d s]; [simpl; congruence|].
  intros H; apply IH; exact H.
Qed.

Lemma trim_view_ends (s : list ascii) :
  match trim_view s with
  | [] => True
  | (c :: _) as w => isspace c = false /\ isspace (last w "a"%char) = false
  end.
Proof.
  unfold trim_view.
  pose proof (drop_space_head (rev (drop_space (rev s)))) as Hhd.
  pose proof (drop_space_head (rev s)) as Hlast.
  destruct (drop_space (rev s)) as [|d u]; [exact I|].
  assert (Hl : isspace (last (drop_space (rev (d :: u))) "a"%char) = false)
    by (apply drop_space_last; cbn [rev]; rewrite last_last; exact Hlast).
  destruct (drop_space (rev (d :: u))) as [|c w]; [exact I|].
  split; [exact Hhd | exact Hl].
Qed.

Lemma drop_space_split (s : list ascii) :
  exists lead, s = lead ++ drop_space s /\ forallb isspace lead = true.
Proof.
  induction s as [|c s (lead & E & H)]; cbn [drop_space].
  - exists []; auto.
  - destruct (isspace c) eqn:Ec.
    + exists (c :: lead); cbn [app forallb]; rewrite Ec, H, <- E; auto.
    + exists []; auto.
Qed.

Lemma forallb_rev {A} (f : A -> bool) (l : list A) :
  forallb f (rev l) = forallb f l.
Proof.
  induction l as [|x l IH]; [reflexivity|].
  cbn [rev forallb]; rewrite forallb_app, IH; cbn [forallb].
  rewrite andb_true_r; apply andb_comm.
Qed.

Lemma is_line_break_iff (c : ascii) : is_line_break c = true <-> line_break c.
Proof.
  unfold is_line_break, line_break.
  rewrite orb_true_iff, !Ascii.eqb_eq; reflexivity.
Qed.

Lemma isspace_iff (c : ascii) : isspace c = true <-> ascii_white_space c.
Proof.
  unfold ascii_white_space; split.
  - destruct c as [[] [] [] [] [] [] [] []]; intros H; try discriminate H;
      cbn [In]; repeat (first [left; reflexivity | right]).
  - cbn [In]; intros H.
    repeat (destruct H as [<-|H]; [reflexivity|]); destruct H.
Qed.

Lemma forallb_isspace (l : list ascii) :
  forallb isspace l = true -> Forall ascii_white_space l.
Proof.
  rewrite forallb_forall, Forall_forall.
  intros H c Hc; apply isspace_iff, H, Hc.
Qed.

Lemma last_default {A} (l : list A) (a b : A) :
  l <> [] -> last l a = last l b.
Proof.
  induction l as [|x l IH]; [congruence|]; intros _.
  destruct l as [|y l]; [reflexivity|].
  cbn [last] in *; apply IH; discriminate.
Qed.

(** The two trimming loops compute the trimmed record. *)
Lemma trim_view_trimmed (r : list ascii) : trimmed_record r (trim_view r).
Proof.
  assert (Hnot : forall c, isspace c = false -> ~ ascii_white_space c).
  { intros c Hc Hw; apply isspace_iff in Hw; congruence. }
  pose proof (trim_view_ends r) as Hends.
  unfold trimmed_record, trim_view in *.
  destruct (drop_space_split (rev r)) as (l1 & E1 & H1).
  destruct (drop_space_split (rev (drop_space (rev r)))) as (l2 & E2 & H2).
  exists l2, (rev l1); split; [|split; [|split]].
  - rewrite app_assoc, <- E2.
    rewrite <- rev_app_distr, <- E1, rev_involutive; reflexivity.
  - apply forallb_isspace, H2.
  - apply forallb_isspace; rewrite forallb_rev; exact H1.
  - destruct (drop_space (rev (drop_space (rev r)))) as [|c w]; [exact I|].
    destruct Hends as [Hhd Hlast]; split; [apply Hnot, Hhd|].
    apply Hnot.
    rewrite (@last_default _ (c :: w) c "a"%char) by discriminate.
    exact Hlast.
Qed.

Lemma split_at_breaks_break (c : ascii) (l : list ascii)
    (rs : list (list ascii)) :
  line_break c -> split_at_breaks l rs -> split_at_breaks (c :: l) rs.
Proof.
  intros Hc H; inversion H as [bs Hbs|bs r tail rs' Hbs Hr Hnb Htail Hrest];
    subst.
  - constructor; constructor; assumption.
  - apply (@split_record (c :: bs) r tail rs'); auto.
Qed.

(** [records_from] cuts the stream at its runs of line breaks. *)
Lemma records_from_split (input : list ascii) :
  forall cur,
    Forall (fun c => ~ line_break c) cur ->
    split_at_breaks (cur ++ input) (records_from input cur).
Proof.
  induction input as [|c input IH]; intros cur Hcur; cbn [records_from].
  - rewrite app_nil_r; destruct cur as [|a cur].
    + constructor; constructor.
    + assert (H : split_at_breaks ([] ++ (a :: cur) ++ []) [a :: cur])
        by (apply split_record; auto;
            [discriminate | constructor; constructor]).
      rewrite app_nil_r in H; exact H.
  - destruct (is_line_break c) eqn:Ec.
    + apply is_line_break_iff in Ec.
      pose proof (split_at_breaks_break Ec (IH [] (Forall_nil _))) as Hrest.
      destruct cur as [|a cur]; [exact Hrest|].
      apply (@split_record [] (a :: cur) (c :: input)
               (records_from input [])); auto; discriminate.
    + replace (cur ++ c :: input) with ((cur ++ [c]) ++ input)
        by (rewrite <- app_assoc; reflexivity).
      apply IH, Forall_app; split; [exact Hcur|].
      constructor; [|constructor].
      intros Hc; apply is_line_break_iff in Hc; congruence.
Qed.

(** The two specifications determine their results. *)
Lemma run_then_other {A} (P : A -> Prop) (l1 l2 : list A) (c1 c2 : A)
    (x y : list A) :
  l1 ++ c1 :: x = l2 ++ c2 :: y ->
  Forall P l1 -> Forall P l2 -> ~ P c1 -> ~ P c2 ->
  l1 = l2 /\ c1 :: x = c2 :: y.
Proof.
  revert l2; induction l1 as [|a l1 IH]; intros [|b l2] E H1 H2 N1 N2;
    cbn [app] in E.
  - auto.
  - injection E as -> _; inversion H2; contradiction.
  - injection E as -> _; inversion H1; contradiction.
  - injection E as -> E; inversion H1; inversion H2; subst.
    destruct (IH l2 E) as [-> E']; auto.
Qed.

Lemma trimmed_record_unique (r w1 w2 : list ascii) :
  trimmed_record r w1 -> trimmed_record r w2 -> w1 = w2.
Proof.
  intros (l1 & t1 & E1 & Hl1 & Ht1 & He1) (l2 & t2 & E2 & Hl2 & Ht2 & He2).
  assert (Hblank : forall l t l' t' c w,
            l ++ t = l' ++ (c :: w) ++ t' ->
            Forall ascii_white_space l -> Forall ascii_white_space t ->
            ~ ascii_white_space c -> False).
  { intros l t l' t' c w E Hl Ht Hc; apply Hc.
    assert (Hin : In c (l ++ t))
      by (rewrite E; apply in_or_app; right; left; reflexivity).
    apply in_app_or in Hin; rewrite Forall_forall in Hl, Ht.
    destruct Hin; auto. }
  destruct w1 as [|c1 x1], w2 as [|c2 x2]; auto.
  - exfalso; rewrite E1 in E2; cbn [app] in E2.
    apply (Hblank _ _ _ _ _ _ E2 Hl1 Ht1), He2.
  - exfalso; rewrite E2 in E1; cbn [app] in E1.
    apply (Hblank _ _ _ _ _ _ E1 Hl2 Ht2), He1.
  - destruct He1 as [Hc1 Hlast1], He2 as [Hc2 Hlast2].
    rewrite E1 in E2; cbn [app] in E2.
    destruct (run_then_other E2 Hl1 Hl2 Hc1 Hc2) as [_ E].
    change ((c1 :: x1) ++ t1 = (c2 :: x2) ++ t2) in E.
    rewrite (@app_removelast_last _ (c1 :: x1) c1) in E by discriminate.
    rewrite (@app_removelast_last _ (c2 :: x2) c2) in E by discriminate.
    apply (f_equal (@rev ascii)) in E.
    rewrite <- !app_assoc, !rev_app_distr in E; cbn [app rev] in E.
    rewrite <- !app_assoc in E; cbn [app] in E.
    apply run_then_other with (P := ascii_white_space) in E;
      try (apply Forall_rev; assumption); try assumption.
    destruct E as [Et E].
    apply (f_equal (@rev ascii)) in Et; rewrite !rev_involutive in Et.
    injection E as El Er.
    apply (f_equal (@rev ascii)) in Er; rewrite !rev_involutive in Er.
    change (last (c1 :: x1) c1 = last (c2 :: x2) c2) in El.
    change (removelast (c1 :: x1) = removelast (c2 :: x2)) in Er.
    rewrite (@app_removelast_last _ (c1 :: x1) c1) by discriminate.
    rewrite (@app_removelast_last _ (c2 :: x2) c2) by discriminate.
    rewrite El, Er; reflexivity.
Qed.

Lemma record_then_tail (r1 r2 t1 t2 : list ascii) :
  r1 ++ t1 = r2 ++ t2 ->
  Forall (fun c => ~ line_break c) r1 ->
  Forall (fun c => ~ line_break c) r2 ->
  match t1 with [] => True | c :: _ => line_break c end ->
  match t2 with [] => True | c :: _ => line_break c end ->
  r1 = r2 /\ t1 = t2.
Proof.
  revert r2; induction r1 as [|a r1 IH]; intros [|b r2] E H1 H2 T1 T2;
    cbn [app] in E.
  - auto.
  - subst t1; inversion H2; contradiction.
  - subst t2; inversion H1; contradiction.
  - injection E as -> E; inversion H1; inversion H2; subst.
    destruct (IH r2 E) as [-> ->]; auto.
Qed.

Lemma split_at_breaks_unique (input : list ascii)
    (rs1 rs2 : list (list ascii)) :
  split_at_breaks input rs1 -> split_at_breaks input rs2 -> rs1 = rs2.
Proof.
  assert (Hno : forall bs bs' r tail,
            bs = bs' ++ r ++ tail -> Forall line_break bs ->
            r <> [] -> Forall (fun c => ~ line_break c) r -> False).
  { intros bs bs' [|c r] tail E Hbs Hr Hnb; [congruence|].
    inversion Hnb as [|? ? Hc _]; subst; apply Hc.
    rewrite Forall_forall in Hbs; apply Hbs.
    apply in_or_app; right; left; reflexivity. }
  intros H1; revert rs2.
  induction H1 as [bs Hbs|bs r tail rs Hbs Hr Hnb Htail Hrest IH];
    intros rs2 H2.
  - inversion H2 as [bs2 Hbs2|bs2 r2 tail2 rs2' Hbs2 Hr2 Hnb2 Htail2 Hrest2 E];
      subst; [reflexivity|].
    exfalso; apply (Hno _ _ _ _ eq_refl Hbs Hr2 Hnb2).
  - inversion H2 as [bs2 Hbs2 E|bs2 r2 tail2 rs2' Hbs2 Hr2 Hnb2 Htail2 Hrest2 E];
      subst.
    + exfalso; apply (Hno _ _ _ _ eq_refl Hbs2 Hr Hnb).
    + destruct r as [|c x]; [congruence|].
      destruct r2 as [|c2 x2]; [congruence|].
      cbn [app] in E.
      inversion Hnb as [|? ? Hc _]; inversion Hnb2 as [|? ? Hc2 _]; subst.
      destruct (run_then_other E Hbs2 Hbs Hc2 Hc) as [_ E'].
      change ((c2 :: x2) ++ tail2 = (c :: x) ++ tail) in E'.
      destruct (record_then_tail E' Hnb2 Hnb Htail2 Htail) as [-> ->].
      f_equal; apply IH, Hrest2.
Qed.


(** C4: the ingest cuts the stream at every run of CR and LF bytes (the
    records are the non-empty runs of other bytes between them, so
    consecutive line breaks give no empty record), trims each record of
    ASCII white space at both ends, drops the records that are empty after
    trimming, inserts the others as they are, in order, and returns how
    many times it called [insert], duplicates included. *)
Theorem C4_line_records (input : list ascii) (buffer_size : nat)
    (t : RadixTrie) :
  0 < buffer_size ->
  let records := records_from input [] in
  let words := filter non_empty (map trim_view records) in
  split_at_breaks input records /\
  Forall2 trimmed_record records (map trim_view records) /\
  Forall (fun r => r <> [] /\
                   forallb (fun c => negb (is_line_break c)) r = true)
    records /\
  Forall (fun w => w <> [] /\ isspace (hd "a"%char w) = false /\
                   isspace (last w "a"%char) = false) words /\
  snd (bulk_insert_from_file input buffer_size t) = insert_each words t /\
  fst (bulk_insert_from_file input buffer_size t)
  = (Z.of_nat (length words) mod size_t_modulus)%Z.
Proof.
  intros HB records words.
  rewrite bulk_insert_from_file_spec by assumption.
  split; [apply (records_from_split input (Forall_nil _))|].
  split.
  { clear; induction records as [|r records IH]; cbn [map]; constructor;
      [apply trim_view_trimmed | exact IH]. }
  repeat split.
  - apply records_from_shape; reflexivity.
  - apply Forall_forall; intros w Hw.
    apply filter_In in Hw; destruct Hw as [Hin Hne].
    apply in_map_iff in Hin; destruct Hin as (r & <- & _).
    pose proof (trim_view_ends r) as He.
    destruct (trim_view r) as [|c u]; [discriminate|].
    destruct He; repeat split; [discriminate | assumption | assumption].
Qed.

(** ** The wildcard matcher *)

Lemma glob_nil_inv (w : list ascii) : glob [] w -> w = [].
Proof. inversion 1; reflexivity. Qed.

Lemma glob_empty_word (p : list ascii) : glob p [] <-> skip_stars p = [].
Proof.
  induction p as [|c p IH]; simpl.
  - split; [reflexivity | constructor].
  - destruct (Ascii.eqb_spec c "*"%char) as [->|Hne].
    + rewrite <- IH; split.
      * intros H; inversion H; subst;
          match goal with
          | E : _ ++ _ = [] |- _ =>
              apply app_eq_nil in E; destruct E; subst; assumption
          end.
      * intros Hg; apply (glob_star [] Hg).
    + split; [|discriminate].
      intros H; inversion H; subst; congruence.
Qed.

Lemma try_suffixes_iff (f : list ascii -> bool) (w : list ascii) :
  try_suffixes f w = true <-> exists skipped s, w = skipped ++ s /\ f s = true.
Proof.
  induction w as [|c w IH]; cbn [try_suffixes].
  - destruct (f []) eqn:E.
    + split; [exists [], []; auto | reflexivity].
    + split; [discriminate|].
      intros (skipped & s & Hw & Hf).
      destruct skipped; [|discriminate].
      simpl in Hw; subst s; congruence.
  - destruct (f (c :: w)) eqn:E.
    + split; [exists [], (c :: w); auto | reflexivity].
    + fold (try_suffixes f w); rewrite IH; split.
      * intros (skipped & s & -> & Hf); exists (c :: skipped), s; auto.
      * intros (skipped & s & Hw & Hf).
        destruct skipped as [|d skipped].
        -- simpl in Hw; subst s; congruence.
        -- inversion Hw; subst; exists skipped, s; auto.
Qed.

(** [matches_pattern] decides the wildcard language. *)
Lemma matches_pattern_iff (p : list ascii) :
  forall w, matches_pattern w p = true <-> glob p w.
Proof.
  induction p as [|pc p IH]; intros w.
  - destruct w; simpl; split; try discriminate; try constructor.
    intros H; apply glob_nil_inv in H; discriminate.
  - destruct w as [|wc w].
    + rewrite glob_empty_word; cbn [matches_pattern].
      destruct (skip_stars (pc :: p)); split; congruence.
    + cbn [matches_pattern].
      destruct (Ascii.eqb_spec pc "?"%char) as [->|Hq].
      * rewrite IH; split; [apply glob_any|].
        inversion 1; subst; try congruence.
      * destruct (Ascii.eqb_spec pc "*"%char) as [->|Hs].
        -- assert (Hstar : glob ("*"%char :: p) (wc :: w) <->
                           exists skipped s,
                             wc :: w = skipped ++ s /\ glob p s).
           { split.
             - inversion 1; subst; try congruence; eauto.
             - intros (skipped & s & -> & Hg); constructor; exact Hg. }
           rewrite Hstar.
           destruct p as [|pc' p'].
           ++ split; [|reflexivity].
              intros _; exists (wc :: w), []; split;
                [rewrite app_nil_r; reflexivity | constructor].
           ++ rewrite try_suffixes_iff.
              split; intros (skipped & s & Hw & Hm); exists skipped, s;
                (split; [exact Hw | apply IH, Hm]).
        -- destruct (Ascii.eqb_spec pc wc) as [->|Hne].
           ++ rewrite IH; split; [apply glob_lit; assumption|].
              inversion 1; subst; congruence.
           ++ split; [discriminate|].
              inversion 1; subst; congruence.
Qed.

Lemma matches_star (w : list ascii) : matches_pattern w ["*"%char] = true.
Proof. destruct w; reflexivity. Qed.

Lemma pattern_match_recursive_eq (pattern : list ascii) (n : RadixNode) :
  forall pre res,
    pattern_match_recursive n pre pattern res =
    res ++ filter (fun w => matches_pattern w pattern) (words_of n pre).
Proof.
  induction n as [k e pc cs IH] using RadixNode_ind; intros pre res.
  cbn [pattern_match_recursive words_of].
  assert (Hacc : forall acc,
             fold_left
               (fun r p => pattern_match_recursive (snd p) (pre ++ k) pattern r)
               cs acc =
             acc ++ filter (fun w => matches_pattern w pattern)
                      (flat_map (fun p => words_of (snd p) (pre ++ k)) cs)).
  { induction IH as [|p cs Hp _ IHcs]; intros acc; simpl.
    - rewrite app_nil_r; reflexivity.
    - rewrite IHcs, Hp, filter_app, <- app_assoc; reflexivity. }
  rewrite Hacc, filter_app.
  destruct e; simpl; [|reflexivity].
  destruct (matches_pattern (pre ++ k) pattern); simpl;
    rewrite <- ?app_assoc; reflexivity.
Qed.

(** *** [std::sort] *)

Lemma string_ltb_trans (a : list ascii) :
  forall b c,
    string_ltb a b = true -> string_ltb b c = true -> string_ltb a c = true.
Proof.
  induction a as [|x a IH]; intros [|y b] [|z c]; simpl; try congruence.
  repeat match goal with
         | |- context [(?u <? ?v)%Z] => destruct (Z.ltb_spec u v)
         end; try congruence; try lia.
  apply IH.
Qed.

Lemma string_ltb_total (a : list ascii) :
  forall b, string_ltb a b = false -> a <> b -> string_ltb b a = true.
Proof.
  induction a as [|x a IH]; intros [|y b]; simpl; try congruence.
  repeat match goal with
         | |- context [(?u <? ?v)%Z] => destruct (Z.ltb_spec u v)
         end; try congruence; try lia.
  assert (x = y) by (apply byte_value_inj; lia); subst y.
  intros Hf Hne; apply IH; [exact Hf | congruence].
Qed.

Lemma sort_insert_perm (x : list ascii) (l : list (list ascii)) :
  Permutation (sort_insert x l) (x :: l).
Proof.
  induction l as [|y l IH]; simpl; [reflexivity|].
  destruct (string_ltb x y); [reflexivity|].
  rewrite IH; apply perm_swap.
Qed.

Lemma std_sort_perm (l : list (list ascii)) : Permutation (std_sort l) l.
Proof.
  induction l as [|x l IH]; simpl; [reflexivity|].
  rewrite sort_insert_perm, IH; reflexivity.
Qed.

Lemma sort_insert_sorted (x : list ascii) (l : list (list ascii)) :
  StronglySorted string_le l -> StronglySorted string_le (sort_insert x l).
Proof.
  induction 1 as [|y l Hs IH Hy]; simpl; [repeat constructor|].
  destruct (string_ltb x y) eqn:E.
  - constructor; [constructor; assumption|].
    assert (Hxy : string_le x y).
    { unfold string_le.
      destruct (string_ltb y x) eqn:E'; [|reflexivity].
      pose proof (string_ltb_trans E E') as Hxx.
      clear -Hxx; exfalso; induction x as [|a x IHx]; simpl in Hxx;
        [discriminate|].
      rewrite Z.ltb_irrefl in Hxx; auto. }
    constructor; [exact Hxy|].
    eapply Forall_impl; [|exact Hy].
    unfold string_le; intros z Hz.
    destruct (string_ltb z x) eqn:E'; [|reflexivity].
    rewrite (string_ltb_trans E' E) in Hz; discriminate.
  - constructor; [exact IH|].
    apply (Permutation_Forall (Permutation_sym (sort_insert_perm x l))).
    constructor; [exact E | exact Hy].
Qed.

Lemma std_sort_sorted (l : list (list ascii)) :
  StronglySorted string_le (std_sort l).
Proof.
  induction l as [|x l IH]; simpl; [constructor|].
  apply sort_insert_sorted, IH.
Qed.

Lemma sorted_strict (l : list (list ascii)) :
  StronglySorted string_le l -> NoDup l -> StronglySorted string_lt l.
Proof.
  induction 1 as [|a l Hs IH Ha]; intros Hnd; [constructor|].
  inversion Hnd as [|? ? Hnin Hnd']; subst.
  constructor; [apply IH, Hnd'|].
  rewrite Forall_forall in *; intros b Hb.
  apply string_ltb_total; [apply Ha, Hb | intros ->; exact (Hnin Hb)].
Qed.

Lemma empty_iff_no_words (t : RadixTrie) :
  wf_trie t ->
  (Z.of_nat (count_end (root t)) < size_t_modulus)%Z ->
  (empty t = true <-> words_of (root t) [] = []).
Proof.
  intros Hwf Hsmall; unfold empty.
  rewrite (wf_count Hwf), Z.mod_small by lia.
  rewrite Z.eqb_eq, <- (words_of_length (root t) []).
  destruct (words_of (root t) []); simpl; split; congruence || lia.
Qed.

Lemma pattern_search_eq (pat : list ascii) (t : RadixTrie) :
  wf_trie t ->
  (Z.of_nat (count_end (root t)) < size_t_modulus)%Z ->
  pattern_search pat t =
  std_sort (filter (fun w => matches_pattern w pat) (words_of (root t) [])).
Proof.
  intros Hwf Hsmall; unfold pattern_search.
  destruct pat as [|c pat].
  - replace (filter _ _) with (@nil (list ascii)); [reflexivity|].
    rewrite <- (filter_false (words_of (root t) [])).
    apply filter_ext_in.
    intros w Hw; destruct w; [|reflexivity].
    rewrite (words_of_root Hwf) in Hw.
    destruct (words_below_nonempty (wf_nodes Hwf) Hw).
  - destruct (empty t) eqn:He.
    + apply (empty_iff_no_words Hwf Hsmall) in He; rewrite He; reflexivity.
    + rewrite pattern_match_recursive_eq; reflexivity.
Qed.

(** C7: in a reachable state that holds fewer than 2^64 words (so that
    [word_count_] has not wrapped around), [pattern_search] returns the
    sorted filter of the enumeration of all words: its result is strictly
    ascending under [std::string]'s order and holds exactly the stored
    words that match the pattern, where [?] stands for one byte and [*]
    for any number of bytes; the empty pattern gives the empty list and
    the pattern [*] gives all stored words. *)
Theorem C7_pattern_search_sorted_filter (t : RadixTrie) (pat : list ascii) :
  reachable t ->
  (Z.of_nat (count_end (root t)) < size_t_modulus)%Z ->
  pattern_search pat t =
    std_sort (filter (fun w => matches_pattern w pat) (words_with_prefix [] t)) /\
  StronglySorted string_lt (pattern_search pat t) /\
  (forall w, In w (pattern_search pat t) <->
             In w (words_with_prefix [] t) /\ glob pat w) /\
  pattern_search [] t = [] /\
  Permutation (pattern_search ["*"%char] t) (words_with_prefix [] t).
Proof.
  intros Hr Hsmall; pose proof (reachable_wf Hr) as Hwf.
  rewrite words_with_prefix_nil.
  pose proof (sorted_NoDup (words_of_sorted [] (wf_nodes Hwf))) as Hnd.
  split; [apply pattern_search_eq; assumption|].
  split; [|split; [|split]].
  - rewrite (pattern_search_eq _ Hwf Hsmall).
    apply sorted_strict; [apply std_sort_sorted|].
    apply (Permutation_NoDup (Permutation_sym (std_sort_perm _))).
    apply NoDup_filter, Hnd.
  - intros w; rewrite (pattern_search_eq _ Hwf Hsmall); split.
    + intros Hin.
      apply (Permutation_in _ (std_sort_perm _)), filter_In in Hin.
      destruct Hin as [H1 H2]; split; [exact H1|].
      apply matches_pattern_iff, H2.
    + intros [H1 H2].
      apply (Permutation_in _ (Permutation_sym (std_sort_perm _))), filter_In.
      split; [exact H1 | apply matches_pattern_iff, H2].
  - reflexivity.
  - rewrite (pattern_search_eq _ Hwf Hsmall), std_sort_perm.
    replace (filter _ _) with (words_of (root t) []); [reflexivity|].
    symmetry; apply forallb_filter_id, forallb_forall.
    intros w _; apply matches_star.
Qed.

(** ** The mode of the analytics *)

Lemma calculate_heights_length (n : RadixNode) :
  forall d res,
    length (calculate_heights_recursive n d res) = length res + count_end n.
Proof.
  induction n as [k e pc cs IH] using RadixNode_ind; intros d res.
  cbn [calculate_heights_recursive count_end].
  assert (Hacc : forall acc,
             length (fold_left
                       (fun hs p =>
                          calculate_heights_recursive (snd p) (d + 1) hs)
                       cs acc)
             = length acc + list_sum (map (fun p => count_end (snd p)) cs)).
  { induction IH as [|p cs Hp _ IHcs]; intros acc; simpl; [lia|].
    rewrite IHcs, Hp; lia. }
  rewrite Hacc; destruct e; rewrite ?length_app; simpl; lia.
Qed.










(** ** The example tries are reachable *)

Lemma trie_of_reachable (ws : list string) : reachable (trie_of ws).
Proof.
  unfold trie_of.
  assert (H : forall t, reachable t ->
              reachable (fold_left (fun t w => insert (str w) t) ws t)).
  { induction ws as [|w ws IH]; intros t Ht; [exact Ht|].
    apply IH, reach_insert, Ht. }
  apply H, reach_new.
Defined.

Lemma trie_of_insert_reachable (ws : list string) :
  insert_reachable (trie_of ws).
Proof.
  unfold trie_of.
  assert (H : forall t, insert_reachable t ->
              insert_reachable
                (fold_left (fun t w => insert (str w) t) ws t)).
  { induction ws as [|w ws IH]; intros t Ht; [exact Ht|].
    apply IH, ireach_insert, Ht. }
  apply H, ireach_new.
Defined.

(** * Further properties of the operations *)

(** ** Lookup, size and enumeration *)

Lemma bool_iff_eq (a b : bool) : (a = true <-> b = true) -> a = b.
Proof. destruct a, b; intros [H1 H2]; auto; symmetry; auto. Qed.

Lemma search_words_eq (x : list ascii) (t1 t2 : RadixTrie) :
  wf_trie t1 -> wf_trie t2 ->
  (In x (words_of (root t1) []) <-> In x (words_of (root t2) [])) ->
  search x t1 = search x t2.
Proof.
  intros H1 H2 H. apply bool_iff_eq.
  rewrite !search_iff by assumption. exact H.
Qed.

(** Two well-formed tries that store the same words cannot be told apart
    by [size] or by the enumeration. *)
Lemma same_words_same_view (t1 t2 : RadixTrie) :
  wf_trie t1 -> wf_trie t2 ->
  (forall x, In x (words_of (root t1) []) <-> In x (words_of (root t2) [])) ->
  words_of (root t1) [] = words_of (root t2) [] /\ size t1 = size t2.
Proof.
  intros H1 H2 H.
  assert (E : words_of (root t1) [] = words_of (root t2) []).
  { apply sorted_unique; auto; apply words_of_sorted; apply wf_nodes;
      assumption. }
  split; [exact E|].
  unfold size. rewrite (wf_count H1), (wf_count H2).
  rewrite <- (words_of_length (root t1) []), <- (words_of_length (root t2) []).
  now rewrite E.
Qed.

(** X1: in every reachable state, [search w] is true exactly when [w] is
    one of the words listed by [words_with_prefix ""]. *)
Theorem X1_search_iff_listed (t : RadixTrie) (w : list ascii) :
  reachable t -> (search w t = true <-> In w (words_with_prefix [] t)).
Proof.
  intros H. rewrite words_with_prefix_nil.
  apply search_iff, reachable_wf, H.
Qed.

(** X2: after [insert w] of a non-empty word on a reachable state, [search]
    finds [w], and answers on every other word as it did before. *)
Theorem X2_search_after_insert (t : RadixTrie) (w : list ascii) :
  reachable t -> w <> [] ->
  search w (insert w t) = true /\
  forall x, x <> w -> search x (insert w t) = search x t.
Proof.
  intros H Hw. pose proof (reachable_wf H) as Hwf.
  split; [apply search_insert; assumption|].
  intros x Hx. apply search_words_eq; auto using wf_insert.
  rewrite insert_words by assumption. tauto.
Qed.

(** X3: on a reachable state [remove w] returns what [search w] returned
    just before; afterwards [search w] is false and [search] answers on
    every other word as it did before. *)
Theorem X3_search_after_remove (t : RadixTrie) (w : list ascii) :
  reachable t ->
  fst (remove w t) = search w t /\
  search w (snd (remove w t)) = false /\
  forall x, x <> w -> search x (snd (remove w t)) = search x t.
Proof.
  intros H. pose proof (reachable_wf H) as Hwf.
  pose proof (wf_remove w Hwf) as Hwf'.
  split; [|split].
  - destruct (remove_spec w t) as [(E1 & _ & E2)|(p & node & _ & _ & _ & E2 & E)].
    + congruence.
    + rewrite E, E2. reflexivity.
  - destruct (search w (snd (remove w t))) eqn:E; [|reflexivity].
    apply search_iff in E; [|assumption].
    apply remove_words in E; [|assumption]. tauto.
  - intros x Hx. apply search_words_eq; auto.
    rewrite remove_words by assumption. tauto.
Qed.

(** X4: in every reachable state [size()] is the number of words listed by
    [words_with_prefix ""], modulo 2^64. *)
Theorem X4_size_counts_listed_words (t : RadixTrie) :
  reachable t ->
  size t = (Z.of_nat (length (words_with_prefix [] t)) mod size_t_modulus)%Z.
Proof.
  intros H. rewrite words_with_prefix_nil, words_of_length.
  apply wf_count, reachable_wf, H.
Qed.

(** X5: on a reachable state, [insert] of a non-empty word adds one to
    [size()] when the word was absent and leaves it when it was stored;
    [remove] takes one off when the word was stored and leaves it
    otherwise (both modulo 2^64). *)
Theorem X5_size_after_insert_and_remove (t : RadixTrie) (w : list ascii) :
  reachable t -> w <> [] ->
  size (insert w t) = (if search w t then size t else size_t_inc (size t)) /\
  size (snd (remove w t))
  = (if search w t then size_t_dec (size t) else size t).
Proof.
  intros H Hw. pose proof (reachable_wf H) as Hwf. split.
  - destruct (search w t) eqn:E.
    + now rewrite insert_present.
    + apply insert_absent_count; assumption.
  - destruct (remove_spec w t) as [(_ & E1 & E2)|(p & node & _ & _ & _ & E2 & E)].
    + now rewrite E1, E2.
    + now rewrite E, E2.
Qed.

(** X6: the order of two inserts cannot be observed: on a reachable state,
    [insert a; insert b] and [insert b; insert a] give the same [size()],
    the same enumeration and the same answers of [search]. *)
Theorem X6_inserts_commute (t : RadixTrie) (a b : list ascii) :
  reachable t ->
  size (insert a (insert b t)) = size (insert b (insert a t)) /\
  words_with_prefix [] (insert a (insert b t))
  = words_with_prefix [] (insert b (insert a t)) /\
  forall x, search x (insert a (insert b t))
            = search x (insert b (insert a t)).
Proof.
  intros H. pose proof (reachable_wf H) as Hwf.
  assert (Hab : wf_trie (insert a (insert b t))) by auto using wf_insert.
  assert (Hba : wf_trie (insert b (insert a t))) by auto using wf_insert.
  assert (Hsame : forall x,
            In x (words_of (root (insert a (insert b t))) []) <->
            In x (words_of (root (insert b (insert a t))) [])).
  { intros x.
    destruct a as [|ca a'], b as [|cb b']; rewrite ?insert_nil;
      try reflexivity.
    rewrite !insert_words by (auto using wf_insert; discriminate). tauto. }
  destruct (same_words_same_view Hab Hba Hsame) as [E1 E2].
  split; [exact E2|]. split.
  - now rewrite !words_with_prefix_nil.
  - intros x. apply search_words_eq; auto.
Qed.


(** ** Nodes and memory *)

Lemma list_sum_cons (x : nat) (l : list nat) :
  list_sum (x :: l) = x + list_sum l.
Proof. reflexivity. Qed.

Lemma tree_nodes_unfold (n : RadixNode) :
  tree_nodes n = S (list_sum (map (fun p => tree_nodes (snd p)) (children n))).
Proof. destruct n; reflexivity. Qed.

Lemma tree_key_bytes_unfold (n : RadixNode) :
  tree_key_bytes n
  = length (key n)
    + list_sum (map (fun p => tree_key_bytes (snd p)) (children n)).
Proof. destruct n; reflexivity. Qed.

Lemma tree_nodes_keys (n : RadixNode) : tree_nodes n = length (node_keys n).
Proof.
  induction n as [k e pc cs IH] using RadixNode_ind.
  cbn [tree_nodes node_keys length]; f_equal.
  induction IH as [|p cs Hp _ IHcs]; simpl; auto.
  rewrite length_app, Hp, IHcs; reflexivity.
Qed.

Lemma tree_key_bytes_keys (n : RadixNode) :
  tree_key_bytes n = list_sum (map (@length ascii) (node_keys n)).
Proof.
  induction n as [k e pc cs IH] using RadixNode_ind.
  cbn [tree_key_bytes node_keys map].
  change (length k + list_sum (map (fun p => tree_key_bytes (snd p)) cs)
          = length k
            + list_sum (map (@length ascii)
                          (flat_map (fun p => node_keys (snd p)) cs))).
  f_equal.
  induction IH as [|p cs Hp _ IHcs]; [reflexivity|].
  cbn [flat_map map].
  rewrite map_app, list_sum_app, <- Hp, <- IHcs; reflexivity.
Qed.

Lemma count_nodes_eq (n : RadixNode) :
  forall a b,
    count_nodes n (a, b)
    = (((a + Z.of_nat (tree_nodes n)) mod size_t_modulus)%Z,
       ((b + Z.of_nat (tree_key_bytes n)) mod size_t_modulus)%Z).
Proof.
  induction n as [k e pc cs IH] using RadixNode_ind; intros a b.
  cbn [count_nodes tree_nodes tree_key_bytes fst snd].
  unfold size_t_inc, size_t_add.
  replace (a + Z.of_nat (S (list_sum (map (fun p => tree_nodes (snd p)) cs))))%Z
    with ((a + 1) + Z.of_nat (list_sum (map (fun p => tree_nodes (snd p)) cs)))%Z
    by lia.
  replace (b + Z.of_nat (length k
             + list_sum (map (fun p => tree_key_bytes (snd p)) cs)))%Z
    with ((b + Z.of_nat (length k))
          + Z.of_nat (list_sum (map (fun p => tree_key_bytes (snd p)) cs)))%Z
    by lia.
  generalize (a + 1)%Z (b + Z.of_nat (length k))%Z; clear a b.
  induction IH as [|p cs Hp _ IHcs]; intros a b.
  - cbn [fold_left map list_sum]; rewrite !Z.add_0_r; reflexivity.
  - cbn [fold_left map list_sum]; rewrite Hp.
    rewrite !Zplus_mod_idemp_l, IHcs, !list_sum_cons.
    f_equal; f_equal; lia.
Qed.

Lemma calculate_memory_recursive_eq (sizeof_node : Z) (n : RadixNode) :
  calculate_memory_recursive sizeof_node n
  = ((Z.of_nat (tree_nodes n) * sizeof_node + Z.of_nat (tree_key_bytes n))
     mod size_t_modulus)%Z.
Proof.
  induction n as [k e pc cs IH] using RadixNode_ind.
  cbn [calculate_memory_recursive tree_nodes tree_key_bytes].
  unfold size_t_add.
  replace (Z.of_nat (S (list_sum (map (fun p => tree_nodes (snd p)) cs)))
           * sizeof_node
           + Z.of_nat (length k
               + list_sum (map (fun p => tree_key_bytes (snd p)) cs)))%Z
    with ((sizeof_node + Z.of_nat (length k))
          + (Z.of_nat (list_sum (map (fun p => tree_nodes (snd p)) cs))
             * sizeof_node
             + Z.of_nat (list_sum (map (fun p => tree_key_bytes (snd p)) cs))))%Z
    by lia.
  generalize (sizeof_node + Z.of_nat (length k))%Z.
  induction IH as [|p cs Hp _ IHcs]; intros a.
  - cbn [fold_left map]; change (list_sum []) with 0; f_equal; lia.
  - cbn [fold_left map list_sum]; rewrite Hp.
    unfold size_t_add in *.
    rewrite Zplus_mod_idemp_l, Zplus_mod_idemp_r, IHcs, !list_sum_cons.
    f_equal; lia.
Qed.

(** X7: [remove] never releases a node: the keys of the nodes, and hence
    the node count and the string bytes that the traversal of
    [get_memory_stats] computes, are the same after [remove] as before,
    whatever the word and the state. *)
Theorem X7_remove_releases_no_node (t : RadixTrie) (w : list ascii)
    (st : Z * Z) :
  node_keys (root (snd (remove w t))) = node_keys (root t) /\
  count_nodes (root (snd (remove w t))) st = count_nodes (root t) st.
Proof.
  assert (E : node_keys (root (snd (remove w t))) = node_keys (root t)).
  { destruct (remove_spec w t) as [(_ & -> & _)|(p & node & _ & _ & _ & _ & ->)];
      [reflexivity|].
    cbn [snd root]; apply node_update_keys. }
  split; [exact E|].
  destruct st as [a b]; rewrite !count_nodes_eq.
  now rewrite !tree_nodes_keys, !tree_key_bytes_keys, E.
Qed.

Lemma tree_nodes_rekey (n : RadixNode) (a : ascii) (k : list ascii) :
  tree_nodes (set_parent_char a (set_key k n)) = tree_nodes n.
Proof. destruct n; reflexivity. Qed.

Lemma tree_key_bytes_rekey (n : RadixNode) (a : ascii) (k : list ascii) :
  tree_key_bytes (set_parent_char a (set_key k n)) + length (key n)
  = tree_key_bytes n + length k.
Proof.
  rewrite !tree_key_bytes_unfold; destruct n; cbn [children key set_key
    set_parent_char]; lia.
Qed.

Lemma insert_rel_nodes current rest count r c' :
  insert_rel current rest count r c' ->
  tree_nodes current <= tree_nodes r <= tree_nodes current + 2 /\
  tree_key_bytes current <= tree_key_bytes r
  <= tree_key_bytes current + length rest.
Proof.
  induction 1 as
    [current c rest l1 l2 count E Hall Hhd
    |current c rest l1 child l2 count E Hall Ek He
    |current c rest l1 child l2 count E Hall Ek He
    |current c rest l1 child l2 count rest' child' count' E Hall Ek Hne Hrel IH
    |current c rest l1 child l2 count kc krest E Hall Ek
    |current c rest l1 child l2 count common kc krest rc rrest E Hall Ek Er Hd];
    try lia;
    rewrite (tree_nodes_unfold current), (tree_key_bytes_unfold current),
      (tree_nodes_unfold (set_children _ _)),
      (tree_key_bytes_unfold (set_children _ _));
    cbn [children set_children key]; rewrite E, !map_app, !list_sum_app;
    cbn [map snd]; rewrite ?list_sum_cons.
  - cbn [tree_nodes tree_key_bytes map length];
      change (list_sum []) with 0; lia.
  - rewrite (tree_nodes_unfold (set_is_end _ _)),
      (tree_key_bytes_unfold (set_is_end _ _)),
      (tree_nodes_unfold child), (tree_key_bytes_unfold child).
    cbn [children set_is_end key]; lia.
  - assert (length rest' <= length (c :: rest))
      by (rewrite Ek, length_app; lia).
    lia.
  - pose proof (tree_key_bytes_rekey child kc (kc :: krest)) as Hb.
    rewrite Ek in Hb.
    cbn [tree_nodes tree_key_bytes map snd].
    rewrite ?list_sum_cons; change (list_sum []) with 0.
    rewrite tree_nodes_rekey. rewrite !length_app in Hb. cbn [length] in *.
    lia.
  - pose proof (tree_key_bytes_rekey child kc (kc :: krest)) as Hb.
    rewrite Ek in Hb. rewrite Er.
    destruct (char_ltb kc rc);
      cbn [tree_nodes tree_key_bytes map snd];
      rewrite ?list_sum_cons; change (list_sum []) with 0;
      rewrite tree_nodes_rekey; rewrite !length_app in *; cbn [length] in *;
      lia.
Qed.

(** X8: one [insert] adds at most two nodes and at most as many key bytes
    as the word is long, and it never takes any away. *)
Theorem X8_insert_adds_at_most_two_nodes (t : RadixTrie) (w : list ascii) :
  tree_nodes (root t) <= tree_nodes (root (insert w t))
  <= tree_nodes (root t) + 2 /\
  tree_key_bytes (root t) <= tree_key_bytes (root (insert w t))
  <= tree_key_bytes (root t) + length w.
Proof.
  destruct w as [|c w]; [rewrite insert_nil; lia|].
  destruct (@insert_spec (c :: w) t ltac:(discriminate))
    as (r & n & -> & Hrel).
  apply (insert_rel_nodes Hrel).
Qed.


(** X9: for a trie whose counter is not zero, [get_memory_stats] reports
    the number of nodes and the sum of the key lengths (modulo 2^64), the
    total [sizeof(trie) + nodes * sizeof(RadixNode) + key bytes], which is
    also what [calculate_memory_recursive] gives for the root plus the trie
    object, and as overhead the total without the key bytes. *)
Theorem X9_memory_stats_account (sizeof_trie sizeof_node : Z)
    (t : RadixTrie) :
  empty t = false ->
  let s := get_memory_stats sizeof_trie sizeof_node t in
  let nodes := Z.of_nat (tree_nodes (root t)) in
  let bytes := Z.of_nat (tree_key_bytes (root t)) in
  node_count s = (nodes mod size_t_modulus)%Z /\
  string_bytes s = (bytes mod size_t_modulus)%Z /\
  total_bytes s
  = ((sizeof_trie + nodes * sizeof_node + bytes) mod size_t_modulus)%Z /\
  total_bytes s
  = size_t_add sizeof_trie (calculate_memory_recursive sizeof_node (root t)) /\
  overhead_bytes s
  = ((sizeof_trie + nodes * sizeof_node) mod size_t_modulus)%Z.
Proof.
  intros He s nodes bytes; subst s.
  unfold get_memory_stats; rewrite He, count_nodes_eq.
  cbn [node_count string_bytes total_bytes overhead_bytes].
  rewrite calculate_memory_recursive_eq.
  fold nodes bytes; unfold size_t_add.
  rewrite !Z.add_0_l.
  assert (Etotal :
    (((sizeof_trie + (nodes mod size_t_modulus * sizeof_node)
         mod size_t_modulus) mod size_t_modulus
      + bytes mod size_t_modulus) mod size_t_modulus
     = (sizeof_trie + nodes * sizeof_node + bytes) mod size_t_modulus)%Z).
  { rewrite Zmult_mod_idemp_l, Zplus_mod_idemp_r.
    rewrite Zplus_mod_idemp_r, Zplus_mod_idemp_l; reflexivity. }
  rewrite Etotal.
  repeat split.
  - rewrite Zplus_mod_idemp_r; f_equal; lia.
  - rewrite Zminus_mod_idemp_l, Zminus_mod_idemp_r; f_equal; lia.
Qed.

Lemma branching_nodes_bound (n : RadixNode) :
  every_node branching_node n -> tree_nodes n + 1 <= 2 * count_end n.
Proof.
  induction n as [k e pc cs IH] using RadixNode_ind; intros H.
  rewrite every_node_unfold in H; destruct H as [Hb Hcs].
  cbn [children] in Hcs.
  assert (Hsum :
    list_sum (map (fun p => tree_nodes (snd p)) cs) + length cs
    <= 2 * list_sum (map (fun p => count_end (snd p)) cs)).
  { clear Hb; induction IH as [|p cs Hp _ IHcs]; [simpl; lia|].
    inversion Hcs as [|? ? H1 H2]; subst.
    cbn [map length]; rewrite !list_sum_cons.
    specialize (Hp H1); specialize (IHcs H2); lia. }
  rewrite tree_nodes_unfold, count_end_unfold; cbn [children is_end].
  destruct e; [lia|].
  unfold branching_node in Hb; cbn [is_end children] in Hb.
  specialize (Hb eq_refl); lia.
Qed.

Lemma branching_bytes_bound (n : RadixNode) :
  every_node branching_node n ->
  forall pre,
    tree_key_bytes n + length pre
    <= list_sum (map (@length ascii) (words_of n pre)).
Proof.
  induction n as [k e pc cs IH] using RadixNode_ind; intros H pre.
  rewrite every_node_unfold in H; destruct H as [Hb Hcs].
  cbn [children] in Hcs.
  assert (Hsum : forall pre',
    list_sum (map (fun p => tree_key_bytes (snd p)) cs)
    + length cs * length pre'
    <= list_sum (map (@length ascii)
                   (flat_map (fun p => words_of (snd p) pre') cs))).
  { clear Hb; intros pre'; induction IH as [|p cs Hp _ IHcs]; [simpl; lia|].
    inversion Hcs as [|? ? H1 H2]; subst.
    cbn [map length flat_map]; rewrite map_app, list_sum_app, !list_sum_cons.
    specialize (Hp H1 pre'); specialize (IHcs H2); lia. }
  rewrite tree_key_bytes_unfold, words_of_unfold; unfold words_below.
  cbn [children is_end key].
  rewrite map_app, list_sum_app.
  specialize (Hsum (pre ++ k)); rewrite length_app in Hsum.
  destruct e.
  - cbn [map]; rewrite list_sum_cons, length_app.
    change (list_sum []) with 0; nia.
  - unfold branching_node in Hb; cbn [is_end children] in Hb.
    specialize (Hb eq_refl); change (list_sum (map _ [])) with 0; nia.
Qed.

(** X10: in a trie built by [insert] alone the memory is linear in what is
    stored: there are at most twice as many nodes as stored words (one
    node, the root, when nothing is stored), and the keys of the nodes
    hold at most as many bytes as the stored words have in total. *)
Theorem X10_insert_only_memory_bound (t : RadixTrie) :
  insert_reachable t ->
  tree_nodes (root t) <= Nat.max 1 (2 * length (words_with_prefix [] t)) /\
  tree_key_bytes (root t)
  <= list_sum (map (@length ascii) (words_with_prefix [] t)).
Proof.
  intros H.
  pose proof (reachable_wf (insert_reachable_reachable H)) as Hwf.
  pose proof (insert_reachable_branching H) as Hb.
  rewrite words_with_prefix_nil, words_of_length.
  rewrite (words_of_root Hwf); unfold words_below.
  rewrite tree_nodes_unfold, tree_key_bytes_unfold, count_end_unfold.
  rewrite (wf_root_key Hwf), (wf_root_end Hwf).
  unfold every_non_root in Hb.
  induction (children (root t)) as [|p cs IHcs]; [simpl; lia|].
  inversion Hb as [|? ? H1 H2]; subst.
  specialize (IHcs H2).
  pose proof (branching_nodes_bound H1).
  pose proof (branching_bytes_bound H1 []).
  cbn [map flat_map length] in *.
  rewrite map_app, list_sum_app, !list_sum_cons in *.
  cbn [length] in *; lia.
Qed.


(** ** [starts_with] *)

Lemma app_eq_app_le {A} (l1 l2 l3 l4 : list A) :
  l1 ++ l2 = l3 ++ l4 -> length l3 <= length l1 ->
  exists m, l1 = l3 ++ m /\ l4 = m ++ l2.
Proof.
  revert l3; induction l1 as [|x l1 IH]; intros [|y l3] H Hlen;
    cbn [length] in Hlen; try lia.
  - exists []; auto.
  - exists (x :: l1); auto.
  - cbn [app] in H; injection H as -> H.
    destruct (IH l3 H ltac:(lia)) as (m & -> & ->).
    exists m; auto.
Qed.

Lemma starts_with_loop_total (fuel : nat) :
  forall current rest,
    node_height current < fuel -> starts_with_loop fuel current rest <> None.
Proof.
  induction fuel as [|fuel IH]; intros current rest Hfuel; [lia|].
  cbn [starts_with_loop].
  destruct rest as [|c rest]; [discriminate|].
  destruct (child_at current (find_child current c) c) as [child|] eqn:Hc;
    [|discriminate].
  destruct (find_child_hit Hc) as (l1 & l2 & E & _).
  assert (Hin : In (c, child) (children current)) by (rewrite E; apply in_elt).
  pose proof (node_height_child Hin) as Hh; simpl in Hh.
  destruct (length (c :: rest) <? length (key child)); [discriminate|].
  destruct (negb _); [discriminate|].
  apply IH; lia.
Qed.

(** A stored word below [current] that goes on with [rest] makes the loop
    answer true. *)
Lemma starts_with_loop_stored (fuel : nat) :
  forall current rest pre s,
    wf_node current -> node_height current < fuel ->
    In (pre ++ rest ++ s) (words_below current pre) ->
    starts_with_loop fuel current rest = Some true.
Proof.
  induction fuel as [|fuel IH]; intros current rest pre s Hwf Hfuel Hin;
    [lia|].
  destruct rest as [|c rest]; [reflexivity|].
  unfold words_below in Hin; apply in_flat_map in Hin.
  destruct Hin as ([k child] & Hchild & Hin); cbn [snd] in Hin.
  destruct (wf_node_child Hwf Hchild) as (Hwfc & Hk).
  destruct (words_of_prefix Hin) as (s' & Hs).
  apply app_inv_head in Hs.
  assert (k = c) by (destruct (key child); [discriminate|];
                     inversion Hk; inversion Hs; congruence); subst k.
  pose proof (proj1 (proj1 (proj1 (wf_node_unfold _) Hwf))) as Hsorted.
  pose proof (sorted_child_found Hsorted Hchild) as Hc.
  pose proof (node_height_child Hchild) as Hh; simpl in Hh.
  cbn [starts_with_loop]; rewrite Hc.
  destruct (Nat.ltb_spec (length (c :: rest)) (length (key child)))
    as [Hlt|Hge].
  - symmetry in Hs.
    destruct (app_eq_app_le Hs ltac:(lia)) as (m & Hm & _).
    rewrite Hm, firstn_app_length, bytes_eqb_refl; reflexivity.
  - destruct (app_eq_app_le Hs Hge) as (m & Hm & Hs').
    rewrite Hm, firstn_app_length, skipn_app_length, bytes_eqb_refl.
    cbn [negb].
    destruct m as [|c' m]; [destruct fuel; [lia | reflexivity]|].
    apply (IH child (c' :: m) (pre ++ key child) s Hwfc ltac:(lia)).
    rewrite Hm, words_of_unfold in Hin.
    apply in_app_or in Hin; destruct Hin as [Hin|Hin].
    + destruct (is_end child); [|destruct Hin].
      destruct Hin as [Hin|[]].
      rewrite <- (app_nil_r (pre ++ key child)) in Hin at 1.
      rewrite <- !app_assoc in Hin.
      apply app_inv_head, app_inv_head in Hin; discriminate.
    + rewrite <- !app_assoc in *; exact Hin.
Qed.

Lemma branching_live (n : RadixNode) :
  every_node branching_node n -> 0 < count_end n.
Proof. intros H; pose proof (branching_nodes_bound H); lia. Qed.

(** Where no node is dead, a true answer of the loop is owed to a stored
    word. *)
Lemma starts_with_loop_live (fuel : nat) :
  forall current rest pre,
    every_non_root branching_node current ->
    (rest = [] -> 0 < count_end current) ->
    starts_with_loop fuel current rest = Some true ->
    exists s, In (pre ++ key current ++ rest ++ s) (words_of current pre).
Proof.
  induction fuel as [|fuel IH]; intros current rest pre Hb Hlive Hrun;
    [discriminate|].
  destruct rest as [|c rest].
  - specialize (Hlive eq_refl).
    rewrite <- (words_of_length current pre) in Hlive.
    destruct (words_of current pre) as [|x l] eqn:E; [simpl in Hlive; lia|].
    assert (Hx : In x (words_of current pre)) by (rewrite E; left; auto).
    destruct (words_of_prefix Hx) as (s & ->).
    exists s; rewrite <- E; exact Hx.
  - cbn [starts_with_loop] in Hrun.
    destruct (child_at current (find_child current c) c) as [child|] eqn:Hc;
      [|discriminate].
    destruct (find_child_hit Hc) as (l1 & l2 & E & _).
    pose proof (every_non_root_child E Hb) as Hchild.
    pose proof (branching_live Hchild) as Hlc.
    assert (Hbelow : every_non_root branching_node child)
      by (rewrite every_node_unfold in Hchild; apply Hchild).
    assert (Hdown : forall x,
              In x (words_of child (pre ++ key current)) ->
              In x (words_of current pre)).
    { intros x Hx; rewrite words_of_unfold; apply in_or_app; right.
      unfold words_below; apply in_flat_map.
      exists (c, child); split; [rewrite E; apply in_elt | exact Hx]. }
    destruct (length (c :: rest) <? length (key child)).
    + assert (Hbe : bytes_eqb (c :: rest)
                      (firstn (length (c :: rest)) (key child)) = true)
        by (injection Hrun as Hrun; exact Hrun).
      clear Hrun; rename Hbe into Hrun; apply bytes_eqb_eq in Hrun.
      rewrite <- (words_of_length child (pre ++ key current)) in Hlc.
      destruct (words_of child (pre ++ key current)) as [|x l] eqn:Ex;
        [simpl in Hlc; lia|].
      assert (Hx : In x (words_of child (pre ++ key current)))
        by (rewrite Ex; left; auto).
      destruct (words_of_prefix Hx) as (s & Es).
      exists (skipn (length (c :: rest)) (key child) ++ s).
      apply Hdown; rewrite <- Ex; rewrite Es in Hx.
      rewrite <- (firstn_skipn (length (c :: rest)) (key child)) in Hx at 1.
      rewrite <- Hrun in Hx; rewrite <- !app_assoc in *; exact Hx.
    + destruct (bytes_eqb (firstn (length (key child)) (c :: rest))
                  (key child)) eqn:Heq; [|discriminate].
      cbn [negb] in Hrun; apply bytes_eqb_eq in Heq.
      destruct (IH child (skipn (length (key child)) (c :: rest))
                  (pre ++ key current) Hbelow (fun _ => Hlc) Hrun)
        as (s & Hs).
      exists s; apply Hdown.
      rewrite <- (firstn_skipn (length (key child)) (c :: rest)), Heq.
      rewrite <- !app_assoc in *; exact Hs.
Qed.

Lemma starts_with_stored (t : RadixTrie) (p w : list ascii) :
  reachable t -> p <> [] ->
  In w (words_with_prefix [] t) -> has_prefix p w = true ->
  starts_with p t = true.
Proof.
  intros H Hp Hin Hpre. pose proof (reachable_wf H) as Hwf.
  apply has_prefix_iff in Hpre; destruct Hpre as (s & ->).
  rewrite words_with_prefix_nil, (words_of_root Hwf) in Hin.
  unfold starts_with; destruct p as [|c p]; [congruence|].
  rewrite (@starts_with_loop_stored _ (root t) (c :: p) [] s);
    auto using wf_nodes.
Qed.

(** X11: in every reachable state, [starts_with p] is true for every
    non-empty [p] with which a stored word begins. *)
Theorem X11_starts_with_stored_prefix (t : RadixTrie) (p w : list ascii) :
  reachable t -> p <> [] ->
  In w (words_with_prefix [] t) -> has_prefix p w = true ->
  starts_with p t = true.
Proof. apply starts_with_stored. Qed.

(** X12: in a trie built by [insert] alone, [starts_with p] on a non-empty
    [p] is true exactly when [words_with_prefix p] lists a word. *)
Theorem X12_starts_with_iff_insert_only (t : RadixTrie) (p : list ascii) :
  insert_reachable t -> p <> [] ->
  (starts_with p t = true <-> words_with_prefix p t <> []).
Proof.
  intros H Hp.
  pose proof (insert_reachable_reachable H) as Hr.
  pose proof (reachable_wf Hr) as Hwf.
  rewrite (words_with_prefix_filter p Hwf).
  split.
  - unfold starts_with; destruct p as [|c p]; [congruence|].
    destruct (starts_with_loop _ _ _) as [[|]|] eqn:Hrun; try discriminate.
    intros _.
    destruct (@starts_with_loop_live _ (root t) (c :: p) []
                (insert_reachable_branching H) ltac:(discriminate) Hrun)
      as (s & Hs).
    rewrite (wf_root_key Hwf) in Hs; cbn [app] in Hs.
    intros Hnil.
    assert (Hin : In ((c :: p) ++ s)
                    (filter (has_prefix (c :: p)) (words_with_prefix [] t))).
    { apply filter_In; split.
      - rewrite words_with_prefix_nil; exact Hs.
      - apply has_prefix_iff; eauto. }
    rewrite Hnil in Hin; destruct Hin.
  - intros Hne.
    destruct (filter (has_prefix p) (words_with_prefix [] t)) as [|x l] eqn:E;
      [congruence|].
    assert (Hx : In x (filter (has_prefix p) (words_with_prefix [] t)))
      by (rewrite E; left; auto).
    apply filter_In in Hx; destruct Hx as [Hx1 Hx2].
    apply (starts_with_stored Hr Hp Hx1 Hx2).
Qed.

Lemma lower_bound_shape (cs : ChildVec) (c : ascii) :
  lower_bound (map (fun p => (fst p, shape_of (snd p))) cs) c
  = lower_bound cs c.
Proof.
  induction cs as [|[k n] cs IH]; [reflexivity|].
  cbn [map lower_bound fst snd]; rewrite IH; reflexivity.
Qed.

Lemma shape_of_key (n : RadixNode) : key (shape_of n) = key n.
Proof. destruct n; reflexivity. Qed.

Lemma shape_of_children (n : RadixNode) :
  children (shape_of n)
  = map (fun p => (fst p, shape_of (snd p))) (children n).
Proof. destruct n; reflexivity. Qed.

Lemma node_height_shape (n : RadixNode) :
  node_height (shape_of n) = node_height n.
Proof.
  induction n as [k e pc cs IH] using RadixNode_ind.
  cbn [shape_of node_height].
  induction IH as [|p cs Hp _ IHcs]; [reflexivity|].
  cbn [map fold_right snd]; rewrite Hp, IHcs; reflexivity.
Qed.

(** The loop of [starts_with] never reads [is_end]. *)
Lemma starts_with_loop_shape (fuel : nat) :
  forall n rest,
    starts_with_loop fuel (shape_of n) rest = starts_with_loop fuel n rest.
Proof.
  induction fuel as [|fuel IH]; intros n rest; [reflexivity|].
  cbn [starts_with_loop].
  destruct rest as [|c rest]; [reflexivity|].
  unfold child_at, find_child.
  rewrite shape_of_children, lower_bound_shape, nth_error_map.
  destruct (nth_error (children n) (lower_bound (children n) c))
    as [[k child]|]; [|reflexivity].
  cbn [option_map fst snd].
  destruct (Ascii.eqb k c); [|reflexivity].
  rewrite shape_of_key, IH; reflexivity.
Qed.

Lemma shape_of_node_update (b : bool) (q : NodePtr) :
  forall n, shape_of (node_update (set_is_end b) q n) = shape_of n.
Proof.
  induction q as [|i q IH]; intros n; [destruct n; reflexivity|].
  cbn [node_update].
  destruct (nth_error (children n) i) as [[k c]|] eqn:Hnth; [|reflexivity].
  destruct (nth_error_split _ _ Hnth) as (l1 & l2 & E & Hlen).
  rewrite <- Hlen, E, vec_set_middle.
  destruct n as [kn e pc cs]; cbn [children set_children key is_end
                                    parent_char shape_of] in *.
  subst cs; rewrite !map_app; cbn [map fst snd]; rewrite IH.
  reflexivity.
Qed.

(** X13: [remove] does not change what [starts_with] answers on any
    non-empty prefix, whatever the state and the word removed: the nodes of
    a removed word stay in the tree and [starts_with] does not look at
    [is_end]. *)
Theorem X13_remove_keeps_starts_with (t : RadixTrie) (w p : list ascii) :
  p <> [] -> starts_with p (snd (remove w t)) = starts_with p t.
Proof.
  intros Hp.
  destruct (remove_spec w t) as [(_ & -> & _)|(q & node & _ & _ & _ & _ & ->)];
    [reflexivity|].
  cbn [snd]; unfold starts_with; destruct p as [|c p]; [congruence|].
  cbn [root].
  rewrite <- (node_height_shape (node_update _ _ _)),
    <- (starts_with_loop_shape _ (node_update _ _ _)),
    shape_of_node_update, node_height_shape, starts_with_loop_shape.
  reflexivity.
Qed.


(** ** The helpers of [insert] *)

(** X14: [common_prefix_length s1 s2] is the length of the longest common
    prefix: the two strings agree on that many bytes, and on no more. *)
Theorem X14_common_prefix_length_longest (s1 s2 : list ascii) :
  let n := common_prefix_length s1 s2 in
  n <= length s1 /\ n <= length s2 /\
  firstn n s1 = firstn n s2 /\
  forall m, m <= length s1 -> m <= length s2 ->
            firstn m s1 = firstn m s2 -> m <= n.
Proof.
  revert s2; induction s1 as [|a s1 IH]; intros [|b s2];
    cbn [common_prefix_length length]; repeat split; try lia; auto.
  - destruct (Ascii.eqb a b); cbn [length]; [|lia].
    specialize (IH s2); cbn zeta in IH; lia.
  - destruct (Ascii.eqb a b); cbn [length]; [|lia].
    specialize (IH s2); cbn zeta in IH; lia.
  - destruct (Ascii.eqb_spec a b) as [->|]; [|reflexivity].
    cbn [firstn]; f_equal; apply IH.
  - intros [|m] H1 H2 H; [lia|].
    cbn [firstn] in H; injection H as -> H.
    rewrite Ascii.eqb_refl.
    destruct (IH s2) as (_ & _ & _ & Hmax).
    specialize (Hmax m ltac:(lia) ltac:(lia) H); lia.
Qed.

(** X15: on a children vector sorted in [char] order, [find_child] with
    the test that follows it finds the child filed under [c] exactly when
    there is one; when there is none, a child put in at the position it
    returns leaves the vector sorted. *)
Theorem X15_find_child_on_sorted (current : RadixNode) (c : ascii) :
  sorted_by char_ltb current ->
  (forall child,
     child_at current (find_child current c) c = Some child <->
     In (c, child) (children current)) /\
  (child_at current (find_child current c) c = None ->
   forall node,
     sorted_by char_ltb
       (set_children
          (vec_insert (find_child current c) (c, node) (children current))
          current)).
Proof.
  intros Hs; split.
  - intros child; split.
    + intros Hc; destruct (find_child_hit Hc) as (l1 & l2 & E & _).
      rewrite E; apply in_elt.
    + apply sorted_child_found, Hs.
  - intros Hc node.
    destruct (find_child_miss Hc) as (l1 & l2 & E & Hlen & Hall & Hhd).
    unfold sorted_by in *; cbn [children set_children].
    rewrite <- Hlen, E, vec_insert_middle.
    rewrite E in Hs; rewrite map_app in *; cbn [map fst].
    apply sorted_insert_middle; auto.
    + rewrite Forall_map; exact Hall.
    + destruct l2 as [|[a n] l2]; simpl in *; auto.
Qed.

(** X16: [split_node] at a position strictly inside the key of the child
    filed under [c] keeps the node well formed and keeps every stored word
    in its place in the enumeration; it adds one node, the non-terminal
    intermediate node, which holds the first part of the key and has the
    old child as its only child. *)
Theorem X16_split_node_keeps_words (current child : RadixNode) (c : ascii)
    (common_len : nat) :
  wf_node current ->
  child_at current (find_child current c) c = Some child ->
  0 < common_len < length (key child) ->
  let r := split_node current c common_len (key child) in
  wf_node r /\
  (forall pre, words_of r pre = words_of current pre) /\
  tree_nodes r = S (tree_nodes current) /\
  exists inter old,
    child_at r (find_child r c) c = Some inter /\
    key inter = firstn common_len (key child) /\
    is_end inter = false /\
    map snd (children inter) = [old] /\
    key old = skipn common_len (key child) /\
    is_end old = is_end child /\ children old = children child.
Proof.
  intros Hwf Hc Hlen r.
  destruct (find_child_hit Hc) as (l1 & l2 & E & _ & Hall).
  assert (Hk : key child
               = firstn common_len (key child)
                 ++ skipn common_len (key child))
    by (symmetry; apply firstn_skipn).
  assert (Hcl : length (firstn common_len (key child)) = common_len)
    by (apply firstn_length_le; lia).
  destruct (skipn common_len (key child)) as [|kc krest] eqn:Hskip.
  { apply (f_equal (@length ascii)) in Hskip.
    rewrite length_skipn in Hskip; cbn [length] in Hskip; lia. }
  remember (firstn common_len (key child)) as common eqn:Hcommon.
  assert (Er : r = set_children
                     (l1 ++ (c, mkNode common false c
                                  [(kc, set_parent_char kc
                                          (set_key (kc :: krest) child))])
                         :: l2) current).
  { subst r; rewrite <- Hcl; apply split_node_eq; assumption. }
  rewrite Er; clear Er r.
  assert (Hin : In (c, child) (children current))
    by (rewrite E; apply in_elt).
  destruct (wf_node_child Hwf Hin) as (Hwfc & Hhdc).
  assert (Hhd : hd_error common = Some c).
  { rewrite Hk in Hhdc; clear Hk Hcommon.
    destruct common; [simpl in Hcl; lia | exact Hhdc]. }
  split; [|split; [|split]].
  - rewrite wf_node_unfold in Hwf |- *.
    unfold sorted_by, keyed_children in Hwf |- *.
    cbn [children set_children] in Hwf |- *; rewrite E in Hwf.
    destruct Hwf as [[Hs Hkc] Hch].
    repeat split.
    + rewrite (map_fst_middle _ _ _ _ child); assumption.
    + rewrite Forall_app in *; destruct Hkc as [? Hk2]; split; auto.
      inversion Hk2; subst; constructor; auto.
    + rewrite Forall_app in *; destruct Hch as [? Hc2]; split; auto.
      inversion Hc2 as [|? ? Hc3 Hc4]; subst; constructor; auto.
      cbn [snd] in *.
      rewrite wf_node_unfold in *; unfold sorted_by, keyed_children in *.
      cbn [children set_parent_char set_key map fst snd key].
      repeat split.
      * repeat constructor.
      * repeat constructor.
      * constructor; [|constructor].
        rewrite wf_node_unfold; exact Hc3.
  - intros pre.
    rewrite (words_of_unfold (set_children _ _)), (words_of_unfold current).
    cbn [is_end key set_children]; f_equal.
    rewrite words_below_middle, (words_below_split _ E).
    f_equal; f_equal.
    cbn [words_of flat_map]; rewrite app_nil_r; cbn [app snd].
    apply words_of_rekey; exact Hk.
  - rewrite (tree_nodes_unfold (set_children _ _)), (tree_nodes_unfold current).
    cbn [children set_children]; rewrite E, !map_app, !list_sum_app.
    cbn [map snd]; rewrite !list_sum_cons.
    cbn [tree_nodes map snd]; rewrite list_sum_cons, tree_nodes_rekey.
    change (list_sum []) with 0; lia.
  - exists (mkNode common false c
              [(kc, set_parent_char kc (set_key (kc :: krest) child))]),
      (set_parent_char kc (set_key (kc :: krest) child)).
    repeat split.
    unfold child_at, find_child; cbn [children set_children].
    rewrite (lower_bound_middle _ _ Hall), nth_error_middle, Ascii.eqb_refl.
    reflexivity.
Qed.


(** ** Analytics *)

Lemma min_element_spec (xs : list Z) (lo : Z) :
  min_element xs = Some lo -> In lo xs /\ Forall (fun x => (lo <= x)%Z) xs.
Proof.
  destruct xs as [|x xs]; [discriminate|].
  cbn [min_element]; intros [= <-].
  assert (H : forall a,
            (fold_left Z.min xs a = a \/ In (fold_left Z.min xs a) xs) /\
            (fold_left Z.min xs a <= a)%Z /\
            Forall (fun y => (fold_left Z.min xs a <= y)%Z) xs).
  { induction xs as [|y xs IH]; intros a; cbn [fold_left].
    - repeat split; [auto | lia | constructor].
    - destruct (IH (Z.min a y)) as (H1 & H2 & H3).
      repeat split.
      + destruct H1 as [H1|H1]; [|right; right; exact H1].
        rewrite H1; destruct (Z.min_spec a y) as [[_ ->]|[_ ->]]; auto.
        right; left; reflexivity.
      + lia.
      + constructor; [lia | exact H3]. }
  destruct (H x) as (H1 & H2 & H3).
  split; [destruct H1 as [->|H1]; [left; auto | right; exact H1]|].
  constructor; assumption.
Qed.

Lemma max_element_spec (xs : list Z) (hi : Z) :
  max_element xs = Some hi -> In hi xs /\ Forall (fun x => (x <= hi)%Z) xs.
Proof.
  destruct xs as [|x xs]; [discriminate|].
  cbn [max_element]; intros [= <-].
  assert (H : forall a,
            (fold_left Z.max xs a = a \/ In (fold_left Z.max xs a) xs) /\
            (a <= fold_left Z.max xs a)%Z /\
            Forall (fun y => (y <= fold_left Z.max xs a)%Z) xs).
  { induction xs as [|y xs IH]; intros a; cbn [fold_left].
    - repeat split; [auto | lia | constructor].
    - destruct (IH (Z.max a y)) as (H1 & H2 & H3).
      repeat split.
      + destruct H1 as [H1|H1]; [|right; right; exact H1].
        rewrite H1; destruct (Z.max_spec a y) as [[_ ->]|[_ ->]]; auto.
        right; left; reflexivity.
      + lia.
      + constructor; [lia | exact H3]. }
  destruct (H x) as (H1 & H2 & H3).
  split; [destruct H1 as [->|H1]; [left; auto | right; exact H1]|].
  constructor; assumption.
Qed.

Lemma heights_children (d : Z) (pre : list ascii)
    (Q : Z -> list ascii -> Prop) (cs : ChildVec) :
  Forall (fun p => forall res, exists hs,
            calculate_heights_recursive (snd p) d res = res ++ hs /\
            Forall2 Q hs (words_of (snd p) pre)) cs ->
  forall res, exists hs,
    fold_left (fun hs p => calculate_heights_recursive (snd p) d hs) cs res
    = res ++ hs /\
    Forall2 Q hs (flat_map (fun p => words_of (snd p) pre) cs).
Proof.
  induction 1 as [|p cs Hp _ IH]; intros res; cbn [fold_left flat_map].
  - exists []; rewrite app_nil_r; split; [reflexivity | constructor].
  - destruct (Hp res) as (hs1 & -> & H1).
    destruct (IH (res ++ hs1)) as (hs2 & -> & H2).
    exists (hs1 ++ hs2); rewrite app_assoc; split; [reflexivity|].
    apply Forall2_app; assumption.
Qed.

Lemma heights_spec (n : RadixNode) :
  wf_node n ->
  forall d res pre, exists hs,
    calculate_heights_recursive n d res = res ++ hs /\
    Forall2 (depth_ok d (pre ++ key n)) hs (words_of n pre).
Proof.
  induction n as [k e pc cs IH] using RadixNode_ind; intros Hwf d res pre.
  assert (Hcs : Forall (fun p => forall res, exists hs,
              calculate_heights_recursive (snd p) (d + 1) res = res ++ hs /\
              Forall2 (depth_ok d (pre ++ k)) hs
                (words_of (snd p) (pre ++ k))) cs).
  { rewrite Forall_forall in *; intros [a child] Hin res'.
    destruct (@wf_node_child _ a child Hwf Hin) as (Hwfc & Hk).
    destruct (IH _ Hin Hwfc (d + 1)%Z res' (pre ++ k)) as (hs & E & H).
    exists hs; split; [exact E|].
    eapply Forall2_impl; [|exact H].
    cbn [snd]; intros h w [H1 H2]; unfold depth_ok.
    rewrite length_app in H2.
    destruct (key child); [discriminate|]; cbn [length] in H2; lia. }
  cbn [calculate_heights_recursive words_of key].
  destruct (heights_children Hcs (if e then res ++ [d] else res))
    as (hs & E & H).
  rewrite E; destruct e.
  - exists (d :: hs); rewrite <- app_assoc; split; [reflexivity|].
    cbn [app]; constructor; [|exact H].
    unfold depth_ok; lia.
  - exists hs; split; [reflexivity | exact H].
Qed.

(** X17: for a reachable trie whose counter is not zero, [get_height_stats]
    returns a result; its list of heights has one entry per stored word,
    in the order of the enumeration, each at least 1 and at most the
    length of its word; the minimum and the maximum are entries of the
    list and bound it. *)
Theorem X17_heights_per_word (bucket_order : FreqMap -> FreqMap)
    (t : RadixTrie) :
  reachable t -> empty t = false ->
  exists s,
    get_height_stats bucket_order t = Some s /\
    Forall2 (fun h w => (1 <= h <= Z.of_nat (length w))%Z)
      (all_heights s) (words_with_prefix [] t) /\
    In (min_height s) (all_heights s) /\
    In (max_height s) (all_heights s) /\
    Forall (fun h => (min_height s <= h <= max_height s)%Z) (all_heights s).
Proof.
  intros Hr He; pose proof (reachable_wf Hr) as Hwf.
  assert (Hn : count_end (root t) <> 0).
  { intros E; unfold empty in He; rewrite (wf_count Hwf), E in He.
    discriminate. }
  unfold get_height_stats; rewrite He.
  pose proof (calculate_heights_length (root t) 0 []) as Hh.
  destruct (heights_spec (wf_nodes Hwf) 0%Z [] []) as (hs & E & H).
  rewrite E in *; cbn [app length] in *.
  destruct (min_element hs) as [lo|] eqn:Elo;
    [|destruct hs; [simpl in Hh; lia | discriminate]].
  destruct (max_element hs) as [hi|] eqn:Ehi;
    [|destruct hs; [simpl in Hh; lia | discriminate]].
  destruct (min_element_spec Elo) as [Hlo1 Hlo2].
  destruct (max_element_spec Ehi) as [Hhi1 Hhi2].
  eexists; split; [reflexivity|].
  cbn [all_heights min_height max_height].
  repeat split; auto.
  - rewrite words_with_prefix_nil, (words_of_root Hwf).
    rewrite words_of_unfold, (wf_root_end Hwf), (wf_root_key Hwf) in H.
    cbn [app] in H.
    assert (Hch : Forall (fun p => forall res, exists hs,
              calculate_heights_recursive (snd p) 1 res = res ++ hs /\
              Forall2 (fun h w => (1 <= h <= Z.of_nat (length w))%Z) hs
                (words_of (snd p) [])) (children (root t))).
    { rewrite Forall_forall; intros [a child] Hin res'.
      destruct (@wf_node_child _ a child (wf_nodes Hwf) Hin) as (Hwfc & Hk).
      destruct (heights_spec Hwfc 1%Z res' []) as (hs' & E' & H').
      exists hs'; split; [exact E'|].
      eapply Forall2_impl; [|exact H'].
      cbn [snd app]; intros h w [H1 H2].
      destruct (key child); [discriminate|]; cbn [length] in H2; lia. }
    destruct (heights_children Hch []) as (hs' & E' & H').
    assert (hs' = hs); [|subst hs'; exact H'].
    pose proof (wf_root_end Hwf) as Hre.
    destruct (root t) as [k e pc cs]; cbn [children is_end] in *.
    subst e; cbn [calculate_heights_recursive Z.add] in E.
    cbn [app] in E'; congruence.
  - rewrite Forall_forall in *; intros h Hin.
    specialize (Hlo2 h Hin); specialize (Hhi2 h Hin); lia.
Qed.









(** ** Patterns *)

Lemma glob_literal (p : list ascii) :
  literal p -> forall w, glob p w <-> w = p.
Proof.
  induction 1 as [|c p [H1 H2] Hp IH]; intros w; split.
  - apply glob_nil_inv.
  - intros ->; constructor.
  - intros H; inversion H; subst; try congruence.
    f_equal; apply IH; assumption.
  - intros ->; apply glob_lit; auto.
    apply IH; reflexivity.
Qed.

Lemma filter_single (f : list ascii -> bool) (p : list ascii)
    (l : list (list ascii)) :
  NoDup l -> (forall w, f w = true <-> w = p) ->
  (In p l -> filter f l = [p]) /\ (~ In p l -> filter f l = []).
Proof.
  intros Hnd Hf.
  assert (Hnone : forall l', ~ In p l' -> filter f l' = []).
  { intros l' Hp; apply filter_no_words; intros w Hw.
    destruct (f w) eqn:E; [|reflexivity].
    apply Hf in E; subst w; contradiction. }
  split; [|apply Hnone].
  induction Hnd as [|x l Hx Hnd IH]; intros Hin; [destruct Hin|].
  cbn [filter].
  destruct (f x) eqn:E.
  - apply Hf in E; subst x; rewrite (Hnone l Hx); reflexivity.
  - destruct Hin as [->|Hin]; [|apply IH, Hin].
    rewrite (proj2 (Hf p) eq_refl) in E; discriminate.
Qed.

(** X19: a pattern without wildcards is matched by itself only, so on a
    reachable trie [pattern_search] returns the pattern alone when
    [search] finds it, and nothing otherwise. *)
Theorem X19_literal_pattern_is_lookup (t : RadixTrie) (p : list ascii) :
  reachable t ->
  (Z.of_nat (count_end (root t)) < size_t_modulus)%Z ->
  literal p ->
  (forall w, matches_pattern w p = true <-> w = p) /\
  pattern_search p t = if search p t then [p] else [].
Proof.
  intros Hr Hb Hlit; pose proof (reachable_wf Hr) as Hwf.
  assert (Hm : forall w, matches_pattern w p = true <-> w = p)
    by (intros w; rewrite matches_pattern_iff; apply glob_literal, Hlit).
  split; [exact Hm|].
  rewrite (pattern_search_eq p Hwf Hb).
  assert (Hnd : NoDup (words_of (root t) []))
    by (apply sorted_NoDup, words_of_sorted, wf_nodes, Hwf).
  destruct (filter_single Hnd Hm) as [Hin Hout].
  destruct (search p t) eqn:E.
  - rewrite Hin; [reflexivity | apply search_iff; assumption].
  - rewrite Hout; [reflexivity|].
    intros H; apply (search_iff p Hwf) in H; congruence.
Qed.

Lemma unsigned_lex (a b : list ascii) :
  char_signed = false -> char_lex_ltb a b = string_ltb a b.
Proof.
  intros Hu; revert b; induction a as [|x a IH]; intros [|y b];
    cbn [char_lex_ltb string_ltb]; auto.
  unfold char_ltb, char_value; rewrite Hu; cbn [andb].
  destruct (Z.ltb_spec (byte_value x) (byte_value y)) as [H1|H1];
    [reflexivity|].
  destruct (Z.ltb_spec (byte_value y) (byte_value x)) as [H2|H2].
  - destruct (Ascii.eqb_spec x y) as [->|]; [lia | reflexivity].
  - assert (x = y) by (apply byte_value_inj; lia); subst y.
    rewrite Ascii.eqb_refl; apply IH.
Qed.

Lemma StronglySorted_filter {A} (R : A -> A -> Prop) (f : A -> bool)
    (l : list A) :
  StronglySorted R l -> StronglySorted R (filter f l).
Proof.
  induction 1 as [|x l Hs IH Hall]; cbn [filter]; [constructor|].
  destruct (f x); [|exact IH].
  constructor; [exact IH|].
  rewrite Forall_forall in *; intros y Hy.
  apply filter_In in Hy; apply Hall, Hy.
Qed.

Lemma std_sort_id (l : list (list ascii)) :
  StronglySorted string_lt l -> std_sort l = l.
Proof.
  induction 1 as [|x l Hs IH Hall]; [reflexivity|].
  unfold std_sort in *; cbn [fold_right]; rewrite IH.
  destruct l as [|y l]; [reflexivity|].
  inversion Hall as [|? ? Hxy _]; subst.
  cbn [sort_insert]; unfold string_lt in Hxy; rewrite Hxy; reflexivity.
Qed.

(** X20: where [char] is unsigned, the enumeration is already in the
    order of [std::sort], so on a reachable trie [pattern_search] returns
    the words of [words_with_prefix ""] that match, in that order. *)
Theorem X20_unsigned_char_sort_changes_nothing (t : RadixTrie)
    (p : list ascii) :
  char_signed = false ->
  reachable t ->
  (Z.of_nat (count_end (root t)) < size_t_modulus)%Z ->
  pattern_search p t
  = filter (fun w => matches_pattern w p) (words_with_prefix [] t).
Proof.
  intros Hu Hr Hb; pose proof (reachable_wf Hr) as Hwf.
  rewrite (pattern_search_eq p Hwf Hb), words_with_prefix_nil.
  apply std_sort_id, StronglySorted_filter.
  eapply StronglySorted_impl; [|apply words_of_sorted, wf_nodes, Hwf].
  intros a b Hab; unfold lex_lt, string_lt in *.
  now rewrite <- unsigned_lex.
Qed.


(** ** Batches and files *)

Lemma insert_each_words (ws : list (list ascii)) :
  forall t, wf_trie t ->
  forall x, In x (words_of (root (insert_each ws t)) []) <->
            (In x ws /\ x <> []) \/ In x (words_of (root t) []).
Proof.
  unfold insert_each.
  induction ws as [|w ws IH]; intros t Hwf x; cbn [fold_left In].
  - tauto.
  - rewrite (IH (insert w t) (wf_insert w Hwf)).
    destruct w as [|c w].
    + rewrite insert_nil; split; [tauto|].
      intros [[[<-|H] Hne]|H]; try tauto; congruence.
    + rewrite insert_words by (auto; discriminate).
      split; [|intros [[[<-|H] Hne]|H]; tauto].
      intros [H|[->|H]]; try tauto.
      left; split; [left; reflexivity | discriminate].
Qed.



Lemma InsertBatch_fold (words : list js_value) :
  forall n t,
    fold_left
      (fun st v =>
         match v with
         | JsString ((_ :: _) as word) =>
             (uint32_inc (fst st), insert word (snd st))
         | _ => st
         end)
      words ((n mod 2 ^ 32)%Z, t)
    = (((n + Z.of_nat (length (filter non_empty (js_strings words))))
        mod 2 ^ 32)%Z,
       insert_each (js_strings words) t).
Proof.
  induction words as [|v words IH]; intros n t;
    cbn [fold_left js_strings filter length].
  - rewrite Z.add_0_r; reflexivity.
  - destruct v as [[|c w]|]; cbn [js_strings filter non_empty length fst snd].
    + rewrite IH; unfold insert_each; cbn [fold_left].
      rewrite insert_nil; reflexivity.
    + unfold uint32_inc; rewrite Zplus_mod_idemp_l, IH.
      unfold insert_each; cbn [fold_left]; f_equal; f_equal; lia.
    + apply IH.
Qed.

(** X22: [InsertBatch] calls [insert] on the strings of the array in
    order, skipping the other elements; the number it returns is the
    number of non-empty strings in the array (modulo 2^32), whether or not
    they were new; on a reachable trie [search] afterwards finds exactly
    those strings and the words stored before. *)
Theorem X22_insert_batch (t : RadixTrie) (words : list js_value) :
  reachable t ->
  snd (InsertBatch words t) = insert_each (js_strings words) t /\
  fst (InsertBatch words t)
  = (Z.of_nat (length (filter non_empty (js_strings words))) mod 2 ^ 32)%Z /\
  forall x,
    search x (snd (InsertBatch words t)) = true <->
    (In x (js_strings words) /\ x <> []) \/ search x t = true.
Proof.
  intros Hr; pose proof (reachable_wf Hr) as Hwf.
  unfold InsertBatch.
  change 0%Z with (0 mod 2 ^ 32)%Z at 1 2 3.
  rewrite InsertBatch_fold; cbn [fst snd].
  repeat split; try (intros H; revert H);
    rewrite !search_iff by auto using wf_insert_each;
    rewrite (insert_each_words _ Hwf); tauto.
Qed.

Lemma remove_size (w : list ascii) (t : RadixTrie) :
  size (snd (remove w t))
  = if fst (remove w t) then size_t_dec (size t) else size t.
Proof.
  destruct (remove_spec w t) as [(-> & -> & _)|(p & node & _ & _ & _ & _ & ->)];
    reflexivity.
Qed.

Lemma RemoveBatch_spec (words : list js_value) :
  forall t, wf_trie t ->
    wf_trie (snd (RemoveBatch words t)) /\
    length (fst (RemoveBatch words t)) = length words /\
    size (snd (RemoveBatch words t))
    = ((size t
        - Z.of_nat (length (filter (fun b : bool => b)
                              (fst (RemoveBatch words t)))))
       mod size_t_modulus)%Z /\
    forall x,
      In x (words_of (root (snd (RemoveBatch words t))) []) <->
      In x (words_of (root t) []) /\ ~ In x (js_strings words).
Proof.
  induction words as [|v words IH]; intros t Hwf; cbn [RemoveBatch].
  - cbn [fst snd length filter js_strings In Z.of_nat].
    split; [exact Hwf|]. split; [reflexivity|]. split; [|tauto].
    rewrite Z.sub_0_r, Z.mod_small; [reflexivity|].
    apply word_count_range, Hwf.
  - destruct v as [w|].
    + pose proof (wf_remove w Hwf) as Hwf'.
      pose proof (remove_size w t) as Hsize.
      pose proof (remove_words w Hwf) as Hwords.
      destruct (remove w t) as [removed t'] eqn:Erem; cbn [fst snd] in *.
      destruct (IH t' Hwf') as (H1 & H2 & H3 & H4).
      destruct (RemoveBatch words t') as [results t''] eqn:Erest.
      cbn [fst snd length js_strings In filter] in *.
      split; [exact H1|]. split; [now rewrite H2|]. split.
      * rewrite H3, Hsize; destruct removed; cbn [length].
        -- unfold size_t_dec; rewrite Zminus_mod_idemp_l; f_equal; lia.
        -- reflexivity.
      * intros x; rewrite H4, Hwords; split.
        -- intros [[Hne Hin] Hout]; split; auto.
           intros [E|H]; [congruence | auto].
        -- intros [Hin Hout]; repeat split; auto.
    + destruct (IH t Hwf) as (H1 & H2 & H3 & H4).
      destruct (RemoveBatch words t) as [results t''] eqn:Erest.
      cbn [fst snd length js_strings filter] in *.
      split; [exact H1|]. split; [now rewrite H2|]. split; [exact H3|].
      exact H4.
Qed.

(** X23: [RemoveBatch] on a reachable trie returns one flag per element of
    the array; afterwards [search] finds exactly the words stored before
    that are not among the strings of the array, and [size()] has gone
    down by the number of true flags (modulo 2^64). *)
Theorem X23_remove_batch (t : RadixTrie) (words : list js_value) :
  reachable t ->
  let flags := fst (RemoveBatch words t) in
  let t' := snd (RemoveBatch words t) in
  length flags = length words /\
  size t'
  = ((size t - Z.of_nat (length (filter (fun b : bool => b) flags)))
     mod size_t_modulus)%Z /\
  forall x, search x t' = true <->
            search x t = true /\ ~ In x (js_strings words).
Proof.
  intros Hr flags t'; pose proof (reachable_wf Hr) as Hwf.
  destruct (RemoveBatch_spec words Hwf) as (H1 & H2 & H3 & H4).
  split; [exact H2|]. split; [exact H3|].
  intros x; subst t'; rewrite !search_iff by assumption; apply H4.
Qed.

Lemma records_from_app (a b : list ascii) (sep : ascii) :
  is_line_break sep = true ->
  forall cur,
    records_from (a ++ sep :: b) cur
    = records_from a cur ++ records_from b [].
Proof.
  intros Hsep; induction a as [|x a IH]; intros cur; cbn [app records_from].
  - rewrite Hsep; destruct cur; reflexivity.
  - destruct (is_line_break x); [|apply IH].
    destruct cur; rewrite IH; reflexivity.
Qed.

(** X24: ingesting a file and then a second one gives the same trie as
    ingesting the two in one file with a CR or LF between them, and the
    two returned counts add up (modulo 2^64) to the count returned for the
    one file; the buffer sizes do not matter as long as they are
    positive. *)
Theorem X24_bulk_insert_of_concatenation (t : RadixTrie)
    (a b : list ascii) (sep : ascii) (size_a size_b size_ab : nat) :
  0 < size_a -> 0 < size_b -> 0 < size_ab ->
  is_line_break sep = true ->
  let first := bulk_insert_from_file a size_a t in
  let second := bulk_insert_from_file b size_b (snd first) in
  bulk_insert_from_file (a ++ sep :: b) size_ab t
  = (size_t_add (fst first) (fst second), snd second).
Proof.
  intros Ha Hb Hab Hsep first second; subst first second.
  rewrite !bulk_insert_from_file_spec by assumption; cbn [fst snd].
  assert (E : trimmed_lines (a ++ sep :: b)
              = trimmed_lines a ++ trimmed_lines b).
  { unfold trimmed_lines.
    rewrite (records_from_app a b Hsep), map_app, filter_app; reflexivity. }
  rewrite E, length_app; unfold insert_each, size_t_add.
  rewrite fold_left_app, Nat2Z.inj_add, <- Zplus_mod; reflexivity.
Qed.


(** ** Further facts on [remove], trimming and building *)

(** X25: [cleanup_orphaned_nodes] changes nothing, whatever the word and
    the state: it only starts at a node whose [is_end] is set, and its loop
    stops at once on such a node. *)
Theorem X25_cleanup_changes_nothing (t : RadixTrie) (word : list ascii) :
  cleanup_orphaned_nodes word t = t.
Proof. apply cleanup_orphaned_nodes_noop. Qed.

(** X26: the trimming done on each line only takes white space off the
    two ends: the line is the trimmed view with white space before and
    after it, and trimming a second time changes nothing. *)
Theorem X26_trim_view_takes_off_white_space (s : list ascii) :
  (exists lead trail,
     s = lead ++ trim_view s ++ trail /\
     forallb isspace lead = true /\ forallb isspace trail = true) /\
  trim_view (trim_view s) = trim_view s.
Proof.
  assert (Hsplit : exists lead trail,
            s = lead ++ trim_view s ++ trail /\
            forallb isspace lead = true /\ forallb isspace trail = true).
  { unfold trim_view.
    destruct (drop_space_split (rev s)) as (l1 & E1 & H1).
    destruct (drop_space_split (rev (drop_space (rev s)))) as (l2 & E2 & H2).
    exists l2, (rev l1); repeat split; auto.
    - rewrite <- app_assoc, <- E2 || rewrite app_assoc, <- E2.
      rewrite <- rev_app_distr, <- E1, rev_involutive; reflexivity.
    - rewrite forallb_rev; exact H1. }
  split; [exact Hsplit|].
  pose proof (trim_view_ends s) as Hends.
  destruct (trim_view s) as [|c w] eqn:E; [reflexivity|].
  destruct Hends as [Hhd Hlast].
  unfold trim_view.
  assert (Hrev : drop_space (rev (c :: w)) = rev (c :: w)).
  { destruct (rev (c :: w)) as [|x r] eqn:Er.
    - apply (f_equal (@length _)) in Er; rewrite length_rev in Er.
      discriminate.
    - assert (x = last (c :: w) "a"%char).
      { rewrite <- (rev_involutive (c :: w)), Er.
        cbn [rev]; rewrite last_last; reflexivity. }
      subst x; cbn [drop_space]; rewrite Hlast; reflexivity. }
  rewrite Hrev, rev_involutive.
  cbn [drop_space]; rewrite Hhd; reflexivity.
Qed.

(** X27: a trie built from nothing by [insert] on each word of a list
    holds the distinct non-empty words of the list, each once: they are
    what [words_with_prefix ""] lists and what [search] finds, and
    [size()] is their number (modulo 2^64). *)
Theorem X27_built_trie_is_the_set_of_words (ws : list (list ascii)) :
  let t := insert_each ws new_trie in
  let distinct := nodup (list_eq_dec ascii_dec) (filter non_empty ws) in
  Permutation (words_with_prefix [] t) distinct /\
  (forall x, search x t = true <-> In x ws /\ x <> []) /\
  size t = (Z.of_nat (length distinct) mod size_t_modulus)%Z.
Proof.
  intros t distinct.
  assert (Hwf : wf_trie t) by (apply wf_insert_each, wf_new_trie).
  assert (Hin : forall x, In x (words_of (root t) []) <-> In x ws /\ x <> []).
  { intros x; subst t; rewrite (insert_each_words _ wf_new_trie).
    cbn [new_trie root default_node words_of flat_map app In]; tauto. }
  assert (Hperm : Permutation (words_of (root t) []) distinct).
  { apply NoDup_Permutation.
    - apply sorted_NoDup, words_of_sorted, wf_nodes, Hwf.
    - apply NoDup_nodup.
    - intros x; rewrite Hin; unfold distinct.
      rewrite nodup_In, filter_In.
      destruct x; cbn [non_empty]; split; intros [H1 H2]; split; auto;
        congruence. }
  split; [now rewrite words_with_prefix_nil|].
  split; [intros x; rewrite search_iff by assumption; apply Hin|].
  unfold size; rewrite (wf_count Hwf).
  rewrite <- (words_of_length (root t) []), (Permutation_length Hperm).
  reflexivity.
Qed.


(** ** The [parent_char] field *)

Lemma filed_leaf (k : list ascii) (e : bool) (c : ascii) :
  every_node filed_children (mkNode k e c []).
Proof. rewrite every_node_unfold; split; constructor. Qed.

Lemma filed_same_children (n m : RadixNode) :
  children m = children n ->
  every_node filed_children n -> every_node filed_children m.
Proof.
  rewrite !every_node_unfold; unfold filed_children.
  intros ->; auto.
Qed.

Lemma filed_middle (n : RadixNode) (l1 l2 : ChildVec) (c : ascii)
    (a b : RadixNode) :
  children n = l1 ++ (c, a) :: l2 ->
  every_node filed_children n ->
  parent_char b = c -> every_node filed_children b ->
  every_node filed_children (set_children (l1 ++ (c, b) :: l2) n).
Proof.
  intros E Hn Hpc Hb.
  rewrite every_node_unfold in Hn |- *; unfold filed_children in *.
  cbn [children set_children]; rewrite E in Hn.
  destruct Hn as [H1 H2]; rewrite !Forall_app in *.
  destruct H1 as [H1a H1b], H2 as [H2a H2b].
  inversion H1b; inversion H2b; subst.
  repeat split; auto.
Qed.

Lemma filed_child (n : RadixNode) (l1 l2 : ChildVec) (c : ascii)
    (a : RadixNode) :
  children n = l1 ++ (c, a) :: l2 ->
  every_node filed_children n ->
  parent_char a = c /\ every_node filed_children a.
Proof.
  intros E Hn.
  rewrite every_node_unfold in Hn; unfold filed_children in Hn.
  rewrite E in Hn; destruct Hn as [H1 H2]; rewrite !Forall_app in *.
  destruct H1 as [_ H1], H2 as [_ H2].
  inversion H1; inversion H2; subst; auto.
Qed.

Lemma insert_rel_filed current rest count r c' :
  insert_rel current rest count r c' ->
  every_node filed_children current -> every_node filed_children r.
Proof.
  induction 1 as
    [current c rest l1 l2 count E Hall Hhd
    |current c rest l1 child l2 count E Hall Ek He
    |current c rest l1 child l2 count E Hall Ek He
    |current c rest l1 child l2 count rest' child' count' E Hall Ek Hne Hrel IH
    |current c rest l1 child l2 count kc krest E Hall Ek
    |current c rest l1 child l2 count common kc krest rc rrest E Hall Ek Er Hd];
    intros Hn; auto;
    try (destruct (filed_child E Hn) as [Hpc Hchild]).
  - rewrite every_node_unfold in Hn |- *; unfold filed_children in *.
    cbn [children set_children]; rewrite E in Hn.
    destruct Hn as [H1 H2]; rewrite !Forall_app in *.
    destruct H1, H2; repeat split; auto.
    constructor; [apply filed_leaf | assumption].
  - apply (filed_middle E Hn); [exact Hpc|].
    apply (filed_same_children (n := child)); auto.
  - destruct (insert_rel_shape Hrel) as (_ & _ & Hp).
    apply (filed_middle E Hn); [congruence | apply IH, Hchild].
  - apply (filed_middle E Hn); [reflexivity|].
    rewrite every_node_unfold; unfold filed_children; cbn [children].
    split; constructor; auto.
    apply (filed_same_children (n := child)); auto.
  - apply (filed_middle E Hn); [reflexivity|].
    assert (Hold : every_node filed_children
                     (set_parent_char kc (set_key (kc :: krest) child)))
      by (apply (filed_same_children (n := child)); auto).
    rewrite every_node_unfold; unfold filed_children; cbn [children].
    destruct (char_ltb kc rc); split;
      repeat (constructor; auto using filed_leaf).
Qed.

Lemma node_update_filed (b : bool) (q : NodePtr) :
  forall n,
    every_node filed_children n ->
    every_node filed_children (node_update (set_is_end b) q n).
Proof.
  induction q as [|i q IH]; intros n Hn.
  - apply (filed_same_children (n := n)); auto.
  - cbn [node_update].
    destruct (nth_error (children n) i) as [[k c]|] eqn:Hnth; [|exact Hn].
    destruct (nth_error_split _ _ Hnth) as (l1 & l2 & E & Hlen).
    rewrite <- Hlen, E, vec_set_middle.
    destruct (filed_child E Hn) as [Hpc Hchild].
    apply (filed_middle E Hn); [|apply IH, Hchild].
    destruct q as [|j q]; [destruct c; exact Hpc|].
    destruct (@node_update_shape (set_is_end b) (j :: q) c ltac:(discriminate))
      as (_ & _ & ->); exact Hpc.
Qed.

(** X28: in every reachable state, each child records in [parent_char]
    the byte under which its parent files it, and that byte is the first
    byte of its key. *)
Theorem X28_parent_char_is_filing_byte (t : RadixTrie) :
  reachable t ->
  every_node
    (fun n => Forall (fun p => parent_char (snd p) = fst p /\
                               hd_error (key (snd p)) = Some (fst p))
                (children n))
    (root t).
Proof.
  intros Hr.
  assert (Hfiled : every_node filed_children (root t)).
  { assert (Hins : forall w t0, every_node filed_children (root t0) ->
                     every_node filed_children (root (insert w t0))).
    { intros [|c w] t0 H0; [exact H0|].
      destruct (@insert_spec (c :: w) t0 ltac:(discriminate))
        as (r & n & -> & Hrel).
      apply (insert_rel_filed Hrel H0). }
    induction Hr as [|w t _ IH|w t _ IH|t _ IH|input B t _ IH].
    - apply filed_leaf.
    - apply Hins, IH.
    - destruct (remove_spec w t)
        as [(_ & -> & _)|(p & node & _ & _ & _ & _ & ->)]; [exact IH|].
      cbn [snd root]; apply node_update_filed, IH.
    - apply filed_leaf.
    - destruct (bulk_insert_is_insert_each input B t) as (ws & ->).
      revert t IH; unfold insert_each.
      induction ws as [|w ws IHws]; intros t IH; [exact IH|].
      apply IHws, Hins, IH. }
  pose proof (wf_nodes (reachable_wf Hr)) as Hwf.
  unfold wf_node in Hwf.
  revert Hfiled Hwf; generalize (root t); clear; intros n.
  induction n as [k e pc cs IH] using RadixNode_ind; intros H1 H2.
  rewrite every_node_unfold in H1, H2 |- *.
  destruct H1 as [H1 H1c], H2 as [[_ H2] H2c].
  unfold filed_children, keyed_children in *; cbn [children] in *.
  split.
  - rewrite Forall_forall in *; intros p Hp; split; auto.
  - rewrite Forall_forall in *; intros p Hp; apply IH; auto.
Qed.


(** ** Round trip and the empty prefix *)

(** X29: taking a stored word out of a reachable trie and putting it back
    cannot be observed: [size()], the enumeration and the answers of
    [search] are those of the state before. *)
Theorem X29_remove_then_insert (t : RadixTrie) (w : list ascii) :
  reachable t -> search w t = true ->
  size (insert w (snd (remove w t))) = size t /\
  words_with_prefix [] (insert w (snd (remove w t)))
  = words_with_prefix [] t /\
  forall x, search x (insert w (snd (remove w t))) = search x t.
Proof.
  intros Hr Hs; pose proof (reachable_wf Hr) as Hwf.
  pose proof (wf_remove w Hwf) as Hwf1.
  pose proof (wf_insert w Hwf1) as Hwf2.
  assert (Hw : w <> []).
  { intros ->; apply (search_iff [] Hwf) in Hs.
    rewrite (words_of_root Hwf) in Hs.
    apply (@words_below_nonempty (root t) [] (wf_nodes Hwf)), Hs. }
  assert (Hsame : forall x,
            In x (words_of (root (insert w (snd (remove w t)))) []) <->
            In x (words_of (root t) [])).
  { intros x; rewrite (insert_words Hwf1 Hw), (remove_words w Hwf).
    apply (search_iff w Hwf) in Hs.
    destruct (list_eq_dec ascii_dec x w) as [->|]; tauto. }
  destruct (same_words_same_view Hwf2 Hwf Hsame) as [E1 E2].
  split; [exact E2|]. split.
  - now rewrite !words_with_prefix_nil.
  - intros x; apply search_words_eq; auto.
Qed.

(** X30: on a reachable trie that holds fewer than 2^64 words,
    [starts_with] on the empty prefix is true exactly when a word is
    stored. *)
Theorem X30_starts_with_empty_prefix (t : RadixTrie) :
  reachable t ->
  (Z.of_nat (count_end (root t)) < size_t_modulus)%Z ->
  (starts_with [] t = true <-> words_with_prefix [] t <> []).
Proof.
  intros Hr Hb; pose proof (reachable_wf Hr) as Hwf.
  rewrite words_with_prefix_nil; cbn [starts_with].
  pose proof (empty_iff_no_words Hwf Hb) as He.
  destruct (empty t); cbn [negb]; split; intros H; try congruence.
  - exfalso; apply H, He; reflexivity.
  - intros E; apply He in E; discriminate.
Qed.


End Platform.

(** * The scenarios of the specification, and concrete instances *)

(** Scenario 1: the empty trie. *)
Example scenario_empty :
  empty new_trie = true /\ size new_trie = 0%Z /\
  search true (str "x") new_trie = false /\
  words_with_prefix true [] new_trie = [].
Proof. repeat split. Qed.

(** Scenario 2: "hello", "help", "world". *)
Example scenario_hello_help_world :
  let t := trie_of true ["hello"; "help"; "world"]%string in
  size t = 3%Z /\
  words_with_prefix true (str "he") t = [str "hello"; str "help"] /\
  map (fun p => key (snd p)) (children (root t)) = [str "hel"; str "world"].
Proof. repeat split. Qed.

(** Scenario 3 as the code runs it: after removing "hello" the words are
    right, and the node "hel" keeps both of its children. *)
Example scenario_remove_hello :
  let t := snd (remove true (str "hello")
                  (trie_of true ["hello"; "help"; "world"]%string)) in
  search true (str "hello") t = false /\
  search true (str "help") t = true /\
  words_with_prefix true (str "he") t = [str "help"] /\
  node_keys (root t) = [[]; str "hel"; str "lo"; str "p"; str "world"].
Proof. repeat split. Qed.

(** Scenario 4: "a", "aa", "aaa", "aaaa". *)
Example scenario_chain :
  let t := trie_of true ["a"; "aa"; "aaa"; "aaaa"]%string in
  option_map all_heights (get_height_stats newest_first t)
  = Some [1; 2; 3; 4]%Z /\
  option_map length_distribution (get_word_metrics newest_first t)
  = Some [0; 1; 1; 1; 1]%Z.
Proof. repeat split. Qed.

(** Scenario 5: wildcard searches. *)
Example scenario_patterns :
  let t := trie_of true
             ["cat"; "car"; "card"; "care"; "careful"; "dog"]%string in
  pattern_search (str "ca*") t
  = [str "car"; str "card"; str "care"; str "careful"; str "cat"] /\
  pattern_search (str "c?r") t = [str "car"] /\
  pattern_search (str "*") t
  = [str "car"; str "card"; str "care"; str "careful"; str "cat"; str "dog"].
Proof. repeat split. Qed.

(** Scenario 6: the ingest with a buffer of 4 bytes. *)
Example scenario_ingest :
  let r := bulk_insert_from_file true scenario_file 4 new_trie in
  fst r = 4%Z /\
  words_with_prefix true [] (snd r)
  = [str "alpha"; str "beta"; str "delta"; str "gamma"].
Proof. repeat split. Qed.

(** ** Instances of the theorems *)

Lemma C10_empty_word_rejected_witness :
  reachable true (trie_of true ["a"]%string) /\
  search true [] (trie_of true ["a"]%string) = false /\
  fst (remove true [] (trie_of true ["a"]%string)) = false.
Proof.
  split; [apply trie_of_reachable|].
  apply (@C10_empty_word_rejected true), trie_of_reachable.
Defined.

Lemma C9_failed_remove_changes_nothing_witness :
  let t := trie_of true ["hello"; "help"]%string in
  reachable true t /\ fst (remove true (str "hel") t) = false /\
  snd (remove true (str "hel") t) = t.
Proof.
  intros t.
  split; [apply trie_of_reachable|].
  split; [reflexivity|].
  apply (@C9_failed_remove_changes_nothing true t (str "hel"));
    [apply trie_of_reachable | reflexivity].
Defined.

Lemma C5_insert_then_remove_witness :
  let t := trie_of true ["hello"; "world"]%string in
  let w := str "help" in
  reachable true t /\ w <> [] /\ search true w t = false /\
  fst (remove true w (insert true w t)) = true /\
  size (snd (remove true w (insert true w t))) = size t /\
  words_with_prefix true [] (snd (remove true w (insert true w t)))
  = words_with_prefix true [] t.
Proof.
  intros t w.
  split; [apply trie_of_reachable|].
  split; [discriminate|].
  split; [reflexivity|].
  apply (@C5_insert_then_remove true t w);
    [apply trie_of_reachable | discriminate | reflexivity].
Defined.

(** C5 as stated fails when the word is already stored: the second
    [insert] changes nothing and [remove] then takes the word away. *)
Lemma C5_counterexample :
  let t := trie_of true ["a"]%string in
  let w := str "a" in
  reachable true t /\ w <> [] /\
  size (snd (remove true w (insert true w t))) <> size t /\
  words_with_prefix true [] (snd (remove true w (insert true w t)))
  <> words_with_prefix true [] t.
Proof.
  intros t w.
  split; [apply trie_of_reachable|].
  repeat split; discriminate.
Qed.

Lemma C6_insert_idempotent_witness :
  let t := trie_of true ["hello"; "world"]%string in
  let w := str "help" in
  reachable true t /\ w <> [] /\
  insert true w (insert true w t) = insert true w t /\
  size (insert true w (insert true w t)) = size (insert true w t) /\
  (forall x, search true x (insert true w (insert true w t))
             = search true x (insert true w t)) /\
  (forall p, words_with_prefix true p (insert true w (insert true w t))
             = words_with_prefix true p (insert true w t)).
Proof.
  intros t w.
  split; [apply trie_of_reachable|].
  split; [discriminate|].
  apply (@C6_insert_idempotent true t w);
    [apply trie_of_reachable | discriminate].
Defined.

Lemma C8_children_in_char_order_witness :
  let t := trie_of true ["hello"; "help"; "world"]%string in
  reachable true t /\
  every_node
    (fun n => sorted_by (char_ltb true) n /\ NoDup (map fst (children n)))
    (root t) /\
  (forall p,
     words_with_prefix true p t
     = filter (has_prefix p) (words_with_prefix true [] t) /\
     StronglySorted (lex_lt true) (words_with_prefix true p t)) /\
  (true = false -> every_node (sorted_by byte_ltb) (root t)).
Proof.
  intros t.
  split; [apply trie_of_reachable|].
  apply (@C8_children_in_char_order true t), trie_of_reachable.
Defined.

(** C8 as stated fails where [char] is signed: the byte 0xE9 compares
    below the letter "a", so it is filed first, against the raw byte
    order. *)
Lemma C8_counterexample :
  let t := insert true ["233"%char] (insert true (str "a") new_trie) in
  reachable true t /\
  map fst (children (root t)) = ["233"%char; "a"%char] /\
  ~ every_node (sorted_by byte_ltb) (root t).
Proof.
  intros t.
  split; [apply reach_insert, reach_insert, reach_new|].
  split; [reflexivity|].
  intros H; apply every_node_unfold in H; destruct H as [H _].
  unfold sorted_by in H; cbn in H.
  inversion H as [|? ? _ Hall]; subst.
  inversion Hall as [|? ? Hlt _]; subst.
  discriminate Hlt.
Qed.

Lemma C1_compressed_after_inserts_witness :
  let t := trie_of true ["hello"; "help"; "world"]%string in
  reachable true t /\ insert_reachable true t /\
  every_non_root compressed_node (root t) /\
  incl (node_keys (root (snd (remove true (str "help") t))))
    (node_keys (root t)).
Proof.
  intros t.
  split; [apply trie_of_reachable|].
  split; [apply trie_of_insert_reachable|].
  destruct (@C1_compressed_after_inserts true t (str "help")
              (trie_of_reachable true _)) as [H1 H2].
  split; [apply H1, trie_of_insert_reachable | exact H2].
Defined.

(** C1 as stated fails: after "ab" and "abc" are inserted and "ab" is
    removed, the node "ab" is neither the root nor terminal and has the
    single child "c"; nothing merges the two. *)
Lemma C1_counterexample :
  let t := snd (remove true (str "ab") (trie_of true ["ab"; "abc"]%string)) in
  reachable true t /\
  node_keys (root t) = [[]; str "ab"; str "c"] /\
  ~ every_non_root compressed_node (root t).
Proof.
  intros t.
  split; [apply reach_remove, trie_of_reachable|].
  split; [reflexivity|].
  intros H; unfold every_non_root in H; cbn in H.
  inversion H as [|? ? Hnode _]; subst.
  destruct Hnode as [Hc _].
  apply Hc; reflexivity.
Qed.


Lemma C4_line_records_witness :
  0 < 4 /\
  let records := records_from scenario_file [] in
  let words := filter non_empty (map trim_view records) in
  split_at_breaks scenario_file records /\
  Forall2 trimmed_record records (map trim_view records) /\
  Forall (fun r => r <> [] /\
                   forallb (fun c => negb (is_line_break c)) r = true)
    records /\
  Forall (fun w => w <> [] /\ isspace (hd "a"%char w) = false /\
                   isspace (last w "a"%char) = false) words /\
  snd (bulk_insert_from_file true scenario_file 4 new_trie)
  = insert_each true words new_trie /\
  fst (bulk_insert_from_file true scenario_file 4 new_trie)
  = (Z.of_nat (length words) mod size_t_modulus)%Z.
Proof.
  split; [lia|].
  apply (@C4_line_records true scenario_file 4 new_trie); lia.
Defined.

Lemma C7_pattern_search_sorted_filter_witness :
  let t := trie_of true ["cat"; "car"; "card"; "dog"]%string in
  let pat := str "ca*" in
  reachable true t /\
  (Z.of_nat (count_end (root t)) < size_t_modulus)%Z /\
  pattern_search pat t =
    std_sort (filter (fun w => matches_pattern w pat)
                (words_with_prefix true [] t)) /\
  StronglySorted string_lt (pattern_search pat t) /\
  (forall w, In w (pattern_search pat t) <->
             In w (words_with_prefix true [] t) /\ glob pat w) /\
  pattern_search [] t = [] /\
  Permutation (pattern_search ["*"%char] t) (words_with_prefix true [] t).
Proof.
  intros t pat.
  split; [apply trie_of_reachable|].
  split; [reflexivity|].
  apply (@C7_pattern_search_sorted_filter true t pat);
    [apply trie_of_reachable | reflexivity].
Defined.



(** ** Instances of the further properties *)

Lemma X1_search_iff_listed_witness :
  let t := trie_of true ["hello"; "help"]%string in
  reachable true t /\
  (search true (str "help") t = true <->
   In (str "help") (words_with_prefix true [] t)).
Proof.
  intros t.
  split; [apply trie_of_reachable|].
  apply (@X1_search_iff_listed true t (str "help")), trie_of_reachable.
Defined.

Lemma X2_search_after_insert_witness :
  let t := trie_of true ["hello"; "world"]%string in
  let w := str "help" in
  reachable true t /\ w <> [] /\
  search true w (insert true w t) = true /\
  forall x, x <> w -> search true x (insert true w t) = search true x t.
Proof.
  intros t w.
  split; [apply trie_of_reachable|].
  split; [discriminate|].
  apply (@X2_search_after_insert true t w);
    [apply trie_of_reachable | discriminate].
Defined.

Lemma X3_search_after_remove_witness :
  let t := trie_of true ["hello"; "help"]%string in
  let w := str "help" in
  reachable true t /\
  fst (remove true w t) = search true w t /\
  search true w (snd (remove true w t)) = false /\
  forall x, x <> w -> search true x (snd (remove true w t)) = search true x t.
Proof.
  intros t w.
  split; [apply trie_of_reachable|].
  apply (@X3_search_after_remove true t w), trie_of_reachable.
Defined.

Lemma X4_size_counts_listed_words_witness :
  let t := trie_of true ["hello"; "help"; "hello"]%string in
  reachable true t /\
  size t
  = (Z.of_nat (length (words_with_prefix true [] t)) mod size_t_modulus)%Z.
Proof.
  intros t.
  split; [apply trie_of_reachable|].
  apply (@X4_size_counts_listed_words true t), trie_of_reachable.
Defined.

Lemma X5_size_after_insert_and_remove_witness :
  let t := trie_of true ["hello"; "world"]%string in
  let w := str "help" in
  reachable true t /\ w <> [] /\
  size (insert true w t)
  = (if search true w t then size t else size_t_inc (size t)) /\
  size (snd (remove true w t))
  = (if search true w t then size_t_dec (size t) else size t).
Proof.
  intros t w.
  split; [apply trie_of_reachable|].
  split; [discriminate|].
  apply (@X5_size_after_insert_and_remove true t w);
    [apply trie_of_reachable | discriminate].
Defined.

Lemma X6_inserts_commute_witness :
  let t := trie_of true ["hello"]%string in
  let a := str "help" in
  let b := str "he" in
  reachable true t /\
  size (insert true a (insert true b t))
  = size (insert true b (insert true a t)) /\
  words_with_prefix true [] (insert true a (insert true b t))
  = words_with_prefix true [] (insert true b (insert true a t)) /\
  forall x, search true x (insert true a (insert true b t))
            = search true x (insert true b (insert true a t)).
Proof.
  intros t a b.
  split; [apply trie_of_reachable|].
  apply (@X6_inserts_commute true t a b), trie_of_reachable.
Defined.

Lemma X9_memory_stats_account_witness :
  let t := trie_of true ["hello"; "help"; "world"]%string in
  empty t = false /\
  let s := get_memory_stats 40 64 t in
  let nodes := Z.of_nat (tree_nodes (root t)) in
  let bytes := Z.of_nat (tree_key_bytes (root t)) in
  node_count s = (nodes mod size_t_modulus)%Z /\
  string_bytes s = (bytes mod size_t_modulus)%Z /\
  total_bytes s = ((40 + nodes * 64 + bytes) mod size_t_modulus)%Z /\
  total_bytes s
  = size_t_add 40 (calculate_memory_recursive 64 (root t)) /\
  overhead_bytes s = ((40 + nodes * 64) mod size_t_modulus)%Z.
Proof.
  intros t.
  split; [reflexivity|].
  apply (@X9_memory_stats_account 40 64 t); reflexivity.
Defined.

Lemma X10_insert_only_memory_bound_witness :
  let t := trie_of true ["hello"; "help"; "world"]%string in
  insert_reachable true t /\
  tree_nodes (root t)
  <= Nat.max 1 (2 * length (words_with_prefix true [] t)) /\
  tree_key_bytes (root t)
  <= list_sum (map (@length ascii) (words_with_prefix true [] t)).
Proof.
  intros t.
  split; [apply trie_of_insert_reachable|].
  apply (@X10_insert_only_memory_bound true t), trie_of_insert_reachable.
Defined.

Lemma X11_starts_with_stored_prefix_witness :
  let t := snd (remove true (str "help")
                  (trie_of true ["hello"; "help"]%string)) in
  let p := str "hel" in
  let w := str "hello" in
  reachable true t /\ p <> [] /\
  In w (words_with_prefix true [] t) /\ has_prefix p w = true /\
  starts_with true p t = true.
Proof.
  intros t p w.
  assert (Hr : reachable true t) by apply reach_remove, trie_of_reachable.
  split; [exact Hr|].
  split; [discriminate|].
  split; [left; reflexivity|].
  split; [reflexivity|].
  apply (@X11_starts_with_stored_prefix true t p w);
    [exact Hr | discriminate | left; reflexivity | reflexivity].
Defined.

Lemma X12_starts_with_iff_insert_only_witness :
  let t := trie_of true ["hello"; "help"]%string in
  let p := str "hel" in
  insert_reachable true t /\ p <> [] /\
  (starts_with true p t = true <-> words_with_prefix true p t <> []).
Proof.
  intros t p.
  split; [apply trie_of_insert_reachable|].
  split; [discriminate|].
  apply (@X12_starts_with_iff_insert_only true t p);
    [apply trie_of_insert_reachable | discriminate].
Defined.

Lemma X13_remove_keeps_starts_with_witness :
  let t := trie_of true ["hello"]%string in
  let w := str "hello" in
  w <> [] /\
  starts_with true w (snd (remove true w t)) = starts_with true w t.
Proof.
  intros t w.
  split; [discriminate|].
  apply (@X13_remove_keeps_starts_with true t w w); discriminate.
Defined.

Lemma X15_find_child_on_sorted_witness :
  let current := root (trie_of true ["hello"; "world"]%string) in
  let c := "i"%char in
  sorted_by (char_ltb true) current /\
  (forall child,
     child_at current (find_child true current c) c = Some child <->
     In (c, child) (children current)) /\
  (child_at current (find_child true current c) c = None ->
   forall node,
     sorted_by (char_ltb true)
       (set_children
          (vec_insert (find_child true current c) (c, node)
             (children current))
          current)).
Proof.
  intros current c.
  assert (Hs : sorted_by (char_ltb true) current)
    by (unfold sorted_by; cbn; repeat constructor).
  split; [exact Hs|].
  apply (@X15_find_child_on_sorted true current c Hs).
Defined.

Lemma X16_split_node_keeps_words_witness :
  let current := root (trie_of true ["hello"; "world"]%string) in
  let child := mkNode (str "hello") true "h"%char [] in
  let c := "h"%char in
  wf_node true current /\
  child_at current (find_child true current c) c = Some child /\
  0 < 3 < length (key child) /\
  let r := split_node true current c 3 (key child) in
  wf_node true r /\
  (forall pre, words_of r pre = words_of current pre) /\
  tree_nodes r = S (tree_nodes current) /\
  exists inter old,
    child_at r (find_child true r c) c = Some inter /\
    key inter = firstn 3 (key child) /\
    is_end inter = false /\
    map snd (children inter) = [old] /\
    key old = skipn 3 (key child) /\
    is_end old = is_end child /\ children old = children child.
Proof.
  intros current child c.
  assert (Hwf : wf_node true current)
    by (apply wf_nodes, reachable_wf,
          (@trie_of_reachable true ["hello"; "world"]%string)).
  split; [exact Hwf|].
  split; [reflexivity|].
  split; [simpl; lia|].
  apply (@X16_split_node_keeps_words true current child c 3);
    [exact Hwf | reflexivity | simpl; lia].
Defined.

Lemma X17_heights_per_word_witness :
  let t := trie_of true ["a"; "ab"; "b"]%string in
  reachable true t /\ empty t = false /\
  exists s,
    get_height_stats newest_first t = Some s /\
    Forall2 (fun h w => (1 <= h <= Z.of_nat (length w))%Z)
      (all_heights s) (words_with_prefix true [] t) /\
    In (min_height s) (all_heights s) /\
    In (max_height s) (all_heights s) /\
    Forall (fun h => (min_height s <= h <= max_height s)%Z) (all_heights s).
Proof.
  intros t.
  split; [apply trie_of_reachable|].
  split; [reflexivity|].
  apply (@X17_heights_per_word true newest_first t);
    [apply trie_of_reachable | reflexivity].
Defined.


Lemma X19_literal_pattern_is_lookup_witness :
  let t := trie_of true ["cat"; "car"; "card"]%string in
  let p := str "car" in
  reachable true t /\
  (Z.of_nat (count_end (root t)) < size_t_modulus)%Z /\
  literal p /\
  (forall w, matches_pattern w p = true <-> w = p) /\
  pattern_search p t = if search true p t then [p] else [].
Proof.
  intros t p.
  assert (Hlit : literal p) by (repeat constructor; discriminate).
  split; [apply trie_of_reachable|].
  split; [reflexivity|].
  split; [exact Hlit|].
  apply (@X19_literal_pattern_is_lookup true t p);
    [apply trie_of_reachable | reflexivity | exact Hlit].
Defined.

Lemma X20_unsigned_char_sort_changes_nothing_witness :
  let t := trie_of false ["cat"; "car"; "card"; "dog"]%string in
  let p := str "ca*" in
  false = false /\
  reachable false t /\
  (Z.of_nat (count_end (root t)) < size_t_modulus)%Z /\
  pattern_search p t
  = filter (fun w => matches_pattern w p) (words_with_prefix false [] t).
Proof.
  intros t p.
  split; [reflexivity|].
  split; [apply trie_of_reachable|].
  split; [reflexivity|].
  apply (@X20_unsigned_char_sort_changes_nothing false t p);
    [reflexivity | apply trie_of_reachable | reflexivity].
Defined.


Lemma X22_insert_batch_witness :
  let t := trie_of true ["a"]%string in
  let words := [JsString (str "a"); JsOther; JsString []; JsString (str "b")] in
  reachable true t /\
  snd (InsertBatch true words t) = insert_each true (js_strings words) t /\
  fst (InsertBatch true words t)
  = (Z.of_nat (length (filter non_empty (js_strings words))) mod 2 ^ 32)%Z /\
  forall x,
    search true x (snd (InsertBatch true words t)) = true <->
    (In x (js_strings words) /\ x <> []) \/ search true x t = true.
Proof.
  intros t words.
  split; [apply trie_of_reachable|].
  apply (@X22_insert_batch true t words), trie_of_reachable.
Defined.

Lemma X23_remove_batch_witness :
  let t := trie_of true ["hello"; "help"; "world"]%string in
  let words := [JsString (str "help"); JsOther; JsString (str "help")] in
  reachable true t /\
  let flags := fst (RemoveBatch true words t) in
  let t' := snd (RemoveBatch true words t) in
  length flags = length words /\
  size t'
  = ((size t - Z.of_nat (length (filter (fun b : bool => b) flags)))
     mod size_t_modulus)%Z /\
  forall x, search true x t' = true <->
            search true x t = true /\ ~ In x (js_strings words).
Proof.
  intros t words.
  split; [apply trie_of_reachable|].
  apply (@X23_remove_batch true t words), trie_of_reachable.
Defined.

Lemma X24_bulk_insert_of_concatenation_witness :
  let a := str "alpha" in
  let b := str " beta " in
  let sep := "010"%char in
  0 < 2 /\ 0 < 3 /\ 0 < 4 /\ is_line_break sep = true /\
  let first := bulk_insert_from_file true a 2 new_trie in
  let second := bulk_insert_from_file true b 3 (snd first) in
  bulk_insert_from_file true (a ++ sep :: b) 4 new_trie
  = (size_t_add (fst first) (fst second), snd second).
Proof.
  intros a b sep.
  split; [lia|]. split; [lia|]. split; [lia|]. split; [reflexivity|].
  apply (@X24_bulk_insert_of_concatenation true new_trie a b sep 2 3 4);
    [lia | lia | lia | reflexivity].
Defined.

Lemma X28_parent_char_is_filing_byte_witness :
  let t := trie_of true ["hello"; "help"; "world"]%string in
  reachable true t /\
  every_node
    (fun n => Forall (fun p => parent_char (snd p) = fst p /\
                               hd_error (key (snd p)) = Some (fst p))
                (children n))
    (root t).
Proof.
  intros t.
  split; [apply trie_of_reachable|].
  apply (@X28_parent_char_is_filing_byte true t), trie_of_reachable.
Defined.

Lemma X29_remove_then_insert_witness :
  let t := trie_of true ["hello"; "help"; "world"]%string in
  let w := str "help" in
  reachable true t /\ search true w t = true /\
  size (insert true w (snd (remove true w t))) = size t /\
  words_with_prefix true [] (insert true w (snd (remove true w t)))
  = words_with_prefix true [] t /\
  forall x, search true x (insert true w (snd (remove true w t)))
            = search true x t.
Proof.
  intros t w.
  split; [apply trie_of_reachable|].
  split; [reflexivity|].
  apply (@X29_remove_then_insert true t w);
    [apply trie_of_reachable | reflexivity].
Defined.

Lemma X30_starts_with_empty_prefix_witness :
  let t := snd (remove true (str "a") (trie_of true ["a"]%string)) in
  reachable true t /\
  (Z.of_nat (count_end (root t)) < size_t_modulus)%Z /\
  (starts_with true [] t = true <-> words_with_prefix true [] t <> []).
Proof.
  intros t.
  assert (Hr : reachable true t) by apply reach_remove, trie_of_reachable.
  split; [exact Hr|].
  split; [reflexivity|].
  apply (@X30_starts_with_empty_prefix true t); [exact Hr | reflexivity].
Defined.
